(** * Secret Santa: a shallow embedding of [models/secret_santa_model.py]
    and [services/csv_service.py], with the properties of the assignment
    engine and of the record loaders. *)

From stdpp Require Import base option list gmap strings pretty.

Set Default Proof Using "Type".

(** ** Python values, rows and exceptions *)

(** A cell of a row read by [csv.DictReader]: a [str] or [None]. *)
Abbreviation pyval := (option string).

(** Python truthiness of a cell: [None] and the empty string are falsy. *)
Definition truthy (v : pyval) : bool :=
  match v with
  | Some (String _ _) => true
  | _ => false
  end.

(** A row is a dict from column names to cells. *)
Abbreviation row := (gmap string pyval).

(** [d.get(k)]: [None] when the key is absent. *)
Definition dict_get {K} `{Countable K} (d : gmap K pyval) (k : K) : pyval :=
  default None (d !! k).

Inductive exn : Type :=
  | ValueError (msg : string)
  | RuntimeError (msg : string)
  | KeyError (key : pyval)
  | FileNotFoundError (msg : string)
  | Exception (msg : string).

Inductive outcome (A : Type) : Type :=
  | Return (a : A)
  | Raise (e : exn).
Arguments Return {A} a.
Arguments Raise {A} e.

(** Exceptions propagate through sequenced statements: [x ← c; k] runs [k]
    on the value of [c] unless [c] raises. *)
#[global] Instance outcome_bind : MBind outcome := λ A B f c,
  match c with
  | Return a => f a
  | Raise e => Raise e
  end.

(** [d[k]]: raises [KeyError] when the key is absent. *)
Definition getitem {K V} `{Countable K} (key_repr : K → pyval)
    (d : gmap K V) (k : K) : outcome V :=
  match d !! k with
  | Some v => Return v
  | None => Raise (KeyError (key_repr k))
  end.

(** The model object: the three attributes set by [__init__]. *)
Record SecretSantaModel : Type := mkModel {
  employees : list row;
  last_year_assignments : list row;
  result : list row
}.

Definition set_result (self : SecretSantaModel) (r : list row) :=
  mkModel (employees self) (last_year_assignments self) r.
Definition set_employees (self : SecretSantaModel) (d : list row) :=
  mkModel d (last_year_assignments self) (result self).
Definition set_last_year_assignments (self : SecretSantaModel) (d : list row) :=
  mkModel (employees self) d (result self).

(** ** The assignment engine: [generate_assignments] *)

Module Engine.

(** The random source.  [random.shuffle] is library code: the generator is
    modelled by its position [g] (the number of shuffles drawn so far) and
    an oracle giving, at each position, the rearrangement applied to the
    list.  [fair] is the contract of [random.shuffle]: the list is
    rearranged in place, nothing is added or lost. *)
Definition shuffler : Type := nat → list pyval → list pyval.

Definition fair (sh : shuffler) : Prop := ∀ g l, sh g l ≡ₚ l.

(** [names = [e['Employee_EmailID'] for e in employees]] *)
Fixpoint build_names (emps : list row) : outcome (list pyval) :=
  match emps with
  | [] => Return []
  | e :: rest =>
      v ← getitem Some e "Employee_EmailID";
      vs ← build_names rest;
      Return (v :: vs)
  end.

(** [email_to_emp = {e['Employee_EmailID']: e for e in employees}]; a later
    employee with the same email overwrites the earlier one. *)
Fixpoint build_email_to_emp (emps : list row) (acc : gmap pyval row)
    : outcome (gmap pyval row) :=
  match emps with
  | [] => Return acc
  | e :: rest =>
      v ← getitem Some e "Employee_EmailID";
      build_email_to_emp rest (<[v := e]> acc)
  end.

(** The loop building [last_year]: rows whose giver or child is falsy are
    skipped, a later row of the same giver overwrites the earlier one. *)
Definition last_year_step (ly : gmap pyval pyval) (r : row) : gmap pyval pyval :=
  let giver := dict_get r "Employee_EmailID" in
  let child := dict_get r "Secret_Child_EmailID" in
  if truthy giver && truthy child then <[giver := child]> ly else ly.

Definition build_last_year (rows : list row) : gmap pyval pyval :=
  foldl last_year_step ∅ rows.

(** [l[i], l[j] = l[j], l[i]]: the right-hand side is read first, then
    [l[i]] and [l[j]] are written in this order.  All indices used by the
    engine are below [n = len(l)], so no [IndexError] arises. *)
Definition swap (l : list pyval) (i j : nat) : list pyval :=
  <[j := l !!! i]> (<[i := l !!! j]> l).

(** A generator of this kind, after CPython's [random.shuffle]:
    [for i in reversed(range(1, len(x))): j = randbelow(i + 1);
    x[i], x[j] = x[j], x[i]].  [draw i] stands for the raw value behind
    [randbelow(i + 1)]. *)
Fixpoint shuffle_down (draw : nat → nat) (i : nat) (x : list pyval)
    : list pyval :=
  match i with
  | 0 => x
  | S i' => shuffle_down draw i' (swap x i (draw i `mod` S i))
  end.

Definition python_shuffle (draws : nat → nat → nat) : shuffler :=
  λ g x, shuffle_down (draws g) (length x - 1) x.

Section passes.
Variable names : list pyval.
Variable last_year : gmap pyval pyval.
Local Abbreviation n := (length names).

(** Step 1, body of the loop at index [i]. *)
Definition fix_self_step (receivers : list pyval) (i : nat) : list pyval :=
  if bool_decide (names !!! i = receivers !!! i)
  then swap receivers i ((i + 1) `mod` n)
  else receivers.

(** Step 1: [for i in range(n)]. *)
Definition fix_self (receivers : list pyval) : list pyval :=
  foldl fix_self_step receivers (seq 0 n).

(** The five-fold test guarding the swap of step 2. *)
Definition can_swap (receivers : list pyval) (i j : nat) : bool :=
  bool_decide (names !!! j ≠ receivers !!! j)
  && bool_decide (receivers !!! j ≠ names !!! i)
  && bool_decide (receivers !!! i ≠ names !!! j)
  && bool_decide (dict_get last_year (names !!! j) ≠ receivers !!! i)
  && bool_decide (dict_get last_year (names !!! i) ≠ receivers !!! j).

(** The inner loop [for j in range(n)] with its [break]: the index of the
    swap partner, if any. *)
Fixpoint find_swap (receivers : list pyval) (i : nat) (js : list nat)
    : option nat :=
  match js with
  | [] => None
  | j :: js' =>
      if can_swap receivers i j then Some j
      else find_swap receivers i js'
  end.

(** Step 2: the outer loop over the remaining indices [idxs]; returns
    [valid_assignment] and the receivers as the loop leaves them. *)
Fixpoint fix_repeats (idxs : list nat) (receivers : list pyval)
    : bool * list pyval :=
  match idxs with
  | [] => (true, receivers)
  | i :: idxs' =>
      if bool_decide (dict_get last_year (names !!! i) = receivers !!! i)
      then match find_swap receivers i (seq 0 n) with
           | Some j => fix_repeats idxs' (swap receivers i j)
           | None => (false, receivers)
           end
      else fix_repeats idxs' receivers
  end.

(** The final check: the loop leaves at the first violated index. *)
Fixpoint final_check (idxs : list nat) (receivers : list pyval) : bool :=
  match idxs with
  | [] => true
  | i :: idxs' =>
      if bool_decide (names !!! i = receivers !!! i) then false
      else if bool_decide (dict_get last_year (names !!! i) = receivers !!! i)
      then false
      else final_check idxs' receivers
  end.

(** One pass of the body of the retry loop, up to the decision
    [final_check_pass]: the flag and the receivers list as left. *)
Definition attempt (sh : shuffler) (g : nat) (receivers : list pyval)
    : bool * list pyval :=
  let r1 := sh g receivers in
  let r2 := fix_self r1 in
  let '(valid_assignment, r3) := fix_repeats (seq 0 n) r2 in
  if valid_assignment then (final_check (seq 0 n) r3, r3)
  else (false, r3).
End passes.

(** The record appended to [self.result] for one pair. *)
Definition result_row (email_to_emp : gmap pyval row)
    (giver_email child_email : pyval) : outcome row :=
  giver_data ← getitem id email_to_emp giver_email;
  child_data ← getitem id email_to_emp child_email;
  giver_name ← getitem Some giver_data "Employee_Name";
  giver_id ← getitem Some giver_data "Employee_EmailID";
  child_name ← getitem Some child_data "Employee_Name";
  child_id ← getitem Some child_data "Employee_EmailID";
  Return (<["Secret_Child_EmailID" := child_id]>
         (<["Secret_Child_Name" := child_name]>
         (<["Employee_EmailID" := giver_id]>
         (<["Employee_Name" := giver_name]> ∅)))).

(** [for giver_email, child_email in zip(names, receivers)]: the records are
    appended to [self.result] one at a time, so an exception leaves the
    records built so far in place. *)
Fixpoint build_result (email_to_emp : gmap pyval row)
    (pairs : list (pyval * pyval)) (self : SecretSantaModel)
    : outcome unit * SecretSantaModel :=
  match pairs with
  | [] => (Return (), self)
  | (giver_email, child_email) :: rest =>
      match result_row email_to_emp giver_email child_email with
      | Raise x => (Raise x, self)
      | Return r =>
          build_result email_to_emp rest (set_result self (result self ++ [r]))
      end
  end.

Definition max_attempts : nat := 100.

Definition exhausted_msg : string :=
  "No valid Secret Santa assignment exists after multiple attempts.".

Definition too_few_msg : string := "Need at least 2 participants".

(** [for attempt in range(max_attempts)]: [left] iterations remain, the
    generator stands at position [g]. *)
Fixpoint attempts (sh : shuffler) (names : list pyval)
    (last_year : gmap pyval pyval) (email_to_emp : gmap pyval row)
    (left : nat) (g : nat) (receivers : list pyval) (self : SecretSantaModel)
    : outcome unit * SecretSantaModel * nat :=
  match left with
  | 0 => (Raise (RuntimeError exhausted_msg), self, g)
  | S left' =>
      let '(final_check_pass, receivers') :=
        attempt names last_year sh g receivers in
      if final_check_pass
      then (build_result email_to_emp (zip names receivers')
              (set_result self []), S g)
      else attempts sh names last_year email_to_emp left' (S g) receivers' self
  end.

(** [generate_assignments]: the outcome, the model afterwards and the
    position of the generator afterwards. *)
Definition generate_assignments (sh : shuffler) (self : SecretSantaModel)
    (g : nat) : outcome unit * SecretSantaModel * nat :=
  let emps := employees self in
  let n := length emps in
  if bool_decide (n < 2) then (Raise (ValueError too_few_msg), self, g)
  else
    match build_email_to_emp emps ∅ with
    | Raise x => (Raise x, self, g)
    | Return email_to_emp =>
        match build_names emps with
        | Raise x => (Raise x, self, g)
        | Return names =>
            let last_year := build_last_year (last_year_assignments self) in
            attempts sh names last_year email_to_emp max_attempts g names self
        end
    end.

(** *** Vocabulary of the statements *)

(** No index below [k] is assigned to itself. *)
Definition self_free (names : list pyval) (k : nat) (r : list pyval) : Prop :=
  ∀ i, i < k → names !!! i ≠ r !!! i.

(** No index below [k] repeats last year's recipient (the test of the code:
    [last_year.get(names[i]) == receivers[i]]). *)
Definition repeat_free (names : list pyval) (last_year : gmap pyval pyval)
    (k : nat) (r : list pyval) : Prop :=
  ∀ i, i < k → dict_get last_year (names !!! i) ≠ r !!! i.

(** Some rearrangement of the names meets both constraints. *)
Definition satisfiable (names : list pyval) (last_year : gmap pyval pyval)
    : Prop :=
  ∃ r, r ≡ₚ names ∧ self_free names (length names) r
       ∧ repeat_free names last_year (length names) r.

(** The receivers list as iteration [k] of the retry loop finds it, when
    the iterations before it have all failed: the list is never reset. *)
Fixpoint receivers_at (sh : shuffler) (names : list pyval)
    (last_year : gmap pyval pyval) (g : nat) (receivers : list pyval)
    (k : nat) : list pyval :=
  match k with
  | 0 => receivers
  | S k' =>
      (attempt names last_year sh (g + k')
         (receivers_at sh names last_year g receivers k')).2
  end.

(** Iteration [k] of the retry loop passes the final check. *)
Definition attempt_passes (sh : shuffler) (names : list pyval)
    (last_year : gmap pyval pyval) (g : nat) (receivers : list pyval)
    (k : nat) : bool :=
  (attempt names last_year sh (g + k)
     (receivers_at sh names last_year g receivers k)).1.

(** The two email columns of a result. *)
Definition givers (res : list row) : list pyval :=
  (λ r : row, dict_get r "Employee_EmailID") <$> res.

Definition recipients (res : list row) : list pyval :=
  (λ r : row, dict_get r "Secret_Child_EmailID") <$> res.

(** The prior-repeat repair pass in the words of the specification.  The
    five conditions on a swap partner [j] for index [i]: *)
Definition swap_allowed (names : list pyval) (last_year : gmap pyval pyval)
    (r : list pyval) (i j : nat) : Prop :=
  names !!! j ≠ r !!! j
  ∧ r !!! j ≠ names !!! i
  ∧ r !!! i ≠ names !!! j
  ∧ dict_get last_year (names !!! j) ≠ r !!! i
  ∧ dict_get last_year (names !!! i) ≠ r !!! j.

(** [receivers[i]] and [receivers[j]] are swapped: [r'] is [r] with the
    entries at [i] and [j] exchanged, every other entry as it was. *)
Definition exchanged (r : list pyval) (i j : nat) (r' : list pyval) : Prop :=
  length r' = length r
  ∧ r' !! i = r !! j
  ∧ r' !! j = r !! i
  ∧ ∀ k, k ≠ i → k ≠ j → r' !! k = r !! k.

(** [repair_pass_spec names last_year i r out]: processing the indices from
    [i] on, in order, from the receivers [r], the pass ends with [out]: the
    flag [true] and the repaired list when every index was processed, the
    flag [false] when the attempt is abandoned at some index. *)
Inductive repair_pass_spec (names : list pyval)
    (last_year : gmap pyval pyval)
    : nat → list pyval → bool * list pyval → Prop :=
  | repair_done r :
      repair_pass_spec names last_year (length names) r (true, r)
  | repair_skip i r out :
      i < length names →
      dict_get last_year (names !!! i) ≠ r !!! i →
      repair_pass_spec names last_year (S i) r out →
      repair_pass_spec names last_year i r out
  | repair_swap i j r r' out :
      i < length names →
      dict_get last_year (names !!! i) = r !!! i →
      j < length names →
      swap_allowed names last_year r i j →
      (∀ j', j' < j → ¬ swap_allowed names last_year r i j') →
      exchanged r i j r' →
      repair_pass_spec names last_year (S i) r' out →
      repair_pass_spec names last_year i r out
  | repair_abandon i r :
      i < length names →
      dict_get last_year (names !!! i) = r !!! i →
      (∀ j, j < length names → ¬ swap_allowed names last_year r i j) →
      repair_pass_spec names last_year i r (false, r).

(** The list the repair pass of iteration [k] of the retry loop starts
    from: the receivers as iteration [k] finds them, shuffled, after the
    sweep of step 1. *)
Definition repair_input (sh : shuffler) (names : list pyval)
    (last_year : gmap pyval pyval) (g : nat) (receivers : list pyval)
    (k : nat) : list pyval :=
  fix_self names
    (sh (g + k) (receivers_at sh names last_year g receivers k)).

(** Iteration [k] is abandoned in its repair pass. *)
Definition abandoned (sh : shuffler) (names : list pyval)
    (last_year : gmap pyval pyval) (g : nat) (receivers : list pyval)
    (k : nat) : Prop :=
  ∃ r3,
    repair_pass_spec names last_year 0
      (repair_input sh names last_year g receivers k) (false, r3).

(** In the sweep of step 1 from the list [r], the swap at index [i]
    regresses: it is performed, it puts a self-assignment at the
    neighbouring index that was not there before, and that self-assignment
    is still there when the sweep ends. *)
Definition swap_regresses (names r : list pyval) (i : nat) : Prop :=
  let s := foldl (fix_self_step names) r (seq 0 i) in
  let j := (i + 1) `mod` length names in
  i < length names
  ∧ names !!! i = s !!! i
  ∧ names !!! j ≠ s !!! j
  ∧ names !!! j = swap s i j !!! j
  ∧ names !!! j = fix_self names r !!! j.

(** From the shuffled list [r], step 2 completes every index and the final
    check still fails. *)
Definition verified_invalid (names : list pyval)
    (last_year : gmap pyval pyval) (r : list pyval) : Prop :=
  ∃ r3,
    fix_repeats names last_year (seq 0 (length names)) (fix_self names r)
      = (true, r3)
    ∧ final_check names last_year (seq 0 (length names)) r3 = false.

End Engine.



(** ** The record store: [CSVService.read_csv] and the two loaders *)

Module Store.

(** What [read_csv] finds at a path: nothing (no entry), something that
    cannot be opened or parsed, or a table whose data rows
    [csv.DictReader] returns as dicts. *)
Inductive file : Type :=
  | Unreadable
  | Rows (data : list row).

Abbreviation filesystem := (gmap string file).

(** The message is an f-string with doubled braces: the braces are printed,
    the path is not. *)
Definition not_found_msg : string := "The file '{file_path}' was not found.".

Definition read_failed_msg : string := "Failed to read CSV file".

(** [CSVService.read_csv] *)
Definition read_csv (fs : filesystem) (file_path : string)
    : outcome (list row) :=
  match fs !! file_path with
  | None => Raise (FileNotFoundError not_found_msg)
  | Some Unreadable => Raise (Exception read_failed_msg)
  | Some (Rows data) => Return data
  end.

(** [str.isspace].  A character of a string stands for a code point below
    256; the white space among these is 9 to 13, 28 to 32, 133 and 160. *)
Definition isspace (c : Ascii.ascii) : bool :=
  let k := Ascii.nat_of_ascii c in
  ((9 <=? k) && (k <=? 13)) || ((28 <=? k) && (k <=? 32))
  || (k =? 133) || (k =? 160).

Fixpoint lstrip (s : string) : string :=
  match s with
  | EmptyString => EmptyString
  | String c s' => if isspace c then lstrip s' else s
  end.

Definition rstrip (s : string) : string := String.rev (lstrip (String.rev s)).

(** [s.strip()] *)
Definition strip (s : string) : string := rstrip (lstrip s).

(** The test [not v or not v.strip()] of the loaders. *)
Definition missing_or_empty (v : pyval) : bool :=
  match v with
  | None => true
  | Some s => if truthy v then negb (truthy (Some (strip s))) else true
  end.

(** A cell inside an f-string. *)
Definition format (v : pyval) : string :=
  match v with
  | Some s => s
  | None => "None"
  end.

Definition empty_file_msg : string := "The CSV file is empty.".

Definition too_few_rows_msg : string :=
  "The number of employees must be more than 2 for Secret Santa.".

Definition missing_msg (field : string) (i : nat) : string :=
  "'" +:+ field +:+ "' is missing or empty at row " +:+ pretty i +:+ ".".

Definition duplicate_msg (email : pyval) (i : nat) : string :=
  "Duplicate email found: '" +:+ format email +:+ "' at row "
    +:+ pretty i +:+ ".".

(** The loop [for i, row in enumerate(data, start=1)] of
    [load_employees_from_csv]. *)
Fixpoint check_employees (rows : list row) (i : nat)
    (seen_emails : gset pyval) : outcome unit :=
  match rows with
  | [] => Return ()
  | row :: rest =>
      let name := dict_get row "Employee_Name" in
      let email := dict_get row "Employee_EmailID" in
      if missing_or_empty name
      then Raise (ValueError (missing_msg "Employee_Name" i))
      else if missing_or_empty email
      then Raise (ValueError (missing_msg "Employee_EmailID" i))
      else if bool_decide (email ∈ seen_emails)
      then Raise (ValueError (duplicate_msg email i))
      else check_employees rest (S i) (seen_emails ∪ {[email]})
  end.

(** [load_employees_from_csv]; the [except] clause re-raises what it
    caught. *)
Definition load_employees_from_csv (fs : filesystem) (file_path : string)
    (self : SecretSantaModel) : outcome unit * SecretSantaModel :=
  match read_csv fs file_path with
  | Raise x => (Raise x, self)
  | Return data =>
      if bool_decide (data = []) then (Raise (ValueError empty_file_msg), self)
      else if bool_decide (length data ≤ 2)
      then (Raise (ValueError too_few_rows_msg), self)
      else match check_employees data 1 ∅ with
           | Raise x => (Raise x, self)
           | Return _ => (Return (), set_employees self data)
           end
  end.

Definition last_year_missing_msg (field : string) (i : nat) : string :=
  "'" +:+ field
    +:+ "' is missing or empty in last year's assignment file at row "
    +:+ pretty i +:+ ".".

Definition empty_warning : string :=
  "Warning: Last year's assignment file is empty.".

(** The four columns of a prior assignment, in the order they are tested. *)
Definition last_year_fields : list string :=
  ["Employee_Name"; "Employee_EmailID";
   "Secret_Child_Name"; "Secret_Child_EmailID"].

(** The tests on one row of [load_last_year_assignments]: all four cells
    are read first, then tested in order. *)
Definition check_last_year_row (row : gmap string pyval) (i : nat)
    : outcome unit :=
  let emp_name := dict_get row "Employee_Name" in
  let emp_email := dict_get row "Employee_EmailID" in
  let child_name := dict_get row "Secret_Child_Name" in
  let child_email := dict_get row "Secret_Child_EmailID" in
  if missing_or_empty emp_name
  then Raise (ValueError (last_year_missing_msg "Employee_Name" i))
  else if missing_or_empty emp_email
  then Raise (ValueError (last_year_missing_msg "Employee_EmailID" i))
  else if missing_or_empty child_name
  then Raise (ValueError (last_year_missing_msg "Secret_Child_Name" i))
  else if missing_or_empty child_email
  then Raise (ValueError (last_year_missing_msg "Secret_Child_EmailID" i))
  else Return ().

Fixpoint check_last_year (rows : list row) (i : nat) : outcome unit :=
  match rows with
  | [] => Return ()
  | row :: rest =>
      _ ← check_last_year_row row i;
      check_last_year rest (S i)
  end.

(** [load_last_year_assignments]: the outcome, the model afterwards and the
    lines printed. *)
Definition load_last_year_assignments (fs : filesystem) (file_path : string)
    (self : SecretSantaModel)
    : outcome unit * SecretSantaModel * list string :=
  match read_csv fs file_path with
  | Raise x => (Raise x, self, [])
  | Return data =>
      if bool_decide (data = [])
      then (Return (), set_last_year_assignments self [], [empty_warning])
      else match check_last_year data 1 with
           | Raise x => (Raise x, self, [])
           | Return _ => (Return (), set_last_year_assignments self data, [])
           end
  end.

Definition no_previous_msg : string :=
  "No previous year's file provided. Proceeding without constraints from last year.".

(** Step 2 of [run]: [previous_file] is the stripped answer to the prompt;
    a blank answer skips the loader. *)
Definition run_load_previous (fs : filesystem) (previous_file : string)
    (self : SecretSantaModel)
    : outcome unit * SecretSantaModel * list string :=
  if truthy (Some previous_file)
  then load_last_year_assignments fs previous_file self
  else (Return (), set_last_year_assignments self [], [no_previous_msg]).

(** *** Vocabulary of the statements *)

(** A cell is missing or blank: absent, [None], empty, or white space
    only. *)
Definition blank (v : pyval) : bool :=
  match v with
  | None => true
  | Some s => forallb isspace (String.list_ascii_of_string s)
  end.

Definition name_of (r : gmap string pyval) : pyval :=
  dict_get r "Employee_Name".
Definition email_of (r : gmap string pyval) : pyval :=
  dict_get r "Employee_EmailID".

(** An earlier data row carries the same email. *)
Definition duplicated (data : list row) (i : nat) (r : gmap string pyval)
    : Prop :=
  ∃ j r', j < i ∧ data !! j = Some r' ∧ email_of r' = email_of r.

(** Row [i] (counted from 0) of the participants is rejected. *)
Definition offending (data : list row) (i : nat) (r : gmap string pyval)
    : Prop :=
  blank (name_of r) = true ∨ blank (email_of r) = true ∨ duplicated data i r.

(** The message for row [i] (counted from 0): its number counted from 1
    and the field. *)
Definition employee_error (i : nat) (r : gmap string pyval) : string :=
  if blank (name_of r) then missing_msg "Employee_Name" (S i)
  else if blank (email_of r) then missing_msg "Employee_EmailID" (S i)
  else duplicate_msg (email_of r) (S i).

(** The first of the four fields that is missing or blank, if any. *)
Definition first_blank_field (r : gmap string pyval) : option string :=
  List.find (λ f, blank (dict_get r f)) last_year_fields.

End Store.

(** ** Writing the result: [CSVService.write_csv] *)

Module Writer.
Import Store.

Definition empty_data_msg : string :=
  "Data list is empty. Cannot write empty CSV with no headers.".

Definition write_failed_msg : string := "Failed to write CSV file".

(** The cell [csv.DictWriter] writes for a value: [None] is written as the
    empty string. *)
Definition written_cell (v : pyval) : pyval := Some (default EmptyString v).

(** The data row a reader finds for a written row whose keys are among the
    field names: the cells of the row, and the empty string ([restval])
    for the fields the row lacks. *)
Definition written_row (fieldnames : gset string) (r : gmap string pyval)
    : gmap string pyval :=
  (written_cell <$> r) ∪ gset_to_gmap (Some EmptyString) fieldnames.

(** [writer.writerows(data)]: the rows are written one after the other; a
    row with a key outside the field names makes [DictWriter] raise
    [ValueError], the rows before it being written already.  Returns the
    rows written and whether all were. *)
Fixpoint write_rows (fieldnames : gset string) (data : list row)
    : list row * bool :=
  match data with
  | [] => ([], true)
  | r :: rest =>
      if decide (dom r ⊆ fieldnames)
      then let '(rows, ok) := write_rows fieldnames rest in
           (written_row fieldnames r :: rows, ok)
      else ([], false)
  end.

(** What [read_csv] finds in a file written with these field names: with no
    field at all, the header and the rows are blank lines, which the reader
    takes for an empty table.  This is what the reader returns for field
    names and cells within its limit on the length of a field, see
    [fields_fit]; cells that [read_csv] has returned are within it. *)
Definition table (fieldnames : gset string) (rows : list row) : file :=
  Rows (if decide (fieldnames = ∅) then [] else rows).

(** [CSVService.write_csv].  [can_open] tells whether [open(path, 'w')]
    succeeds; when it does the file is truncated at once.  The empty-data
    error is raised before the [try]; whatever is raised inside it comes
    out as [Exception].  The disk is keyed by the path as it is spelled:
    what the disk afterwards holds under [file_path] is what a read of
    [file_path] finds; other spellings of the same file are not followed. *)
Definition write_csv (can_open : string → bool) (fs : gmap string file)
    (file_path : string) (data : list row)
    : outcome unit * gmap string file :=
  match data with
  | [] => (Raise (ValueError empty_data_msg), fs)
  | first :: _ =>
      let fieldnames := dom first in
      if can_open file_path
      then let '(rows, ok) := write_rows fieldnames data in
           let fs' := <[file_path := table fieldnames rows]> fs in
           if ok then (Return (), fs')
           else (Raise (Exception write_failed_msg), fs')
      else (Raise (Exception write_failed_msg), fs)
  end.

(** *** Vocabulary of the statements *)

(** The limit of the csv reader on the length of a field
    ([csv.field_size_limit()]): a longer field makes the reader raise. *)
Definition field_size_limit : N := 131072.

Definition fits (s : string) : bool :=
  N.leb (N.of_nat (String.length s)) field_size_limit.

(** The field names and the cells of the records are all within the
    limit of the reader. *)
Definition fields_fit (fieldnames : gset string) (data : list row) : bool :=
  forallb fits (elements fieldnames)
  && forallb
       (λ r : gmap string pyval,
          forallb (λ kv : string * pyval, fits (default EmptyString kv.2))
            (map_to_list r))
       data.

(** A row as [csv.DictReader] returns it for these field names: exactly
    these keys, every cell a string. *)
Definition uniform (fieldnames : gset string) (r : gmap string pyval)
    : Prop :=
  dom r = fieldnames ∧ ∀ f v, r !! f = Some v → is_Some v.

End Writer.

(** ** The program: [__init__], [run] and [main] *)

Module App.
Import Engine Store Writer.

(** [SecretSantaModel.__init__] *)
Definition init (employees previous_assignments : option (list row))
    : SecretSantaModel :=
  mkModel (default [] employees) (default [] previous_assignments) [].

(** What the program acts on besides the model: the disk, the lines waiting
    on standard input, the texts written to standard output so far (prompts
    and printed lines, in order) and the position of the generator. *)
Record world : Type := mkWorld {
  disk : gmap string file;
  stdin : list string;
  stdout : list string;
  rng : nat
}.

Definition print (s : string) (w : world) : world :=
  mkWorld (disk w) (stdin w) (stdout w ++ [s]) (rng w).

Definition set_disk (d : gmap string file) (w : world) : world :=
  mkWorld d (stdin w) (stdout w) (rng w).

Definition set_rng (g : nat) (w : world) : world :=
  mkWorld (disk w) (stdin w) (stdout w) g.

(** [input(prompt)]: the prompt is written, then a line is taken; [None]
    stands for the [EOFError] raised when no line is left. *)
Definition input (prompt : string) (w : world) : option string * world :=
  match stdin w with
  | [] => (None, print prompt w)
  | line :: rest =>
      (Some line, mkWorld (disk w) rest (stdout w ++ [prompt]) (rng w))
  end.

Definition eof_msg : string := "EOF when reading a line".

(** [str(e)], as [print(e)] shows an exception: the message for an
    exception built from one string, the [repr] of the key for a
    [KeyError] (the key in quotes, exact for keys free of quotes,
    backslashes and control characters). *)
Definition exn_str (e : exn) : string :=
  match e with
  | ValueError msg | RuntimeError msg | FileNotFoundError msg
  | Exception msg => msg
  | KeyError (Some key) => "'" +:+ key +:+ "'"
  | KeyError None => "None"
  end.

Definition employee_prompt : string :=
  "Enter the path to the Employee CSV file: ".

Definition previous_prompt : string :=
  "Enter the path to last year's assignment CSV file (optional, press Enter to skip): ".

Definition output_prompt : string :=
  "Enter the path to save the result CSV file (default: secret_santa_result.csv): ".

Definition default_output : string := "secret_santa_result.csv".

Definition saved_msg (output_file : string) : string :=
  "Results successfully saved to " +:+ output_file.

(** The name of the output file for the answer to the third prompt. *)
Definition output_name (line : string) : string :=
  if truthy (Some (strip line)) then strip line else default_output.

(** Step 4 of [run], reached with the result in [self]. *)
Definition run_save (can_open : string → bool) (self : SecretSantaModel)
    (w : world) : SecretSantaModel * world :=
  match input output_prompt w with
  | (None, w) => (self, print eof_msg w)
  | (Some line, w) =>
      let output_file := output_name line in
      match write_csv can_open (disk w) output_file (result self) with
      | (Raise e, d) => (self, print (exn_str e) (set_disk d w))
      | (Return _, d) => (self, print (saved_msg output_file) (set_disk d w))
      end
  end.

(** Step 3 of [run]. *)
Definition run_generate (sh : shuffler) (can_open : string → bool)
    (self : SecretSantaModel) (w : world) : SecretSantaModel * world :=
  match generate_assignments sh self (rng w) with
  | (Raise e, self, g) => (self, print (exn_str e) (set_rng g w))
  | (Return _, self, g) => run_save can_open self (set_rng g w)
  end.

(** Step 2 of [run]. *)
Definition run_previous (sh : shuffler) (can_open : string → bool)
    (self : SecretSantaModel) (w : world) : SecretSantaModel * world :=
  match input previous_prompt w with
  | (None, w) => (self, print eof_msg w)
  | (Some line, w) =>
      match run_load_previous (disk w) (strip line) self with
      | (Raise e, self, printed) =>
          (self, print (exn_str e) (foldl (λ w s, print s w) w printed))
      | (Return _, self, printed) =>
          run_generate sh can_open self (foldl (λ w s, print s w) w printed)
      end
  end.

(** [run]: the four steps inside one [try]; whatever is raised is printed
    and the run ends. *)
Definition run (sh : shuffler) (can_open : string → bool)
    (self : SecretSantaModel) (w : world) : SecretSantaModel * world :=
  match input employee_prompt w with
  | (None, w) => (self, print eof_msg w)
  | (Some line, w) =>
      match load_employees_from_csv (disk w) (strip line) self with
      | (Raise e, self) => (self, print (exn_str e) w)
      | (Return _, self) => run_previous sh can_open self w
      end
  end.

Definition welcome_msg : string :=
  "Welcome to the Secret Santa Assignment Application!".

(** [main]: [run] lets no exception out, so the handler of [main] is never
    entered. *)
Definition main (sh : shuffler) (can_open : string → bool) (w : world)
    : SecretSantaModel * world :=
  run sh can_open (init None None) (print welcome_msg w).

End App.

(** ** Sample data *)

Module Samples.
Import Engine Store.

Definition emp (name email : string) : gmap string pyval :=
  <["Employee_Name" := Some name]> (<["Employee_EmailID" := Some email]> ∅).

Definition prior (giver_name giver child_name child : string)
    : gmap string pyval :=
  <["Employee_Name" := Some giver_name]>
  (<["Employee_EmailID" := Some giver]>
  (<["Secret_Child_Name" := Some child_name]>
  (<["Secret_Child_EmailID" := Some child]> ∅))).

Definition staff3 : list row :=
  [emp "Ann" "a@x"; emp "Bob" "b@x"; emp "Cyd" "c@x"].

Definition staff4 : list row := staff3 ++ [emp "Dee" "d@x"].

(** A first year: no prior assignments. *)
Definition first_year : SecretSantaModel := mkModel staff3 [] [].

(** Four participants, one of them with a recipient last year. *)
Definition scenario : SecretSantaModel :=
  mkModel staff4 [prior "Ann" "a@x" "Bob" "b@x"] [].

(** Three participants whose prior assignments rule out both derangements:
    one starts with a@x to b@x, the other contains b@x to a@x. *)
Definition adversarial : SecretSantaModel :=
  mkModel staff3
    [prior "Ann" "a@x" "Bob" "b@x"; prior "Bob" "b@x" "Ann" "a@x";
     prior "Cyd" "c@x" "Ann" "a@x"]
    [].

(** One participant only. *)
Definition lonely : SecretSantaModel := mkModel [emp "Ann" "a@x"] [] [].

(** Two participants without a name cell, and a result left by an earlier
    run. *)
Definition nameless : SecretSantaModel :=
  mkModel
    [<["Employee_EmailID" := Some "a@x"]> ∅;
     <["Employee_EmailID" := Some "b@x"]> ∅]
    [] [emp "Old" "o@x"].

(** Two participants, the second with [None] for email. *)
Definition unnamed : SecretSantaModel :=
  mkModel
    [emp "Ann" "a@x";
     <["Employee_Name" := Some "Bob"]> (<["Employee_EmailID" := None]> ∅)]
    [] [].

(** A generator whose draws follow the attempt and the index. *)
Definition sample_shuffle : shuffler := python_shuffle (λ g i, g + 2 * i + 1).

Definition names3 : list pyval := [Some "a@x"; Some "b@x"; Some "c@x"].

(** A disk with a clean staff table, one with a repeated email in its
    third row, last year's table, one with a blank recipient in its second
    row, an empty table and a file that cannot be read. *)
Definition disk : gmap string file :=
  <["staff.csv" := Rows staff4]>
  (<["dup.csv" := Rows [emp "Ann" "a@x"; emp "Bob" "b@x"; emp "Cyd" "a@x"]]>
  (<["last.csv" := Rows [prior "Ann" "a@x" "Bob" "b@x"]]>
  (<["gap.csv" := Rows [prior "Ann" "a@x" "Bob" "b@x";
                        prior "Bob" "b@x" "Cyd" "  "]]>
  (<["empty.csv" := Rows []]>
  (<["broken.csv" := Unreadable]> ∅))))).

End Samples.

(** ** Vocabulary of the further properties *)

Module More.
Import Engine Store Writer App.

Definition giver_of (r : gmap string pyval) : pyval :=
  dict_get r "Employee_EmailID".
Definition child_of (r : gmap string pyval) : pyval :=
  dict_get r "Secret_Child_EmailID".

(** The row enters the prior map: giver and child are both truthy. *)
Definition counts (r : gmap string pyval) : bool :=
  truthy (giver_of r) && truthy (child_of r).

(** The four columns of a result record. *)
Definition result_keys : gset string :=
  {[ "Employee_Name"; "Employee_EmailID";
     "Secret_Child_Name"; "Secret_Child_EmailID" ]}.

(** The first character of a text. *)
Definition first_char (s : string) : option Ascii.ascii :=
  match s with
  | EmptyString => None
  | String c _ => Some c
  end.

(** The text is not a report of success: it does not start with the
    capital R of [saved_msg]. *)
Definition failure_text (s : string) : Prop :=
  first_char s ≠ first_char (saved_msg EmptyString).

(** *** More sample data *)

(** Every file can be opened for writing. *)
Definition writable (path : string) : bool := true.

(** The sample disk, three answers waiting: the staff table, last year's
    table, and a blank for the default output name. *)
Definition sample_world : world :=
  mkWorld Samples.disk ["staff.csv"; " last.csv "; EmptyString] [] 0.

(** Records whose second one has a column the first lacks. *)
Definition ragged : list row :=
  [Samples.emp "Ann" "a@x"; Samples.prior "Bob" "b@x" "Ann" "a@x";
   Samples.emp "Cyd" "c@x"].


(** Two participants, the second without the email column. *)
Definition keyless : SecretSantaModel :=
  mkModel
    [Samples.emp "Ann" "a@x"; <["Employee_Name" := Some "Bob"]> ∅] [] [].

(** Three participants, one of them with a recipient last year. *)
Definition one_prior : SecretSantaModel :=
  mkModel Samples.staff3 [Samples.prior "Ann" "a@x" "Bob" "b@x"] [].

(** Four participants; last year Ann and Cyd both had Bob. *)
Definition two_priors : SecretSantaModel :=
  mkModel Samples.staff4
    [Samples.prior "Ann" "a@x" "Bob" "b@x";
     Samples.prior "Cyd" "c@x" "Bob" "b@x"]
    [].

Definition names4 : list pyval :=
  [Some "a@x"; Some "b@x"; Some "c@x"; Some "d@x"].

(** A generator whose first shuffle moves every entry of a list of four
    one place to the left, and whose second exchanges the entries at 1 and
    3. *)
Definition scripted_shuffle : shuffler :=
  python_shuffle
    (λ g i, match g with
            | 0 => 0
            | _ => match i with 3 => 1 | _ => i end
            end).

End More.

(** * Properties *)

Import Engine.

(** ** Swapping two cells *)

Section swap_facts.
Implicit Types l : list pyval.

Lemma length_swap l i j : length (swap l i j) = length l.
Proof. unfold swap. by rewrite !length_insert. Qed.

Lemma swap_lookup_l l i j :
  i < length l → j < length l → swap l i j !!! i = l !!! j.
Proof.
  intros Hi Hj. unfold swap. destruct (decide (i = j)) as [->|Hne].
  - rewrite list_lookup_total_insert_eq; [done|by rewrite length_insert].
  - rewrite list_lookup_total_insert_ne by done.
    by rewrite list_lookup_total_insert_eq.
Qed.

Lemma swap_lookup_r l i j :
  j < length l → swap l i j !!! j = l !!! i.
Proof.
  intros Hj. unfold swap.
  rewrite list_lookup_total_insert_eq; [done|by rewrite length_insert].
Qed.

Lemma swap_lookup_other l i j k :
  k ≠ i → k ≠ j → swap l i j !!! k = l !!! k.
Proof.
  intros Hi Hj. unfold swap. by rewrite !list_lookup_total_insert_ne.
Qed.

Lemma swap_perm l i j : i < length l → j < length l → swap l i j ≡ₚ l.
Proof.
  intros Hi Hj. unfold swap. apply Permutation_insert_swap.
  - by apply list_lookup_lookup_total_lt.
  - by apply list_lookup_lookup_total_lt.
Qed.
End swap_facts.

Lemma NoDup_lookup_total (l : list pyval) i j :
  NoDup l → i < length l → j < length l → l !!! i = l !!! j → i = j.
Proof.
  intros Hnd Hi Hj Heq.
  eapply NoDup_lookup; [done| |].
  - by apply list_lookup_lookup_total_lt.
  - rewrite Heq. by apply list_lookup_lookup_total_lt.
Qed.

(** ** Step 1 *)
Section fix_self_facts.
Variable names : list pyval.
Local Abbreviation n := (length names).

Lemma length_fix_self_step r i :
  length (fix_self_step names r i) = length r.
Proof. unfold fix_self_step. case_bool_decide; [apply length_swap|done]. Qed.

Lemma fix_self_step_perm r i :
  length r = n → i < n → fix_self_step names r i ≡ₚ r.
Proof.
  intros Hlen Hi. unfold fix_self_step. case_bool_decide; [|done].
  apply swap_perm; [lia|]. rewrite Hlen. apply Nat.mod_upper_bound. lia.
Qed.

Lemma fix_self_prefix_perm r k :
  length r = n → k ≤ n → foldl (fix_self_step names) r (seq 0 k) ≡ₚ r.
Proof.
  intros Hlen. induction k as [|k IH]; intros Hk; [done|].
  rewrite seq_S, foldl_snoc. simpl.
  etrans; [apply fix_self_step_perm|apply IH]; try lia.
  rewrite (Permutation_length (IH ltac:(lia))). done.
Qed.

Lemma fix_self_perm r : length r = n → fix_self names r ≡ₚ r.
Proof. intros. by apply fix_self_prefix_perm. Qed.

(** A swap of step 1 never makes a self-assignment: the swapped index
    becomes free, and its neighbour receives a name that is not its own. *)
Lemma fix_self_step_free r i k :
  NoDup names → NoDup r → length r = n → 2 ≤ n → i < n → k < n →
  (k = i ∨ names !!! k ≠ r !!! k) →
  names !!! k ≠ fix_self_step names r i !!! k.
Proof.
  intros Hnd Hr Hlen Hn Hi Hk Hfree. unfold fix_self_step.
  case_bool_decide as Heq.
  - assert (Hj : (i + 1) `mod` n < n) by (apply Nat.mod_upper_bound; lia).
    assert (Hij : (i + 1) `mod` n ≠ i).
    { destruct (decide (i + 1 = n)) as [E|E].
      - rewrite E, Nat.Div0.mod_same. lia.
      - rewrite Nat.mod_small; lia. }
    destruct (decide (k = i)) as [->|Hki].
    + rewrite swap_lookup_l by lia. rewrite Heq. intros E.
      apply NoDup_lookup_total in E; [lia|done|lia|lia].
    + destruct (decide (k = (i + 1) `mod` n)) as [->|Hkj].
      * rewrite swap_lookup_r by lia. rewrite <-Heq. intros E.
        apply NoDup_lookup_total in E; [lia|done|lia|lia].
      * rewrite swap_lookup_other by done. destruct Hfree; [lia|done].
  - destruct Hfree as [->|]; done.
Qed.

Lemma fix_self_prefix_free r k :
  NoDup names → r ≡ₚ names → 2 ≤ n → k ≤ n →
  ∀ i, i < k → names !!! i ≠ foldl (fix_self_step names) r (seq 0 k) !!! i.
Proof.
  intros Hnd Hperm Hn. induction k as [|k IH]; intros Hk i Hi; [lia|].
  rewrite seq_S, foldl_snoc. simpl.
  assert (Hp : foldl (fix_self_step names) r (seq 0 k) ≡ₚ r).
  { apply fix_self_prefix_perm; [by apply Permutation_length|lia]. }
  apply fix_self_step_free; try done; try lia.
  - by rewrite Hp, Hperm.
  - by rewrite Hp, Hperm.
  - destruct (decide (i = k)); [by left|right]. apply IH; lia.
Qed.

Lemma fix_self_free r :
  NoDup names → r ≡ₚ names → 2 ≤ n →
  ∀ i, i < n → names !!! i ≠ fix_self names r !!! i.
Proof. intros. by apply fix_self_prefix_free. Qed.
End fix_self_facts.

(** ** Step 2 and the final check *)
Section fix_repeats_facts.
Variable names : list pyval.
Variable last_year : gmap pyval pyval.
Local Abbreviation n := (length names).

Lemma can_swap_spec r i j :
  can_swap names last_year r i j = true ↔
    names !!! j ≠ r !!! j ∧ r !!! j ≠ names !!! i ∧ r !!! i ≠ names !!! j ∧
    dict_get last_year (names !!! j) ≠ r !!! i ∧
    dict_get last_year (names !!! i) ≠ r !!! j.
Proof.
  unfold can_swap. rewrite !andb_true_iff, !bool_decide_eq_true. tauto.
Qed.

(** The inner loop returns the first index of the scanned range that passes
    the test, and [None] exactly when none does. *)
Lemma find_swap_Some r i js j :
  find_swap names last_year r i js = Some j ↔
    ∃ pre post, js = pre ++ j :: post ∧
      can_swap names last_year r i j = true ∧
      ∀ j', j' ∈ pre → can_swap names last_year r i j' = false.
Proof.
  induction js as [|a js IH]; simpl.
  - split; [done|]. intros (pre & post & E & _). by destruct pre.
  - destruct (can_swap names last_year r i a) eqn:Ha.
    + split.
      * intros [= <-]. exists [], js. split_and!; [done|done|].
        intros j' Hj'. by apply elem_of_nil in Hj'.
      * intros (pre & post & E & Hj & Hpre). destruct pre as [|b pre].
        -- by injection E as -> _.
        -- injection E as <- _. rewrite Hpre in Ha; [done|]. left.
    + rewrite IH. split.
      * intros (pre & post & -> & Hj & Hpre). exists (a :: pre), post.
        split_and!; [done|done|]. intros j' [->|?]%elem_of_cons; auto.
      * intros (pre & post & E & Hj & Hpre). destruct pre as [|b pre].
        -- injection E as -> _. congruence.
        -- injection E as <- ->. exists pre, post. split_and!; [done|done|].
           intros j' ?. apply Hpre. by right.
Qed.

Lemma find_swap_None r i js :
  find_swap names last_year r i js = None ↔
    ∀ j, j ∈ js → can_swap names last_year r i j = false.
Proof.
  induction js as [|a js IH]; simpl.
  - split; [|done]. intros _ j Hj. by apply elem_of_nil in Hj.
  - destruct (can_swap names last_year r i a) eqn:Ha.
    + split; [done|]. intros H. rewrite H in Ha; [done|left].
    + rewrite IH. split.
      * intros H j [->|?]%elem_of_cons; auto.
      * intros H j ?. apply H. by right.
Qed.

(** Over the range [0..m), "first in the list" reads "least index". *)
Lemma find_swap_range_Some r i m j :
  find_swap names last_year r i (seq 0 m) = Some j ↔
    j < m ∧ can_swap names last_year r i j = true ∧
    ∀ j', j' < j → can_swap names last_year r i j' = false.
Proof.
  rewrite find_swap_Some. split.
  - intros (pre & post & E & Hj & Hpre).
    assert (Hlen : length pre = j).
    { assert (Hl : seq 0 m !! length pre = Some j).
      { rewrite E. by rewrite list_lookup_middle. }
      apply lookup_seq in Hl. lia. }
    assert (Hpre' : pre = seq 0 j).
    { assert (Ht : take j (seq 0 m) = pre).
      { rewrite E, <-Hlen. by rewrite take_app_length. }
      rewrite <-Ht, take_seq. f_equal.
      assert (length (seq 0 m) = length (pre ++ j :: post)) by by rewrite E.
      rewrite length_seq, length_app in H. simpl in H. lia. }
    split_and!; [|done|].
    + assert (length (seq 0 m) = length (pre ++ j :: post)) by by rewrite E.
      rewrite length_seq, length_app in H. simpl in H. lia.
    + intros j' Hj'. apply Hpre. rewrite Hpre'. apply elem_of_seq. lia.
  - intros (Hj & Hc & Hpre). exists (seq 0 j), (seq (S j) (m - S j)).
    split_and!; [|done|].
    + replace m with (j + S (m - S j)) at 1 by lia.
      by rewrite seq_app, <-cons_seq.
    + intros j' Hj'%elem_of_seq. apply Hpre. lia.
Qed.

Lemma find_swap_range_None r i m :
  find_swap names last_year r i (seq 0 m) = None ↔
    ∀ j, j < m → can_swap names last_year r i j = false.
Proof.
  rewrite find_swap_None. split.
  - intros H j Hj. apply H, elem_of_seq. lia.
  - intros H j Hj%elem_of_seq. apply H. lia.
Qed.

(** A guarded swap breaks nothing and leaves no repeat at either index. *)
Lemma guarded_swap_self_free r i j :
  length r = n → i < n → j < n →
  can_swap names last_year r i j = true →
  self_free names n r → self_free names n (swap r i j).
Proof.
  intros Hlen Hi Hj (_ & H2 & H3 & _ & _)%can_swap_spec Hfree k Hk.
  destruct (decide (k = j)) as [->|Hkj].
  - rewrite swap_lookup_r by lia. done.
  - destruct (decide (k = i)) as [->|Hki].
    + rewrite swap_lookup_l by lia. done.
    + rewrite swap_lookup_other by done. by apply Hfree.
Qed.

Lemma guarded_swap_repeat_free r i j :
  length r = n → i < n → j < n →
  can_swap names last_year r i j = true →
  repeat_free names last_year i r → repeat_free names last_year (S i) (swap r i j).
Proof.
  intros Hlen Hi Hj (_ & _ & _ & H4 & H5)%can_swap_spec Hfree k Hk.
  destruct (decide (k = j)) as [->|Hkj].
  - rewrite swap_lookup_r by lia. done.
  - destruct (decide (k = i)) as [->|Hki].
    + rewrite swap_lookup_l by lia. done.
    + rewrite swap_lookup_other by done. apply Hfree. lia.
Qed.

(** Step 2 from index [k] on: a completed pass keeps the list free of
    self-assignments and leaves no repeat. *)
Lemma fix_repeats_complete k m r r' :
  k + m = n → length r = n → self_free names n r → repeat_free names last_year k r →
  fix_repeats names last_year (seq k m) r = (true, r') →
  length r' = n ∧ r' ≡ₚ r ∧ self_free names n r' ∧ repeat_free names last_year n r'.
Proof.
  revert k r. induction m as [|m IH]; intros k r Hkm Hlen Hsf Hrf; simpl.
  - intros [= <-]. split_and!; try done. by replace n with k by lia.
  - case_bool_decide as Hrep.
    + destruct (find_swap names last_year r k (seq 0 n)) as [j|] eqn:Hfind;
        [|done].
      apply find_swap_range_Some in Hfind as (Hj & Hc & _).
      intros Hrun. apply IH in Hrun as (? & Hp & ? & ?).
      * split_and!; try done. rewrite Hp. apply swap_perm; lia.
      * lia.
      * by rewrite length_swap.
      * apply guarded_swap_self_free; try done. lia.
      * apply guarded_swap_repeat_free; try done. lia.
    + intros Hrun. apply IH in Hrun as (? & Hp & ? & ?); try done; [lia|].
      intros i Hi. destruct (decide (i = k)) as [->|]; [done|].
      apply Hrf. lia.
Qed.

(** Whatever the flag, step 2 only rearranges the list. *)
Lemma fix_repeats_perm idxs r :
  length r = n → (∀ i, i ∈ idxs → i < n) →
  (fix_repeats names last_year idxs r).2 ≡ₚ r.
Proof.
  revert r. induction idxs as [|i idxs IH]; intros r Hlen Hin; simpl; [done|].
  assert (Hi : i < n) by (apply Hin; left).
  assert (Hin' : ∀ i, i ∈ idxs → i < n) by (intros; apply Hin; by right).
  case_bool_decide; [|by apply IH].
  destruct (find_swap names last_year r i (seq 0 n)) as [j|] eqn:Hfind;
    [|done].
  apply find_swap_range_Some in Hfind as (Hj & _ & _).
  rewrite IH; [|by rewrite length_swap|done]. apply swap_perm; lia.
Qed.

Lemma final_check_true idxs r :
  final_check names last_year idxs r = true ↔
    ∀ i, i ∈ idxs →
      names !!! i ≠ r !!! i ∧ dict_get last_year (names !!! i) ≠ r !!! i.
Proof.
  induction idxs as [|i idxs IH]; simpl.
  - split; [|done]. intros _ i Hi. by apply elem_of_nil in Hi.
  - case_bool_decide as E1; [|case_bool_decide as E2].
    + split; [done|]. intros H. destruct (H i); [left|done].
    + split; [done|]. intros H. destruct (H i); [left|done].
    + rewrite IH. split.
      * intros H j [->|?]%elem_of_cons; auto.
      * intros H j ?. apply H. by right.
Qed.

Lemma final_check_range r :
  final_check names last_year (seq 0 n) r = true ↔
    self_free names n r ∧ repeat_free names last_year n r.
Proof.
  rewrite final_check_true. unfold self_free, repeat_free. split.
  - intros H. split; intros i Hi; apply H, elem_of_seq; lia.
  - intros [H1 H2] i Hi%elem_of_seq. split; [apply H1|apply H2]; lia.
Qed.
End fix_repeats_facts.

(** ** One iteration of the retry loop *)
Section attempt_facts.
Variable names : list pyval.
Variable last_year : gmap pyval pyval.
Variable sh : shuffler.
Local Abbreviation n := (length names).

Lemma attempt_perm g r :
  fair sh → r ≡ₚ names → (attempt names last_year sh g r).2 ≡ₚ names.
Proof.
  intros Hfair Hr. unfold attempt.
  assert (H2 : fix_self names (sh g r) ≡ₚ names).
  { rewrite fix_self_perm; [by rewrite (Hfair g r)|].
    apply Permutation_length. by rewrite (Hfair g r). }
  pose proof (fix_repeats_perm names last_year (seq 0 n)
    (fix_self names (sh g r))) as H3.
  destruct (fix_repeats _ _ _ _) as [[] r3]; simpl in *;
    (rewrite H3; [done|by apply Permutation_length|
                  intros i Hi%elem_of_seq; lia]).
Qed.

Lemma attempt_true g r r' :
  attempt names last_year sh g r = (true, r') →
  self_free names n r' ∧ repeat_free names last_year n r'.
Proof.
  unfold attempt. destruct (fix_repeats _ _ _ _) as [[] r3]; [|done].
  intros [= Hc <-]. by apply final_check_range.
Qed.

(** With distinct names, a completed step 2 always passes the final
    check. *)
Lemma completed_pass_verifies r r3 :
  NoDup names → 2 ≤ n → r ≡ₚ names →
  fix_repeats names last_year (seq 0 n) (fix_self names r) = (true, r3) →
  final_check names last_year (seq 0 n) r3 = true.
Proof.
  intros Hnd Hn Hr Hrun.
  apply fix_repeats_complete in Hrun as (_ & _ & ? & ?).
  - by apply final_check_range.
  - done.
  - apply Permutation_length. by rewrite fix_self_perm; [|apply Permutation_length].
  - intros i Hi. by apply fix_self_free.
  - intros i Hi. lia.
Qed.

Lemma receivers_at_shift g r k :
  receivers_at sh names last_year (S g) (attempt names last_year sh g r).2 k
  = receivers_at sh names last_year g r (S k).
Proof.
  induction k as [|k IH]; simpl.
  - by rewrite Nat.add_0_r.
  - rewrite IH. simpl. by rewrite Nat.add_succ_r.
Qed.

Lemma attempt_passes_shift g r k :
  attempt_passes sh names last_year (S g) (attempt names last_year sh g r).2 k
  = attempt_passes sh names last_year g r (S k).
Proof.
  unfold attempt_passes. rewrite receivers_at_shift.
  by rewrite Nat.add_succ_r.
Qed.

Lemma receivers_at_perm g r k :
  fair sh → r ≡ₚ names → receivers_at sh names last_year g r k ≡ₚ names.
Proof.
  intros Hfair Hr. induction k as [|k IH]; simpl; [done|].
  by apply attempt_perm.
Qed.

(** The retry loop, read off its definition: either every iteration fails
    and the loop falls through to the [raise], or the first passing
    iteration builds the result. *)
Lemma attempts_cases m left g r self :
  (attempts sh names last_year m left g r self
     = (Raise (RuntimeError exhausted_msg), self, g + left)
   ∧ ∀ k, k < left → attempt_passes sh names last_year g r k = false)
  ∨ ∃ k, k < left
      ∧ attempt_passes sh names last_year g r k = true
      ∧ (∀ k', k' < k → attempt_passes sh names last_year g r k' = false)
      ∧ attempts sh names last_year m left g r self
        = (build_result m
             (zip names (receivers_at sh names last_year g r (S k)))
             (set_result self []), g + S k).
Proof.
  revert g r. induction left as [|left IH]; intros g r; cbn [attempts].
  - left. split; [by rewrite Nat.add_0_r|lia].
  - destruct (attempt names last_year sh g r) as [pass r'] eqn:Ha.
    destruct pass.
    + right. exists 0. split_and!; [lia| | lia |].
      * unfold attempt_passes. simpl. by rewrite Nat.add_0_r, Ha.
      * cbn [receivers_at]. by rewrite !Nat.add_0_r, Nat.add_1_r, Ha.
    + assert (Hr' : r' = (attempt names last_year sh g r).2) by by rewrite Ha.
      assert (H0 : attempt_passes sh names last_year g r 0 = false).
      { unfold attempt_passes. simpl. by rewrite Nat.add_0_r, Ha. }
      destruct (IH (S g) r') as [[E Hall]|(k & Hk & Hp & Hbefore & E)].
      * left. split; [by rewrite E, Nat.add_succ_r|].
        intros [|k] Hk; [done|].
        rewrite <-attempt_passes_shift, <-Hr'. apply Hall. lia.
      * right. exists (S k). split_and!; [lia| | |].
        -- by rewrite <-attempt_passes_shift, <-Hr'.
        -- intros [|k'] Hk'; [done|].
           rewrite <-attempt_passes_shift, <-Hr'. apply Hbefore. lia.
        -- rewrite E. rewrite <-(receivers_at_shift g r (S k)), <-Hr'.
           by rewrite !Nat.add_succ_r.
Qed.
End attempt_facts.

(** ** Building the tables and the result *)

Lemma build_names_Forall2 emps names :
  build_names emps = Return names →
  Forall2 (λ (e : row) v, e !! "Employee_EmailID" = Some v) emps names.
Proof.
  revert names. induction emps as [|e emps IH]; intros names; simpl.
  - intros [= <-]. constructor.
  - unfold getitem. destruct (e !! "Employee_EmailID") as [v|] eqn:Hv; [|done].
    simpl. destruct (build_names emps) as [vs|]; [|done].
    intros [= <-]. constructor; auto.
Qed.

Lemma build_names_length emps names :
  build_names emps = Return names → length names = length emps.
Proof. intros H%build_names_Forall2. symmetry. by eapply Forall2_length. Qed.

Lemma build_names_Raise emps x :
  build_names emps = Raise x → x = KeyError (Some "Employee_EmailID").
Proof.
  induction emps as [|e emps IH]; simpl; [done|].
  unfold getitem. destruct (e !! "Employee_EmailID"); [|by intros [= <-]].
  simpl. destruct (build_names emps); [done|]. intros [= <-]. by apply IH.
Qed.

(** Every entry of [email_to_emp] is an employee filed under its own
    email, and every name has an entry. *)
Lemma build_email_to_emp_Return emps names acc :
  build_names emps = Return names →
  ∃ m, build_email_to_emp emps acc = Return m
    ∧ (∀ k, k ∈ names → is_Some (m !! k))
    ∧ (∀ k, is_Some (acc !! k) → is_Some (m !! k))
    ∧ (∀ k e, m !! k = Some e →
         acc !! k = Some e ∨ (e ∈ emps ∧ e !! "Employee_EmailID" = Some k)).
Proof.
  revert names acc. induction emps as [|e emps IH]; intros names acc; simpl.
  - intros [= <-]. exists acc. split_and!; auto.
    intros k Hk. by apply elem_of_nil in Hk.
  - unfold getitem. destruct (e !! "Employee_EmailID") as [v|] eqn:Hv; [|done].
    simpl. destruct (build_names emps) as [vs|] eqn:Hvs; [|done].
    intros [= <-].
    destruct (IH vs (<[v:=e]> acc) eq_refl) as (m & Hm & Hk & Hacc & Hinv).
    exists m. split_and!; [done| | |].
    + intros k [->|Hin]%elem_of_cons; [|by apply Hk].
      apply Hacc. rewrite lookup_insert_eq. by eexists.
    + intros k Hin. apply Hacc. rewrite lookup_insert.
      case_decide; [by eexists|done].
    + intros k e' Hlk. destruct (Hinv k e' Hlk) as [Hins|[Hin He]].
      * rewrite lookup_insert in Hins. case_decide as Hkv.
        -- injection Hins as <-. subst k. right. split; [left|done].
        -- by left.
      * right. split; [by right|done].
Qed.

Lemma build_email_to_emp_Raise emps acc x :
  build_email_to_emp emps acc = Raise x →
  x = KeyError (Some "Employee_EmailID").
Proof.
  revert acc. induction emps as [|e emps IH]; intros acc; simpl; [done|].
  unfold getitem. destruct (e !! "Employee_EmailID"); [|by intros [= <-]].
  apply IH.
Qed.

Lemma getitem_Raise {K V} `{Countable K} (f : K → pyval) (d : gmap K V) k x :
  getitem f d k = Raise x → x = KeyError (f k).
Proof. unfold getitem. destruct (d !! k); [done|]. by intros [= <-]. Qed.

Lemma getitem_Return {K V} `{Countable K} (f : K → pyval) (d : gmap K V) k v :
  getitem f d k = Return v ↔ d !! k = Some v.
Proof.
  unfold getitem. destruct (d !! k); split; try done; by intros [= <-].
Qed.

Lemma result_row_Raise m ge ce x :
  result_row m ge ce = Raise x → ∃ key, x = KeyError key.
Proof.
  unfold result_row.
  repeat match goal with
  | |- context [getitem ?f ?d ?k ≫= _] =>
      let E := fresh "E" in
      destruct (getitem f d k) eqn:E; simpl;
      [|intros [= <-]; apply getitem_Raise in E; by eexists]
  end.
  done.
Qed.

(** The record built for a pair carries the two emails of the pair. *)
Lemma result_row_Return (m : gmap pyval row) ge ce r :
  (∀ k (e : row), m !! k = Some e → e !! "Employee_EmailID" = Some k) →
  result_row m ge ce = Return r →
  dict_get r "Employee_EmailID" = ge ∧ dict_get r "Secret_Child_EmailID" = ce.
Proof.
  intros Hinv. unfold result_row.
  destruct (getitem id m ge) as [gd|] eqn:E1; [simpl|done].
  destruct (getitem id m ce) as [cd|] eqn:E2; [simpl|done].
  apply getitem_Return in E1, E2. apply Hinv in E1, E2.
  destruct (getitem Some gd "Employee_Name") as [gn|]; [simpl|done].
  destruct (getitem Some gd "Employee_EmailID") as [ge'|] eqn:E3;
    [simpl|done].
  destruct (getitem Some cd "Employee_Name") as [cn|]; [simpl|done].
  destruct (getitem Some cd "Employee_EmailID") as [ce'|] eqn:E4;
    [simpl|done].
  apply getitem_Return in E3, E4.
  intros [= <-]. unfold dict_get.
  rewrite lookup_insert_ne, lookup_insert_ne, lookup_insert_eq by done.
  rewrite lookup_insert_eq. simpl. split; congruence.
Qed.

Lemma result_row_is_Return (m : gmap pyval row) ge ce :
  (∀ k, k = ge ∨ k = ce → ∃ e : row, m !! k = Some e
      ∧ is_Some (e !! "Employee_Name") ∧ is_Some (e !! "Employee_EmailID")) →
  ∃ r, result_row m ge ce = Return r.
Proof.
  intros Hk. unfold result_row, getitem.
  destruct (Hk ge) as (gd & Hgd & [gn Hgn] & [ge' Hge']); [by left|].
  destruct (Hk ce) as (cd & Hcd & [cn Hcn] & [ce' Hce']); [by right|].
  rewrite Hgd. simpl. rewrite Hcd. simpl. rewrite Hgn. simpl.
  rewrite Hge'. simpl. rewrite Hcn. simpl. rewrite Hce'. simpl.
  by eexists.
Qed.

Lemma build_result_frame m pairs self out self' :
  build_result m pairs self = (out, self') →
  employees self' = employees self
  ∧ last_year_assignments self' = last_year_assignments self.
Proof.
  revert self. induction pairs as [|[ge ce] pairs IH]; intros self; simpl.
  - by intros [= _ <-].
  - destruct (result_row m ge ce); [|by intros [= _ <-]].
    intros H%IH. done.
Qed.

Lemma build_result_Raise m pairs self x self' :
  build_result m pairs self = (Raise x, self') → ∃ key, x = KeyError key.
Proof.
  revert self. induction pairs as [|[ge ce] pairs IH]; intros self; simpl.
  - done.
  - destruct (result_row m ge ce) eqn:E; [by apply IH|].
    intros [= <- _]. by eapply result_row_Raise.
Qed.

Lemma build_result_Return (m : gmap pyval row) pairs self self' :
  (∀ k (e : row), m !! k = Some e → e !! "Employee_EmailID" = Some k) →
  build_result m pairs self = (Return (), self') →
  givers (result self') = givers (result self) ++ pairs.*1
  ∧ recipients (result self') = recipients (result self) ++ pairs.*2.
Proof.
  intros Hinv. revert self.
  induction pairs as [|[ge ce] pairs IH]; intros self; simpl.
  - intros [= <-]. by rewrite !app_nil_r.
  - destruct (result_row m ge ce) as [r|] eqn:E; [|done].
    apply result_row_Return in E as [E1 E2]; [|done].
    intros [-> ->]%IH. simpl. unfold givers, recipients.
    rewrite !fmap_app. simpl. rewrite E1, E2, <-!app_assoc. done.
Qed.

Lemma build_result_is_Return (m : gmap pyval row) pairs self :
  (∀ p k, p ∈ pairs → k = p.1 ∨ k = p.2 → ∃ e : row, m !! k = Some e
      ∧ is_Some (e !! "Employee_Name") ∧ is_Some (e !! "Employee_EmailID")) →
  ∃ self', build_result m pairs self = (Return (), self').
Proof.
  revert self. induction pairs as [|[ge ce] pairs IH]; intros self Hk; simpl.
  - by eexists.
  - destruct (result_row_is_Return m ge ce) as [r ->].
    { intros k Hor. apply (Hk (ge, ce)); [left|done]. }
    apply IH. intros p k Hp. apply Hk. by right.
Qed.

(** ** [generate_assignments] as a whole *)

Lemma generate_too_few sh self g :
  length (employees self) < 2 →
  generate_assignments sh self g = (Raise (ValueError too_few_msg), self, g).
Proof. intros Hn. unfold generate_assignments. by rewrite bool_decide_true. Qed.

(** With two participants or more, each carrying an email cell, the call
    is the retry loop started on a copy of the names. *)
Lemma generate_enters_loop sh self g names :
  2 ≤ length (employees self) →
  build_names (employees self) = Return names →
  ∃ m : gmap pyval row,
    generate_assignments sh self g
      = attempts sh names (build_last_year (last_year_assignments self)) m
          max_attempts g names self
    ∧ (∀ k, k ∈ names → is_Some (m !! k))
    ∧ (∀ k (e : row), m !! k = Some e →
         e ∈ employees self ∧ e !! "Employee_EmailID" = Some k).
Proof.
  intros Hn Hnames. unfold generate_assignments.
  rewrite bool_decide_false by lia.
  destruct (build_email_to_emp_Return _ _ ∅ Hnames) as (m & -> & Hk & _ & Hinv).
  rewrite Hnames. exists m. split_and!; [done|done|].
  intros k e Hke. destruct (Hinv k e Hke) as [Hemp|?]; [|done].
  by rewrite lookup_empty in Hemp.
Qed.

(** The three ways the call can end. *)
Lemma generate_cases sh self g :
  generate_assignments sh self g = (Raise (ValueError too_few_msg), self, g)
  ∨ generate_assignments sh self g
      = (Raise (KeyError (Some "Employee_EmailID")), self, g)
  ∨ ∃ names (m : gmap pyval row),
      2 ≤ length names
      ∧ build_names (employees self) = Return names
      ∧ generate_assignments sh self g
        = attempts sh names (build_last_year (last_year_assignments self)) m
            max_attempts g names self
      ∧ (∀ k, k ∈ names → is_Some (m !! k))
      ∧ (∀ k (e : row), m !! k = Some e →
           e ∈ employees self ∧ e !! "Employee_EmailID" = Some k).
Proof.
  destruct (decide (length (employees self) < 2)) as [Hn|Hn].
  { left. by apply generate_too_few. }
  right. destruct (build_names (employees self)) as [names|x] eqn:Hnames.
  - right. destruct (generate_enters_loop sh self g names) as (m & ? & ? & ?);
      [lia|done|].
    exists names, m. split_and!; try done.
    rewrite (build_names_length _ _ Hnames). lia.
  - left. unfold generate_assignments. rewrite bool_decide_false by done.
    destruct (build_email_to_emp (employees self) ∅) as [m|y] eqn:Hm.
    + rewrite Hnames. by rewrite (build_names_Raise _ _ Hnames).
    + by rewrite (build_email_to_emp_Raise _ _ _ Hm).
Qed.

(** What a successful run of the retry loop leaves behind. *)
Lemma attempts_Return (sh : shuffler) (names : list pyval)
    (last_year : gmap pyval pyval) (m : gmap pyval row) (left g : nat) self
    self' g' :
  fair sh →
  (∀ k (e : row), m !! k = Some e → e !! "Employee_EmailID" = Some k) →
  attempts sh names last_year m left g names self = (Return (), self', g') →
  g < g' ≤ g + left
  ∧ givers (result self') = names
  ∧ recipients (result self') ≡ₚ names
  ∧ self_free names (length names) (recipients (result self'))
  ∧ repeat_free names last_year (length names) (recipients (result self')).
Proof.
  intros Hfair Hinv Hrun.
  destruct (attempts_cases names last_year sh m left g names self)
    as [[E _]|(k & Hk & Hpass & _ & E)]; rewrite E in Hrun; [done|].
  pose proof (receivers_at_perm names last_year sh g names (S k) Hfair
    (reflexivity _)) as Hperm.
  assert (Hvalid : self_free names (length names)
            (receivers_at sh names last_year g names (S k))
          ∧ repeat_free names last_year (length names)
            (receivers_at sh names last_year g names (S k))).
  { unfold attempt_passes in Hpass. cbn [receivers_at].
    destruct (attempt names last_year sh (g + k)
      (receivers_at sh names last_year g names k)) as [p r'] eqn:Ha.
    simpl in Hpass. subst p. by apply attempt_true in Ha. }
  revert Hrun Hperm Hvalid.
  generalize (receivers_at sh names last_year g names (S k)).
  intros r' Hrun Hperm [Hsf Hrf].
  injection Hrun as Hbuild <-.
  apply build_result_Return in Hbuild as [Hg Hr]; [|done].
  pose proof (Permutation_length Hperm) as Hlen.
  rewrite fst_zip in Hg by lia. rewrite snd_zip in Hr by lia.
  cbn in Hg, Hr. rewrite Hr. split_and!; try done; lia.
Qed.

(** The loop raises nothing but the exhaustion error and [KeyError]. *)
Lemma attempts_Raise (sh : shuffler) (names : list pyval)
    (last_year : gmap pyval pyval) (m : gmap pyval row) (left g : nat)
    (r : list pyval) self x self' g' :
  attempts sh names last_year m left g r self = (Raise x, self', g') →
  (x = RuntimeError exhausted_msg ∧ self' = self ∧ g' = g + left
   ∧ ∀ k, k < left → attempt_passes sh names last_year g r k = false)
  ∨ ∃ key, x = KeyError key.
Proof.
  intros Hrun.
  destruct (attempts_cases names last_year sh m left g r self)
    as [[E Hall]|(k & Hk & Hpass & _ & E)]; rewrite E in Hrun.
  - left. by injection Hrun as <- <- <-.
  - right. injection Hrun as Hbuild _. by eapply build_result_Raise.
Qed.

(** ** The shuffle *)

Lemma shuffle_down_perm draw i (x : list pyval) :
  i < length x → shuffle_down draw i x ≡ₚ x.
Proof.
  revert x. induction i as [|i IH]; intros x Hi; cbn [shuffle_down]; [done|].
  assert (Hj : draw (S i) `mod` S (S i) < length x).
  { pose proof (Nat.mod_upper_bound (draw (S i)) (S (S i))). lia. }
  rewrite IH by (rewrite length_swap; lia). by apply swap_perm.
Qed.

Lemma python_shuffle_fair draws : fair (python_shuffle draws).
Proof.
  intros g x. unfold python_shuffle. destruct x as [|v x]; [done|].
  apply shuffle_down_perm. simpl. lia.
Qed.

(** ** The claims on the engine *)

(** C1.  Whenever [generate_assignments] returns, the givers of the result
    are the names in order, no recipient is the giver itself, no recipient
    is the giver's entry of the prior map, and the recipients are a
    rearrangement of the names.  This holds for every list of participants
    and every list of prior assignments; the shuffle only has to rearrange
    the list. *)
Theorem generate_assignments_valid sh self g self' g' :
  fair sh →
  generate_assignments sh self g = (Return (), self', g') →
  ∃ names,
    build_names (employees self) = Return names
    ∧ givers (result self') = names
    ∧ recipients (result self') ≡ₚ names
    ∧ ∀ i, i < length names →
        recipients (result self') !!! i ≠ names !!! i
        ∧ ∀ p, build_last_year (last_year_assignments self) !! (names !!! i)
                 = Some p →
               recipients (result self') !!! i ≠ p.
Proof.
  intros Hfair Hrun.
  destruct (generate_cases sh self g)
    as [E|[E|(names & m & Hn & Hnames & E & _ & Hinv)]];
    rewrite E in Hrun; try done.
  apply attempts_Return in Hrun as (_ & Hg & Hp & Hsf & Hrf);
    [|done|intros k e Hke; by apply Hinv].
  exists names. split_and!; try done.
  intros i Hi. split.
  - intros Heq. by apply (Hsf i Hi).
  - intros p Hp' Heq. apply (Hrf i Hi). unfold dict_get. by rewrite Hp'.
Qed.

(** The scenario of four participants, one of them with a prior recipient. *)
Lemma generate_assignments_valid_witness :
  let out := generate_assignments Samples.sample_shuffle Samples.scenario 0 in
  ∃ names,
    build_names (employees Samples.scenario) = Return names
    ∧ givers (result out.1.2) = names
    ∧ recipients (result out.1.2) ≡ₚ names
    ∧ ∀ i, i < length names →
        recipients (result out.1.2) !!! i ≠ names !!! i
        ∧ ∀ p, build_last_year (last_year_assignments Samples.scenario)
                 !! (names !!! i) = Some p →
               recipients (result out.1.2) !!! i ≠ p.
Proof.
  apply (generate_assignments_valid Samples.sample_shuffle Samples.scenario 0
           _ 1 (python_shuffle_fair _)).
  vm_compute. reflexivity.
Defined.

(** The scenario traced: the shuffle at position 0 leaves the list as it
    is, step 1 swaps indices 0 and 1, then 2 and 3, and step 2 repairs the
    repeat at index 0 by a swap with index 2, the first allowed partner. *)
Example generate_assignments_scenario :
  let out := generate_assignments Samples.sample_shuffle Samples.scenario 0 in
  out.1.1 = Return () ∧ out.2 = 1
  ∧ givers (result out.1.2)
    = [Some "a@x"; Some "b@x"; Some "c@x"; Some "d@x"]
  ∧ recipients (result out.1.2)
    = [Some "d@x"; Some "a@x"; Some "b@x"; Some "c@x"].
Proof. vm_compute. split_and!; reflexivity. Qed.

(** A [KeyError] while the result is being built is raised after
    [self.result] was reset: the earlier result is gone. *)
Example generate_assignments_key_error :
  let out := generate_assignments Samples.sample_shuffle Samples.nameless 0 in
  out.1.1 = Raise (KeyError (Some "Employee_Name"))
  ∧ result out.1.2 = [] ∧ result Samples.nameless ≠ [].
Proof. vm_compute. split_and!; done. Qed.

(** An email that is [None] is taken for a repeat of last year's (absent)
    recipient by whoever receives it: with two participants no attempt
    passes, even though the prior map is empty. *)
Example generate_assignments_none_email :
  generate_assignments Samples.sample_shuffle Samples.unnamed 0
  = (Raise (RuntimeError exhausted_msg), Samples.unnamed, 100).
Proof. vm_compute. reflexivity. Qed.

(** With an empty prior map and names that are strings, step 2 finds
    nothing to repair. *)
Lemma fix_repeats_empty names idxs (r : list pyval) :
  (∀ i, i ∈ idxs → is_Some (r !!! i)) →
  fix_repeats names ∅ idxs r = (true, r).
Proof.
  induction idxs as [|i idxs IH]; intros Hr; simpl; [done|].
  rewrite bool_decide_false.
  - apply IH. intros j Hj. apply Hr. by right.
  - unfold dict_get. rewrite lookup_empty. simpl.
    destruct (Hr i) as [v Hv]; [left|]. by rewrite Hv.
Qed.

(** C2.  First year: with two or more distinct names that are strings,
    every participant carrying a name cell, and an empty prior map, the
    call returns at the first attempt, whatever the shuffle, and the result
    is a rearrangement of the names without self-assignment. *)
Theorem generate_assignments_first_year sh self g names :
  fair sh →
  build_names (employees self) = Return names →
  2 ≤ length names →
  NoDup names →
  (∀ v, v ∈ names → is_Some v) →
  (∀ e : row, e ∈ employees self → is_Some (e !! "Employee_Name")) →
  build_last_year (last_year_assignments self) = ∅ →
  ∃ self',
    generate_assignments sh self g = (Return (), self', S g)
    ∧ givers (result self') = names
    ∧ recipients (result self') ≡ₚ names
    ∧ self_free names (length names) (recipients (result self')).
Proof.
  intros Hfair Hnames Hn Hnd Hstr Hname Hly.
  destruct (generate_enters_loop sh self g names) as (m & E & Hkeys & Hinv);
    [by rewrite <-(build_names_length _ _ Hnames)|done|].
  rewrite Hly in E.
  (* the first attempt passes *)
  assert (Hperm : sh g names ≡ₚ names) by apply Hfair.
  assert (Hp2 : fix_self names (sh g names) ≡ₚ names).
  { rewrite fix_self_perm; [done|by apply Permutation_length]. }
  assert (Hsf : self_free names (length names) (fix_self names (sh g names))).
  { intros i Hi. by apply fix_self_free. }
  assert (Hin : ∀ i, i < length names →
            fix_self names (sh g names) !!! i ∈ names).
  { intros i Hi. pose proof (Permutation_length Hp2) as Hlen.
    revert Hp2 Hlen. generalize (fix_self names (sh g names)).
    intros r2 Hp2 Hlen. rewrite <-Hp2.
    apply list_elem_of_lookup_total_2. lia. }
  assert (Ha : attempt names ∅ sh g names = (true, fix_self names (sh g names))).
  { unfold attempt. rewrite fix_repeats_empty.
    - f_equal. apply final_check_range. split; [done|].
      intros i Hi. unfold dict_get. rewrite lookup_empty. simpl.
      destruct (Hstr _ (Hin i Hi)) as [v Hv]. by rewrite Hv.
    - intros i Hi%elem_of_seq. apply Hstr, Hin. lia. }
  destruct (attempts_cases names ∅ sh m max_attempts g names self)
    as [[_ Hall]|(k & Hk & Hpass & Hbefore & E')].
  { specialize (Hall 0 ltac:(unfold max_attempts; lia)).
    unfold attempt_passes in Hall. simpl in Hall.
    by rewrite Nat.add_0_r, Ha in Hall. }
  assert (k = 0) as ->.
  { destruct k as [|k]; [done|]. specialize (Hbefore 0 ltac:(lia)).
    unfold attempt_passes in Hbefore. simpl in Hbefore.
    by rewrite Nat.add_0_r, Ha in Hbefore. }
  cbn [receivers_at] in E'. rewrite Nat.add_0_r, Ha in E'. cbn [snd] in E'.
  destruct (build_result_is_Return m (zip names (fix_self names (sh g names)))
    (set_result self [])) as [self' Hbuild].
  { intros [ge ce] k Hz Hor. simpl in Hor.
    pose proof (elem_of_zip_l _ _ _ _ Hz) as Hge.
    pose proof (elem_of_zip_r _ _ _ _ Hz) as Hce.
    assert (Hkn : k ∈ names).
    { destruct Hor as [->| ->]; [done|].
      apply list_elem_of_lookup_total in Hce as (i & Hi & <-). apply Hin.
      by rewrite <-(Permutation_length Hp2). }
    destruct (Hkeys k Hkn) as [e He]. exists e. split; [done|].
    destruct (Hinv k e He) as [Hemp Hem].
    split; [by apply Hname|by eexists]. }
  exists self'. rewrite E, E', Hbuild. split; [by rewrite Nat.add_1_r|].
  apply build_result_Return in Hbuild as [Hg Hr];
    [|intros k e Hke; by apply Hinv].
  pose proof (Permutation_length Hp2) as Hlen.
  rewrite fst_zip in Hg by lia. rewrite snd_zip in Hr by lia.
  cbn in Hg, Hr. rewrite Hr. done.
Qed.

(** Three participants in their first year. *)
Lemma generate_assignments_first_year_witness :
  ∃ self',
    generate_assignments Samples.sample_shuffle Samples.first_year 7
      = (Return (), self', 8)
    ∧ givers (result self') = Samples.names3
    ∧ recipients (result self') ≡ₚ Samples.names3
    ∧ self_free Samples.names3 3 (recipients (result self')).
Proof.
  apply (generate_assignments_first_year Samples.sample_shuffle
           Samples.first_year 7 Samples.names3 (python_shuffle_fair _)).
  - reflexivity.
  - simpl. lia.
  - apply (bool_decide_unpack (NoDup Samples.names3)). vm_compute. exact I.
  - intros v Hv. apply list_elem_of_In in Hv. simpl in Hv.
    destruct Hv as [<-|[<-|[<-|[]]]]; by eexists.
  - intros e He. apply list_elem_of_In in He. simpl in He.
    destruct He as [<-|[<-|[<-|[]]]]; by eexists.
  - reflexivity.
Defined.

(** With distinct names no swap of step 1 regresses: the value moved to the
    neighbouring index is the name of the swapped index, not the
    neighbour's own. *)
Lemma no_swap_regresses (names r : list pyval) i :
  NoDup names → r ≡ₚ names → ¬ swap_regresses names r i.
Proof.
  intros Hnd Hr (Hi & Hself & Hnew & Hintro & _).
  assert (Hlen : length (foldl (fix_self_step names) r (seq 0 i))
                 = length names).
  { apply Permutation_length. rewrite fix_self_prefix_perm; [done| |lia].
    by apply Permutation_length. }
  assert (Hj : (i + 1) `mod` length names < length names)
    by (apply Nat.mod_upper_bound; lia).
  rewrite swap_lookup_r in Hintro by lia.
  rewrite <-Hself in Hintro.
  apply NoDup_lookup_total in Hintro; [|done|lia|lia].
  rewrite Hintro in Hnew. done.
Qed.

(** C3, as stated, fails: for no list of distinct names and no starting
    permutation of them does a swap of the self-assignment repair pass
    introduce a new self-assignment at the next index that survives to the
    end of the pass. *)
Lemma fix_self_regression_refuted :
  ¬ ∃ (names r : list pyval) i, NoDup names ∧ r ≡ₚ names ∧ swap_regresses names r i.
Proof.
  intros (names & r & i & Hnd & Hr & Hreg).
  by apply (no_swap_regresses names r i).
Qed.

(** C3, amended.  For two or more distinct names and every starting
    permutation of them, the single forward sweep of the self-assignment
    repair pass leaves a permutation without any self-assignment, and none
    of its swaps regresses. *)
Theorem fix_self_derangement (names r : list pyval) :
  NoDup names → 2 ≤ length names → r ≡ₚ names →
  fix_self names r ≡ₚ names
  ∧ self_free names (length names) (fix_self names r)
  ∧ ∀ i, ¬ swap_regresses names r i.
Proof.
  intros Hnd Hn Hr. split_and!.
  - rewrite fix_self_perm; [done|by apply Permutation_length].
  - intros i Hi. by apply fix_self_free.
  - intros i. by apply no_swap_regresses.
Qed.

(** The sweep started on the three names in their own order. *)
Lemma fix_self_derangement_witness :
  fix_self Samples.names3 Samples.names3 ≡ₚ Samples.names3
  ∧ self_free Samples.names3 3 (fix_self Samples.names3 Samples.names3)
  ∧ ∀ i, ¬ swap_regresses Samples.names3 Samples.names3 i.
Proof.
  apply (fix_self_derangement Samples.names3 Samples.names3).
  - apply (bool_decide_unpack (NoDup Samples.names3)). vm_compute. exact I.
  - simpl. lia.
  - reflexivity.
Defined.

(** C4, as stated, fails: inside [generate_assignments] (two or more
    names), with distinct names, no prior map and no shuffle lead to an
    attempt whose prior-repeat repair pass completes and whose final check
    fails. *)
Lemma verified_invalid_refuted :
  ¬ ∃ (names : list pyval) (last_year : gmap pyval pyval) (sh : shuffler)
      (g : nat) (r : list pyval),
      NoDup names ∧ 2 ≤ length names ∧ fair sh ∧ r ≡ₚ names
      ∧ verified_invalid names last_year (sh g r).
Proof.
  intros (names & ly & sh & g & r & Hnd & Hn & Hfair & Hr & r3 & Hrun & Hc).
  apply completed_pass_verifies in Hrun; [congruence|done|done|].
  by rewrite (Hfair g r).
Qed.

(** C4, amended.  For two or more distinct names, every prior map and
    every shuffle, an attempt whose prior-repeat repair pass completes
    every index passes the final check: the receivers are then a
    rearrangement of the names free of self-assignments and of repeats, and
    an attempt fails only by being abandoned in step 2. *)
Theorem completed_attempt_verifies (names : list pyval)
    (last_year : gmap pyval pyval) (sh : shuffler) (g : nat)
    (r : list pyval) :
  NoDup names → 2 ≤ length names → fair sh → r ≡ₚ names →
  (∀ r3,
     fix_repeats names last_year (seq 0 (length names))
       (fix_self names (sh g r)) = (true, r3) →
     final_check names last_year (seq 0 (length names)) r3 = true
     ∧ attempt names last_year sh g r = (true, r3))
  ∧ ((attempt names last_year sh g r).1 = false →
     (fix_repeats names last_year (seq 0 (length names))
        (fix_self names (sh g r))).1 = false).
Proof.
  intros Hnd Hn Hfair Hr.
  assert (Hc : ∀ r3,
     fix_repeats names last_year (seq 0 (length names))
       (fix_self names (sh g r)) = (true, r3) →
     final_check names last_year (seq 0 (length names)) r3 = true).
  { intros r3 Hrun.
    apply completed_pass_verifies in Hrun; [done|done|done|].
    by rewrite (Hfair g r). }
  split.
  - intros r3 Hrun. split; [by apply Hc|].
    unfold attempt. by rewrite Hrun, (Hc r3 Hrun).
  - unfold attempt.
    destruct (fix_repeats names last_year (seq 0 (length names))
      (fix_self names (sh g r))) as [[] r3] eqn:Hrun; [|done].
    simpl. by rewrite (Hc r3 eq_refl).
Qed.

(** The first attempt of the scenario of four participants. *)
Lemma completed_attempt_verifies_witness :
  let last_year := build_last_year (last_year_assignments Samples.scenario) in
  let names := Samples.names3 ++ [Some "d@x"] in
  (∀ r3,
     fix_repeats names last_year (seq 0 (length names))
       (fix_self names (Samples.sample_shuffle 0 names)) = (true, r3) →
     final_check names last_year (seq 0 (length names)) r3 = true
     ∧ attempt names last_year Samples.sample_shuffle 0 names = (true, r3))
  ∧ ((attempt names last_year Samples.sample_shuffle 0 names).1 = false →
     (fix_repeats names last_year (seq 0 (length names))
        (fix_self names (Samples.sample_shuffle 0 names))).1 = false).
Proof.
  apply (completed_attempt_verifies (Samples.names3 ++ [Some "d@x"])
           (build_last_year (last_year_assignments Samples.scenario))
           Samples.sample_shuffle 0 (Samples.names3 ++ [Some "d@x"])).
  - apply (bool_decide_unpack (NoDup (Samples.names3 ++ [Some "d@x"]))).
    vm_compute. exact I.
  - simpl. lia.
  - apply python_shuffle_fair.
  - reflexivity.
Defined.

(** C6.  With fewer than two participants the call raises the too-few
    error at once: the generator is not advanced and no shuffle is
    consulted (the outcome is the same for every shuffle), the model is
    untouched, and the error differs from the exhaustion error. *)
Theorem generate_assignments_too_few sh self g :
  length (employees self) < 2 →
  generate_assignments sh self g = (Raise (ValueError too_few_msg), self, g)
  ∧ (∀ sh', generate_assignments sh' self g = generate_assignments sh self g)
  ∧ ValueError too_few_msg ≠ RuntimeError exhausted_msg.
Proof.
  intros Hn. split_and!; [by apply generate_too_few| |done].
  intros sh'. by rewrite !generate_too_few.
Qed.

(** A single participant. *)
Lemma generate_assignments_too_few_witness :
  generate_assignments Samples.sample_shuffle Samples.lonely 0
    = (Raise (ValueError too_few_msg), Samples.lonely, 0)
  ∧ (∀ sh', generate_assignments sh' Samples.lonely 0
            = generate_assignments Samples.sample_shuffle Samples.lonely 0)
  ∧ ValueError too_few_msg ≠ RuntimeError exhausted_msg.
Proof.
  apply (generate_assignments_too_few Samples.sample_shuffle Samples.lonely 0).
  simpl. lia.
Defined.

(** C10.  When the call raises the too-few error or the exhaustion error,
    the stored result (and the whole model) is what it was before the
    call. *)
Theorem generate_assignments_error_keeps_result sh self g x self' g' :
  generate_assignments sh self g = (Raise x, self', g') →
  (∃ msg, x = ValueError msg) ∨ (∃ msg, x = RuntimeError msg) →
  result self' = result self ∧ self' = self.
Proof.
  intros Hrun Hx.
  assert (self' = self) as ->; [|done].
  destruct (generate_cases sh self g)
    as [E|[E|(names & m & Hn & Hnames & E & _ & Hinv)]];
    rewrite E in Hrun.
  - by injection Hrun as _ <- _.
  - by injection Hrun as _ <- _.
  - apply attempts_Raise in Hrun as [(_ & -> & _)|[key ->]]; [done|].
    destruct Hx as [[msg Hx]|[msg Hx]]; discriminate Hx.
Qed.

(** The adversarial prior map: the call ends in the exhaustion error. *)
Lemma generate_assignments_error_keeps_result_witness :
  let out := generate_assignments Samples.sample_shuffle Samples.adversarial 0 in
  result out.1.2 = result Samples.adversarial ∧ out.1.2 = Samples.adversarial.
Proof.
  apply (generate_assignments_error_keeps_result Samples.sample_shuffle
           Samples.adversarial 0 (RuntimeError exhausted_msg) _ 100).
  - vm_compute. reflexivity.
  - right. by eexists.
Defined.

(** A passing attempt exhibits a valid assignment. *)
Lemma attempt_passes_satisfiable (sh : shuffler) (names : list pyval)
    (last_year : gmap pyval pyval) (g k : nat) :
  fair sh →
  attempt_passes sh names last_year g names k = true →
  satisfiable names last_year.
Proof.
  intros Hfair Hpass. unfold attempt_passes in Hpass.
  destruct (attempt names last_year sh (g + k)
    (receivers_at sh names last_year g names k)) as [p r'] eqn:Ha.
  simpl in Hpass. subst p. exists r'. split.
  - change r' with (true, r').2. rewrite <-Ha.
    apply attempt_perm; [done|]. by apply receivers_at_perm.
  - by apply attempt_true in Ha.
Qed.

Lemma all_fail_exhausts (sh : shuffler) self (g : nat) (names : list pyval) :
  2 ≤ length names →
  build_names (employees self) = Return names →
  (∀ k, k < max_attempts →
     attempt_passes sh names (build_last_year (last_year_assignments self))
       g names k = false) →
  generate_assignments sh self g
    = (Raise (RuntimeError exhausted_msg), self, g + 100).
Proof.
  intros Hn Hnames Hall.
  destruct (generate_enters_loop sh self g names) as (m & E & _ & _);
    [by rewrite <-(build_names_length _ _ Hnames)|done|].
  rewrite E.
  destruct (attempts_cases names
    (build_last_year (last_year_assignments self)) sh m max_attempts g
    names self) as [[E' _]|(k & Hk & Hpass & _)]; [done|].
  rewrite Hall in Hpass; done.
Qed.

(** The adversarial prior map of the samples leaves no valid assignment. *)
Lemma adversarial_unsatisfiable :
  ¬ satisfiable Samples.names3
      (build_last_year (last_year_assignments Samples.adversarial)).
Proof.
  intros (r & Hp & Hsf & Hrf).
  pose proof (Permutation_length Hp) as Hlen.
  destruct r as [|x [|y [|z [|]]]]; try done.
  assert (Hx : x ∈ Samples.names3) by (rewrite <-Hp; left).
  assert (Hy : y ∈ Samples.names3) by (rewrite <-Hp; right; left).
  assert (Hnd : NoDup [x; y; z]).
  { rewrite Hp. apply (bool_decide_unpack (NoDup Samples.names3)).
    vm_compute. exact I. }
  pose proof (Hsf 0 ltac:(simpl; lia)) as Hx1.
  pose proof (Hrf 0 ltac:(simpl; lia)) as Hx2.
  pose proof (Hsf 1 ltac:(simpl; lia)) as Hy1.
  pose proof (Hrf 1 ltac:(simpl; lia)) as Hy2.
  assert (Ha : dict_get (build_last_year
      (last_year_assignments Samples.adversarial)) (Some "a@x") = Some "b@x")
    by (vm_compute; reflexivity).
  assert (Hb : dict_get (build_last_year
      (last_year_assignments Samples.adversarial)) (Some "b@x") = Some "a@x")
    by (vm_compute; reflexivity).
  cbn [Samples.names3 lookup_total list_lookup_total] in Hx1, Hx2, Hy1, Hy2.
  rewrite Ha in Hx2. rewrite Hb in Hy2.
  assert (x = Some "c@x") as ->.
  { unfold Samples.names3 in Hx.
    apply elem_of_cons in Hx as [->|Hx]; [done|].
    apply elem_of_cons in Hx as [->|Hx]; [done|].
    apply elem_of_cons in Hx as [->|Hx]; [done|].
    by apply elem_of_nil in Hx. }
  assert (y = Some "c@x") as ->.
  { unfold Samples.names3 in Hy.
    apply elem_of_cons in Hy as [->|Hy]; [done|].
    apply elem_of_cons in Hy as [->|Hy]; [done|].
    apply elem_of_cons in Hy as [->|Hy]; [done|].
    by apply elem_of_nil in Hy. }
  apply NoDup_cons in Hnd as [Hnd _]. apply Hnd. left.
Qed.

(** So the three participants of the adversarial sample end in the
    exhaustion error under every shuffle that rearranges, from every
    position of the generator. *)
Lemma adversarial_exhausts (sh : shuffler) (g : nat) :
  fair sh →
  generate_assignments sh Samples.adversarial g
  = (Raise (RuntimeError exhausted_msg), Samples.adversarial, g + 100).
Proof.
  intros Hfair.
  apply (all_fail_exhausts sh Samples.adversarial g Samples.names3);
    [simpl; lia|done|].
  intros k Hk.
  destruct (attempt_passes sh Samples.names3
    (build_last_year (last_year_assignments Samples.adversarial)) g
    Samples.names3 k) eqn:Hp; [|done].
  destruct adversarial_unsatisfiable.
  by eapply attempt_passes_satisfiable.
Qed.

(** C5.  For participants that reach the retry loop (two or more, each
    with an email cell): the call never draws more than 100 shuffles; when
    no attempt passes it draws exactly 100, raises the exhaustion error and
    leaves the model as it was; with a shuffle that rearranges, this is so
    whenever the constraints cannot be met, and a returned result never
    violates them. *)
Theorem generate_assignments_exhaustion (sh : shuffler) self (g : nat)
    (names : list pyval) :
  2 ≤ length names →
  build_names (employees self) = Return names →
  let last_year := build_last_year (last_year_assignments self) in
  g ≤ (generate_assignments sh self g).2 ≤ g + 100
  ∧ ((∀ k, k < max_attempts →
        attempt_passes sh names last_year g names k = false) →
     generate_assignments sh self g
       = (Raise (RuntimeError exhausted_msg), self, g + 100))
  ∧ (fair sh → ¬ satisfiable names last_year →
     generate_assignments sh self g
       = (Raise (RuntimeError exhausted_msg), self, g + 100))
  ∧ (fair sh → ∀ self' g',
     generate_assignments sh self g = (Return (), self', g') →
     recipients (result self') ≡ₚ names
     ∧ self_free names (length names) (recipients (result self'))
     ∧ repeat_free names last_year (length names)
         (recipients (result self'))).
Proof.
  intros Hn Hnames last_year. subst last_year.
  destruct (generate_enters_loop sh self g names) as (m & E & _ & Hinv);
    [by rewrite <-(build_names_length _ _ Hnames)|done|].
  split; [|split; [|split]].
  - rewrite E.
    destruct (attempts_cases names
      (build_last_year (last_year_assignments self)) sh m max_attempts g
      names self) as [[E' _]|(k & Hk & _ & _ & E')]; rewrite E'; cbn [snd];
      unfold max_attempts in *; lia.
  - by apply (all_fail_exhausts sh self g names).
  - intros Hfair Hunsat. apply (all_fail_exhausts sh self g names);
      [done|done|].
    intros k Hk.
    destruct (attempt_passes sh names
      (build_last_year (last_year_assignments self)) g names k) eqn:Hp;
      [|done].
    destruct Hunsat. by eapply attempt_passes_satisfiable.
  - intros Hfair self' g' Hrun. rewrite E in Hrun.
    apply attempts_Return in Hrun as (_ & _ & ? & ? & ?); [done|done|].
    intros k e Hke. by apply Hinv.
Qed.

(** Three participants whose prior map forbids both derangements: the
    exhaustion error after exactly 100 shuffles. *)
Lemma generate_assignments_exhaustion_witness :
  let sh := Samples.sample_shuffle in
  let self := Samples.adversarial in
  let names := Samples.names3 in
  let last_year := build_last_year (last_year_assignments self) in
  generate_assignments sh self 0
    = (Raise (RuntimeError exhausted_msg), self, 100)
  ∧ 0 ≤ (generate_assignments sh self 0).2 ≤ 0 + 100
  ∧ ((∀ k, k < max_attempts →
        attempt_passes sh names last_year 0 names k = false) →
     generate_assignments sh self 0
       = (Raise (RuntimeError exhausted_msg), self, 0 + 100))
  ∧ (fair sh → ¬ satisfiable names last_year →
     generate_assignments sh self 0
       = (Raise (RuntimeError exhausted_msg), self, 0 + 100))
  ∧ (fair sh → ∀ self' g',
     generate_assignments sh self 0 = (Return (), self', g') →
     recipients (result self') ≡ₚ names
     ∧ self_free names (length names) (recipients (result self'))
     ∧ repeat_free names last_year (length names)
         (recipients (result self'))).
Proof.
  intros sh self names last_year.
  assert (H : 2 ≤ length names) by (simpl; lia).
  pose proof (generate_assignments_exhaustion sh self 0 names H eq_refl) as Hc.
  split; [|exact Hc].
  apply Hc; [apply python_shuffle_fair|apply adversarial_unsatisfiable].
Defined.

(** ** The record store *)
Import Store.

Section strip_facts.
Local Abbreviation chars := String.list_ascii_of_string.

Lemma chars_rev_app s1 s2 :
  chars (String.rev_app s1 s2) = reverse (chars s1) ++ chars s2.
Proof.
  revert s2. induction s1 as [|c s1 IH]; intros s2; simpl; [done|].
  rewrite IH, reverse_cons. simpl. by rewrite <-app_assoc.
Qed.

Lemma chars_rev s : chars (String.rev s) = reverse (chars s).
Proof. unfold String.rev. by rewrite chars_rev_app, app_nil_r. Qed.

Lemma forallb_reverse {A} (f : A → bool) (l : list A) :
  forallb f (reverse l) = forallb f l.
Proof.
  induction l as [|x l IH]; simpl; [done|].
  rewrite reverse_cons, forallb_app, IH. simpl.
  rewrite andb_true_r. apply andb_comm.
Qed.

Lemma chars_nil s : chars s = [] ↔ s = EmptyString.
Proof. destruct s; split; done. Qed.

Lemma rev_empty s : String.rev s = EmptyString ↔ s = EmptyString.
Proof.
  rewrite <-!chars_nil, chars_rev. split; [|by intros ->].
  intros H. apply (f_equal reverse) in H. by rewrite reverse_involutive in H.
Qed.

Lemma lstrip_empty s :
  lstrip s = EmptyString ↔ forallb isspace (chars s) = true.
Proof.
  induction s as [|c s IH]; simpl; [done|].
  destruct (isspace c); simpl; [done|]. split; done.
Qed.

Lemma forallb_lstrip s :
  forallb isspace (chars (lstrip s)) = forallb isspace (chars s).
Proof.
  induction s as [|c s IH]; simpl; [done|].
  destruct (isspace c) eqn:Hc; simpl; [done|]. by rewrite Hc.
Qed.

(** Stripping leaves nothing exactly when every character is white
    space. *)
Lemma strip_empty s :
  strip s = EmptyString ↔ forallb isspace (chars s) = true.
Proof.
  unfold strip, rstrip.
  by rewrite rev_empty, lstrip_empty, chars_rev, forallb_reverse,
    forallb_lstrip.
Qed.

Lemma truthy_empty s : truthy (Some s) = false ↔ s = EmptyString.
Proof. destruct s; split; done. Qed.

(** The test of the code is the test of the specification. *)
Lemma missing_or_empty_blank v : missing_or_empty v = blank v.
Proof.
  destruct v as [s|]; [|done]. unfold missing_or_empty, blank.
  destruct (truthy (Some s)) eqn:Hs.
  - destruct (forallb isspace (chars s)) eqn:Hall.
    + apply strip_empty in Hall. by rewrite Hall.
    + destruct (truthy (Some (strip s))) eqn:Ht; [done|].
      apply truthy_empty, strip_empty in Ht. congruence.
  - apply truthy_empty in Hs. by subst s.
Qed.
End strip_facts.

(** The loop over the participants stops at the first offending row and
    names it. *)
Lemma check_employees_spec (pre rows : list row) (seen : gset pyval) :
  (∀ e, e ∈ seen ↔ ∃ j r', pre !! j = Some r' ∧ email_of r' = e) →
  match check_employees rows (S (length pre)) seen with
  | Return _ =>
      ∀ k r, rows !! k = Some r →
        ¬ offending (pre ++ rows) (length pre + k) r
  | Raise x =>
      ∃ k r, rows !! k = Some r
        ∧ offending (pre ++ rows) (length pre + k) r
        ∧ (∀ k' r', k' < k → rows !! k' = Some r' →
             ¬ offending (pre ++ rows) (length pre + k') r')
        ∧ x = ValueError (employee_error (length pre + k) r)
  end.
Proof.
  revert pre seen. induction rows as [|row rest IH]; intros pre seen Hseen.
  { simpl. intros k r Hk. by rewrite lookup_nil in Hk. }
  cbn [check_employees]. rewrite !missing_or_empty_blank.
  fold (name_of row). fold (email_of row).
  destruct (blank (name_of row)) eqn:Hname.
  { exists 0, row. split_and!; [done|by left|intros; lia|].
    unfold employee_error. by rewrite Hname, Nat.add_0_r. }
  destruct (blank (email_of row)) eqn:Hemail.
  { exists 0, row. split_and!; [done|by right; left|intros; lia|].
    unfold employee_error. by rewrite Hname, Hemail, Nat.add_0_r. }
  case_bool_decide as Hdup.
  { exists 0, row. split_and!; [done| |intros; lia|].
    - right; right. apply Hseen in Hdup as (j & r' & Hj & He).
      exists j, r'. split_and!; [|by apply lookup_app_l_Some|done].
      apply lookup_lt_Some in Hj. lia.
    - unfold employee_error. by rewrite Hname, Hemail, Nat.add_0_r. }
  assert (Hrow : ¬ offending (pre ++ row :: rest) (length pre + 0) row).
  { intros [?|[?|(j & r' & Hj & Hlk & He)]]; [congruence|congruence|].
    apply Hdup, Hseen. exists j, r'. split; [|done].
    rewrite lookup_app_l in Hlk by lia. done. }
  specialize (IH (pre ++ [row]) (seen ∪ {[email_of row]})).
  rewrite length_app, Nat.add_1_r, <-app_assoc in IH. simpl in IH.
  assert (Hseen' : ∀ e, e ∈ seen ∪ {[email_of row]} ↔
            ∃ j r', (pre ++ [row]) !! j = Some r' ∧ email_of r' = e).
  { intros e. rewrite elem_of_union, elem_of_singleton, Hseen. split.
    - intros [(j & r' & Hj & He)| ->].
      + exists j, r'. split; [by apply lookup_app_l_Some|done].
      + exists (length pre), row. split; [|done].
        by rewrite lookup_app_r, Nat.sub_diag by lia.
    - intros (j & r' & Hj & He).
      apply lookup_app_Some in Hj as [Hj|[Hlen Hj]].
      + left. by exists j, r'.
      + right. apply list_lookup_singleton_Some in Hj as [_ <-]. done. }
  specialize (IH Hseen').
  destruct (check_employees rest (S (S (length pre)))
    (seen ∪ {[email_of row]})) as [[]|x].
  - intros [|k] r Hk.
    + injection Hk as <-. done.
    + replace (length pre + S k) with (S (length pre) + k) by lia.
      by apply IH.
  - destruct IH as (k & r & Hk & Hoff & Hfirst & ->).
    exists (S k), r. split_and!; [done| | |].
    + by replace (length pre + S k) with (S (length pre) + k) by lia.
    + intros [|k'] r' Hlt Hk'.
      * injection Hk' as <-. done.
      * replace (length pre + S k') with (S (length pre) + k') by lia.
        apply Hfirst; [lia|done].
    + by replace (length pre + S k) with (S (length pre) + k) by lia.
Qed.

(** The loader on a source that [read_csv] returns. *)
Lemma load_employees_read (fs : gmap string file)
    (file_path : string) self (data : list row) :
  read_csv fs file_path = Return data →
  let out := load_employees_from_csv fs file_path self in
  ((∃ msg, out.1 = Raise (ValueError msg))
   ↔ data = [] ∨ length data ≤ 2
     ∨ ∃ i r, data !! i = Some r ∧ offending data i r)
  ∧ (∀ x, out.1 = Raise x → out.2 = self ∧ ∃ msg, x = ValueError msg)
  ∧ (out.1 = Return () → out.2 = set_employees self data)
  ∧ (2 < length data → ∀ i r,
       data !! i = Some r → offending data i r →
       (∀ i' r', i' < i → data !! i' = Some r' → ¬ offending data i' r') →
       out = (Raise (ValueError (employee_error i r)), self)
       ∧ (blank (name_of r) = false → blank (email_of r) = false →
          employee_error i r = duplicate_msg (email_of r) (S i)
          ∧ ∃ j r', j < i ∧ data !! j = Some r'
              ∧ email_of r' = email_of r)).
Proof.
  intros Hread out. subst out. unfold load_employees_from_csv.
  rewrite Hread.
  case_bool_decide as Hnil.
  { subst data. cbn [fst snd length]. split; [|split; [|split]].
    - split; [by left|by eexists].
    - intros x [= <-]. split; [done|by eexists].
    - done.
    - lia. }
  case_bool_decide as Hlen.
  { cbn [fst snd]. split; [|split; [|split]].
    - split; [by right; left|by eexists].
    - intros x [= <-]. split; [done|by eexists].
    - done.
    - lia. }
  pose proof (check_employees_spec [] data ∅) as Hspec.
  simpl in Hspec.
  destruct (check_employees data 1 ∅) as [[]|x].
  - assert (Hok : ∀ k r, data !! k = Some r → ¬ offending data k r).
    { apply Hspec. intros e. rewrite elem_of_empty. split; [done|].
      intros (j & r' & Hj & _). by rewrite lookup_nil in Hj. }
    cbn [fst snd]. split; [|split; [|split]].
    + split; [by intros [msg ?]|].
      intros [?|[?|(i & r & Hi & Hoff)]]; [done|done|].
      by destruct (Hok i r Hi).
    + done.
    + done.
    + intros _ i r Hi Hoff. by destruct (Hok i r Hi).
  - destruct Hspec as (k & r & Hk & Hoff & Hfirst & ->).
    { intros e. rewrite elem_of_empty. split; [done|].
      intros (j & r' & Hj & _). by rewrite lookup_nil in Hj. }
    cbn [fst snd]. split; [|split; [|split]].
    + split; [|by eexists]. intros _. right; right. by exists k, r.
    + intros x [= <-]. split; [done|by eexists].
    + done.
    + intros _ i r0 Hi Hoff0 Hfirst0.
      assert (i = k) as ->.
      { destruct (Nat.lt_trichotomy i k) as [Hlt|[->|Hgt]]; [|done|].
        - by destruct (Hfirst i r0 Hlt Hi).
        - by destruct (Hfirst0 k r Hgt Hk). }
      assert (r0 = r) as -> by congruence.
      split; [done|]. intros Hn He. split.
      * unfold employee_error. by rewrite Hn, He.
      * destruct Hoff as [?|[?|Hdup]]; [congruence|congruence|done].
Qed.

(** C8.  Loading the participants fails with a validation error
    ([ValueError]) exactly when the source is read and has no record, has
    two records or fewer, or has an offending row (name missing or blank,
    email missing or blank, or email already carried by an earlier row).
    Whatever the failure, the model is left as it was.  With more than two
    records the error names the first offending row by its number counted
    from 1 and the field; a repeated email is reported at the later row,
    the earlier one lying before it.  Without failure the records are
    stored as read. *)
Theorem load_employees_validation (fs : gmap string file)
    (file_path : string) self :
  let out := load_employees_from_csv fs file_path self in
  ((∃ msg, out.1 = Raise (ValueError msg))
   ↔ ∃ data, read_csv fs file_path = Return data
       ∧ (data = [] ∨ length data ≤ 2
          ∨ ∃ i r, data !! i = Some r ∧ offending data i r))
  ∧ (∀ x, out.1 = Raise x → out.2 = self)
  ∧ ∀ data, read_csv fs file_path = Return data →
      (∀ x, out.1 = Raise x → ∃ msg, x = ValueError msg)
      ∧ (out.1 = Return () → out.2 = set_employees self data)
      ∧ (2 < length data → ∀ i r,
           data !! i = Some r → offending data i r →
           (∀ i' r', i' < i → data !! i' = Some r' →
              ¬ offending data i' r') →
           out = (Raise (ValueError (employee_error i r)), self)
           ∧ (blank (name_of r) = false → blank (email_of r) = false →
              employee_error i r = duplicate_msg (email_of r) (S i)
              ∧ ∃ j r', j < i ∧ data !! j = Some r'
                  ∧ email_of r' = email_of r)).
Proof.
  cbv zeta.
  destruct (read_csv fs file_path) as [data|x] eqn:Hdata.
  - pose proof (load_employees_read fs file_path self data Hdata) as Hread.
    cbv zeta in Hread. destruct Hread as (Hiff & Hx & Hret & Hrow).
    split; [|split].
    + rewrite Hiff. split.
      * intros Hbad. by exists data.
      * intros (data' & Heq & Hbad). by injection Heq as <-.
    + intros y Hy. by destruct (Hx y Hy).
    + intros data' Heq. injection Heq as <-. split; [|split]; [|done|done].
      intros y Hy. by destruct (Hx y Hy).
  - assert (E : load_employees_from_csv fs file_path self = (Raise x, self)).
    { unfold load_employees_from_csv. by rewrite Hdata. }
    rewrite E. cbn [fst snd]. split; [|split].
    + split.
      * intros [msg [= ->]]. unfold read_csv in Hdata.
        destruct (fs !! file_path) as [[|]|]; congruence.
      * by intros (data & ? & _).
    + done.
    + by intros data ?.
Qed.

(** On the sample disk, the table whose third row repeats the email of the
    first is rejected at row 3. *)
Lemma load_employees_validation_witness :
  let out :=
    load_employees_from_csv Samples.disk "dup.csv" Samples.first_year in
  out = (Raise (ValueError "Duplicate email found: 'a@x' at row 3."),
         Samples.first_year)
  ∧ ((∃ msg, out.1 = Raise (ValueError msg))
     ↔ ∃ data, read_csv Samples.disk "dup.csv" = Return data
         ∧ (data = [] ∨ length data ≤ 2
            ∨ ∃ i r, data !! i = Some r ∧ offending data i r)).
Proof.
  intros out. split; [vm_compute; reflexivity|].
  apply (load_employees_validation Samples.disk "dup.csv"
           Samples.first_year).
Defined.

(** The other tables of the sample disk: the clean staff table is stored,
    the empty one and the missing one are refused, each in its own way. *)
Example load_employees_samples :
  load_employees_from_csv Samples.disk "staff.csv" Samples.first_year
    = (Return (), set_employees Samples.first_year Samples.staff4)
  ∧ (load_employees_from_csv Samples.disk "empty.csv" Samples.first_year).1
    = Raise (ValueError "The CSV file is empty.")
  ∧ (load_employees_from_csv Samples.disk "last.csv" Samples.first_year).1
    = Raise (ValueError
        "The number of employees must be more than 2 for Secret Santa.")
  ∧ (load_employees_from_csv Samples.disk "nowhere.csv" Samples.first_year).1
    = Raise (FileNotFoundError "The file '{file_path}' was not found.").
Proof. vm_compute. split_and!; reflexivity. Qed.

(** One row of last year's table: the error, if any, names the first of
    the four fields that is missing or blank. *)
Lemma check_last_year_row_spec (r : gmap string pyval) i :
  check_last_year_row r i
  = match first_blank_field r with
    | Some f => Raise (ValueError (last_year_missing_msg f i))
    | None => Return ()
    end.
Proof.
  unfold check_last_year_row, first_blank_field, last_year_fields.
  rewrite !missing_or_empty_blank. cbn [List.find].
  by repeat match goal with |- context [blank ?v] => destruct (blank v) end.
Qed.

Lemma first_blank_field_None (r : gmap string pyval) :
  first_blank_field r = None
  ↔ ∀ f, f ∈ last_year_fields → blank (dict_get r f) = false.
Proof.
  unfold first_blank_field. split.
  - intros H f Hf. apply list_elem_of_In in Hf.
    by apply (find_none _ _ H).
  - intros H. destruct (List.find _ _) as [f|] eqn:Hfind; [|done].
    apply find_some in Hfind as [Hin Hb%Is_true_true].
    rewrite H in Hb; [done|]. by apply list_elem_of_In.
Qed.

Lemma first_blank_field_Some (r : gmap string pyval) f :
  first_blank_field r = Some f →
  f ∈ last_year_fields ∧ blank (dict_get r f) = true.
Proof.
  intros [Hin Hb]%find_some. split; [by apply list_elem_of_In|done].
Qed.

Lemma check_last_year_spec (rows : list row) i0 :
  match check_last_year rows i0 with
  | Return _ => ∀ k r, rows !! k = Some r → first_blank_field r = None
  | Raise x =>
      ∃ k r f, rows !! k = Some r ∧ first_blank_field r = Some f
        ∧ (∀ k' r', k' < k → rows !! k' = Some r' →
             first_blank_field r' = None)
        ∧ x = ValueError (last_year_missing_msg f (i0 + k))
  end.
Proof.
  revert i0. induction rows as [|row rest IH]; intros i0.
  { simpl. intros k r Hk. by rewrite lookup_nil in Hk. }
  cbn [check_last_year]. rewrite check_last_year_row_spec.
  destruct (first_blank_field row) as [f|] eqn:Hf; simpl.
  { exists 0, row, f. split_and!; [done|done|intros; lia|].
    by rewrite Nat.add_0_r. }
  specialize (IH (S i0)).
  destruct (check_last_year rest (S i0)) as [[]|x].
  - intros [|k] r Hk; [by injection Hk as <-|by eapply IH].
  - destruct IH as (k & r & f & Hk & Hb & Hfirst & ->).
    exists (S k), r, f. split_and!; [done|done| |].
    + intros [|k'] r' Hlt Hk'; [by injection Hk' as <-|].
      eapply Hfirst; [|done]. lia.
    + by rewrite Nat.add_succ_r.
Qed.

(** C9, as stated, fails: where no file stands at the path, loading the
    prior assignments raises [FileNotFoundError] instead of returning an
    empty sequence, and the stored assignments are left as they were. *)
Lemma load_last_year_absent_refuted :
  let out :=
    load_last_year_assignments Samples.disk "nowhere.csv" Samples.scenario in
  Samples.disk !! "nowhere.csv" = None
  ∧ out = (Raise (FileNotFoundError not_found_msg), Samples.scenario, [])
  ∧ out.1.1 ≠ Return ()
  ∧ last_year_assignments out.1.2 ≠ [].
Proof. vm_compute. split_and!; done. Qed.

(** C9, amended.  Loading the prior assignments from a source without
    records prints a warning, stores the empty sequence and raises nothing;
    so does the run when no path is given.  Where no file stands at the
    path the loader raises [FileNotFoundError] and stores nothing.  For a
    source with records it fails with a validation error exactly when some
    record has one of the four fields missing or blank; the error names the
    first such record by its number counted from 1 and its first such
    field, and nothing is stored; otherwise all records are stored. *)
Theorem load_last_year_validation (fs : gmap string file)
    (file_path : string) self :
  let out := load_last_year_assignments fs file_path self in
  (fs !! file_path = None →
     out = (Raise (FileNotFoundError not_found_msg), self, []))
  ∧ (fs !! file_path = Some (Rows []) →
     out = (Return (), set_last_year_assignments self [], [empty_warning]))
  ∧ run_load_previous fs EmptyString self
    = (Return (), set_last_year_assignments self [], [no_previous_msg])
  ∧ (∀ data, fs !! file_path = Some (Rows data) → data ≠ [] →
     ((∃ msg, out.1.1 = Raise (ValueError msg))
      ↔ ∃ i r f, data !! i = Some r ∧ f ∈ last_year_fields
                 ∧ blank (dict_get r f) = true)
     ∧ (∀ i r f,
          data !! i = Some r → first_blank_field r = Some f →
          (∀ i' r', i' < i → data !! i' = Some r' →
             first_blank_field r' = None) →
          out = (Raise (ValueError (last_year_missing_msg f (S i))), self, []))
     ∧ ((∀ i r f, data !! i = Some r → f ∈ last_year_fields →
           blank (dict_get r f) = false) →
        out = (Return (), set_last_year_assignments self data, []))).
Proof.
  intros out. subst out. unfold load_last_year_assignments, read_csv.
  split; [by intros ->|]. split; [by intros ->|]. split; [done|].
  intros data -> Hdata. rewrite bool_decide_false by done.
  pose proof (check_last_year_spec data 1) as Hspec.
  destruct (check_last_year data 1) as [[]|x]; cbn [fst snd].
  - split; [|split].
    + split; [by intros [msg ?]|]. intros (i & r & f & Hi & Hf & Hb).
      pose proof (Hspec i r Hi) as Hnone.
      rewrite first_blank_field_None in Hnone. rewrite Hnone in Hb; done.
    + intros i r f Hi Hf. by rewrite (Hspec i r Hi) in Hf.
    + done.
  - destruct Hspec as (k & r & f & Hk & Hf & Hfirst & ->).
    split; [|split].
    + split; [|by eexists]. intros _.
      apply first_blank_field_Some in Hf as [? ?]. by exists k, r, f.
    + intros i r0 f0 Hi Hf0 Hfirst0.
      assert (i = k) as ->.
      { destruct (Nat.lt_trichotomy i k) as [Hlt|[->|Hgt]]; [|done|].
        - rewrite (Hfirst i r0 Hlt Hi) in Hf0. done.
        - rewrite (Hfirst0 k r Hgt Hk) in Hf. done. }
      assert (r0 = r) as -> by congruence.
      assert (f0 = f) as -> by congruence. done.
    + intros Hall. apply first_blank_field_Some in Hf as [Hin Hb].
      rewrite (Hall k r f Hk Hin) in Hb. done.
Qed.

(** The four cases of C9 on the sample disk. *)
Example load_last_year_samples :
  (load_last_year_assignments Samples.disk "empty.csv" Samples.scenario).1
    = (Return (), set_last_year_assignments Samples.scenario [])
  ∧ (load_last_year_assignments Samples.disk "gap.csv" Samples.scenario).1.1
    = Raise (ValueError
        "'Secret_Child_EmailID' is missing or empty in last year's assignment file at row 2.")
  ∧ (load_last_year_assignments Samples.disk "last.csv" Samples.first_year).1
    = (Return (),
       set_last_year_assignments Samples.first_year
         [Samples.prior "Ann" "a@x" "Bob" "b@x"])
  ∧ (load_last_year_assignments Samples.disk "broken.csv" Samples.scenario).1.1
    = Raise (Exception read_failed_msg).
Proof. vm_compute. split_and!; reflexivity. Qed.

(** * Further properties *)

Import Writer App More.

(** ** The prior map *)

Lemma build_last_year_snoc rows r :
  build_last_year (rows ++ [r]) = last_year_step (build_last_year rows) r.
Proof. unfold build_last_year. by rewrite foldl_snoc. Qed.

Lemma last_year_step_counts (ly : gmap pyval pyval) r :
  last_year_step ly r
  = if counts r then <[giver_of r := child_of r]> ly else ly.
Proof. done. Qed.

(** X1.  The prior map holds, for a giver, the child of the last row of
    that giver among the rows whose giver and child are both truthy; rows
    with a falsy giver or child leave no trace, and neither keys nor values
    of the map are ever [None] or empty. *)
Theorem build_last_year_lookup (rows : list row) (g c : pyval) :
  build_last_year rows !! g = Some c
  ↔ ∃ i r, rows !! i = Some r ∧ giver_of r = g ∧ child_of r = c
      ∧ truthy g = true ∧ truthy c = true
      ∧ ∀ j r', i < j → rows !! j = Some r' →
          ¬ (giver_of r' = g ∧ counts r' = true).
Proof.
  revert c. induction rows as [|r rows IH] using rev_ind; intros c.
  { unfold build_last_year. simpl. rewrite lookup_empty. split; [done|].
    intros (i & r & Hi & _). by rewrite lookup_nil in Hi. }
  rewrite build_last_year_snoc, last_year_step_counts.
  destruct (counts r) eqn:Hr.
  - apply andb_true_iff in Hr as Htr. destruct Htr as [Hg Hc].
    rewrite lookup_insert. case_decide as Hkey.
    + split.
      * intros [= <-]. exists (length rows), r.
        split_and!.
        { by rewrite list_lookup_middle. }
        { done. }
        { done. }
        { by subst. }
        { done. }
        intros j r' Hj Hlk. apply lookup_lt_Some in Hlk.
        rewrite length_app in Hlk. simpl in Hlk. lia.
      * intros (i & r0 & Hi & Hg0 & Hc0 & _ & _ & Hlast).
        destruct (decide (i = length rows)) as [->|Hne].
        -- rewrite list_lookup_middle in Hi by done. injection Hi as <-.
           by rewrite Hc0.
        -- assert (i < length rows).
           { apply lookup_lt_Some in Hi. rewrite length_app in Hi.
             simpl in Hi. lia. }
           destruct (Hlast (length rows) r); [lia| |done].
           by rewrite list_lookup_middle.
    + rewrite IH. split.
      * intros (i & r0 & Hi & Hg0 & Hc0 & Htg & Htc & Hlast).
        exists i, r0. split_and!; try done; [by apply lookup_app_l_Some|].
        intros j r' Hj Hlk. apply lookup_app_Some in Hlk as [Hlk|[Hlen Hlk]].
        -- by apply (Hlast j r').
        -- apply list_lookup_singleton_Some in Hlk as [_ <-].
           intros [? _]. congruence.
      * intros (i & r0 & Hi & Hg0 & Hc0 & Htg & Htc & Hlast).
        apply lookup_app_Some in Hi as [Hi|[Hlen Hi]].
        -- exists i, r0. split_and!; try done.
           intros j r' Hj Hlk. apply (Hlast j r' Hj).
           by apply lookup_app_l_Some.
        -- apply list_lookup_singleton_Some in Hi as [_ <-]. congruence.
  - rewrite IH. split.
    + intros (i & r0 & Hi & Hg0 & Hc0 & Htg & Htc & Hlast).
      exists i, r0. split_and!; try done; [by apply lookup_app_l_Some|].
      intros j r' Hj Hlk. apply lookup_app_Some in Hlk as [Hlk|[Hlen Hlk]].
      * by apply (Hlast j r').
      * apply list_lookup_singleton_Some in Hlk as [_ <-].
        intros [_ ?]. congruence.
    + intros (i & r0 & Hi & Hg0 & Hc0 & Htg & Htc & Hlast).
      apply lookup_app_Some in Hi as [Hi|[Hlen Hi]].
      * exists i, r0. split_and!; try done.
        intros j r' Hj Hlk. apply (Hlast j r' Hj).
        by apply lookup_app_l_Some.
      * apply list_lookup_singleton_Some in Hi as [_ <-].
        unfold counts in Hr. subst g c. rewrite Htg, Htc in Hr. done.
Qed.

(** ** The records of the result *)

Lemma bind_Return {A B} (c : outcome A) (f : A → outcome B) b :
  c ≫= f = Return b ↔ ∃ a, c = Return a ∧ f a = Return b.
Proof.
  destruct c as [a|x]; simpl; split; try done.
  - intros H. by exists a.
  - by intros (a' & [= <-] & H).
  - by intros (a' & ? & _).
Qed.

Lemma bind_Raise {A B} (c : outcome A) (f : A → outcome B) x :
  c ≫= f = Raise x ↔ c = Raise x ∨ ∃ a, c = Return a ∧ f a = Raise x.
Proof.
  destruct c as [a|y]; simpl; split; try done.
  - intros H. right. by exists a.
  - by intros [?|(a' & [= <-] & H)].
  - intros [= <-]. by left.
  - by intros [[= <-]|(a' & ? & _)].
Qed.

(** A record is built from the two employees filed under the two emails:
    it has the four columns, with the name and email cells of the giver's
    and of the child's record. *)
Lemma result_row_inv (m : gmap pyval row) ge ce (r : gmap string pyval) :
  result_row m ge ce = Return r →
  ∃ gd cd : gmap string pyval,
    m !! ge = Some gd ∧ m !! ce = Some cd
    ∧ dom r = result_keys
    ∧ r !! "Employee_Name" = gd !! "Employee_Name"
    ∧ r !! "Employee_EmailID" = gd !! "Employee_EmailID"
    ∧ r !! "Secret_Child_Name" = cd !! "Employee_Name"
    ∧ r !! "Secret_Child_EmailID" = cd !! "Employee_EmailID".
Proof.
  unfold result_row.
  intros (gd & Hgd%getitem_Return & H)%bind_Return.
  apply bind_Return in H as (cd & Hcd%getitem_Return & H).
  apply bind_Return in H as (gn & Hgn%getitem_Return & H).
  apply bind_Return in H as (gi & Hgi%getitem_Return & H).
  apply bind_Return in H as (cn & Hcn%getitem_Return & H).
  apply bind_Return in H as (ci & Hci%getitem_Return & H).
  injection H as <-. exists gd, cd. by split_and!.
Qed.

(** When both emails are filed and the filed records carry their email, the
    only way to fail is a record without a name cell. *)
Lemma result_row_Raise_name (m : gmap pyval row) ge ce
    (gd cd : gmap string pyval) x :
  m !! ge = Some gd → m !! ce = Some cd →
  is_Some (gd !! "Employee_EmailID") → is_Some (cd !! "Employee_EmailID") →
  result_row m ge ce = Raise x →
  x = KeyError (Some "Employee_Name")
  ∧ (gd !! "Employee_Name" = None ∨ cd !! "Employee_Name" = None).
Proof.
  intros Hgd Hcd [gi Hgi] [ci Hci]. unfold result_row, getitem.
  rewrite Hgd, Hcd. simpl.
  destruct (gd !! "Employee_Name") as [gn|] eqn:Hgn; simpl;
    [|intros [= <-]; by split; [|left]].
  rewrite Hgi. simpl.
  destruct (cd !! "Employee_Name") as [cn|] eqn:Hcn; simpl;
    [|intros [= <-]; by split; [|right]].
  rewrite Hci. simpl. done.
Qed.

(** The loop over the pairs appends one record per pair, in order, and
    stops at the first pair that raises. *)
Lemma build_result_rows (m : gmap pyval row) pairs self out self' :
  build_result m pairs self = (out, self') →
  ∃ rows,
    result self' = result self ++ rows
    ∧ Forall2 (λ p r, result_row m p.1 p.2 = Return r)
        (take (length rows) pairs) rows
    ∧ (out = Return () → length rows = length pairs)
    ∧ (∀ x, out = Raise x →
         ∃ p, pairs !! length rows = Some p
              ∧ result_row m p.1 p.2 = Raise x).
Proof.
  revert self. induction pairs as [|[ge ce] pairs IH]; intros self; simpl.
  - intros [= <- <-]. exists []. rewrite app_nil_r.
    split_and!; [done|constructor|done|done].
  - destruct (result_row m ge ce) as [r|x] eqn:Hr.
    + intros (rows & Hres & Hrows & Hret & Hraise)%IH.
      exists (r :: rows). simpl in Hres. rewrite <-app_assoc in Hres.
      split_and!; [done| | |].
      * simpl. by constructor.
      * intros Hout. simpl. by rewrite Hret.
      * intros x Hout. simpl. by apply Hraise.
    + intros [= <- <-]. exists []. rewrite app_nil_r.
      split_and!; [done|constructor|done|].
      intros y [= <-]. by exists (ge, ce).
Qed.

(** With distinct emails, each employee is the one filed under its
    email. *)
Lemma build_email_to_emp_other (emps : list row) (names : list pyval)
    (acc m : gmap pyval row) (k : pyval) :
  build_names emps = Return names →
  build_email_to_emp emps acc = Return m →
  k ∉ names → m !! k = acc !! k.
Proof.
  revert names acc. induction emps as [|e emps IH]; intros names acc; simpl.
  - by intros _ [= <-].
  - unfold getitem. destruct (e !! "Employee_EmailID") as [v|]; [|done].
    simpl. destruct (build_names emps) as [vs|] eqn:Hvs; [|done].
    intros [= <-] Hm Hk. apply not_elem_of_cons in Hk as [Hkv Hk].
    rewrite (IH vs _ eq_refl Hm Hk). by rewrite lookup_insert_ne.
Qed.

Lemma build_email_to_emp_NoDup (emps : list row) (names : list pyval)
    (acc m : gmap pyval row) (i : nat) (e : gmap string pyval) :
  build_names emps = Return names →
  build_email_to_emp emps acc = Return m →
  NoDup names → emps !! i = Some e →
  m !! (names !!! i) = Some e.
Proof.
  revert names acc i.
  induction emps as [|e0 emps IH]; intros names acc i; simpl; [done|].
  unfold getitem. destruct (e0 !! "Employee_EmailID") as [v|]; [|done].
  simpl. destruct (build_names emps) as [vs|] eqn:Hvs; [|done].
  intros [= <-] Hm [Hv Hnd]%NoDup_cons Hi. destruct i as [|i]; simpl in *.
  - injection Hi as ->.
    rewrite (build_email_to_emp_other emps vs _ m v Hvs Hm Hv).
    by rewrite lookup_insert_eq.
  - by apply (IH vs _ i eq_refl Hm Hnd).
Qed.

(** ** [generate_assignments], further *)

(** The call as the retry loop, with the table it uses. *)
Lemma generate_loop (sh : shuffler) self (g : nat) (names : list pyval) :
  2 ≤ length names →
  build_names (employees self) = Return names →
  ∃ m : gmap pyval row,
    build_email_to_emp (employees self) ∅ = Return m
    ∧ generate_assignments sh self g
      = attempts sh names (build_last_year (last_year_assignments self)) m
          max_attempts g names self.
Proof.
  intros Hn Hnames. unfold generate_assignments.
  rewrite bool_decide_false
    by (rewrite <-(build_names_length _ _ Hnames); lia).
  destruct (build_email_to_emp_Return _ _ ∅ Hnames) as (m & Hm & _).
  exists m. by rewrite Hm, Hnames.
Qed.

Lemma email_table_facts (emps : list row) (names : list pyval)
    (m : gmap pyval row) :
  build_names emps = Return names →
  build_email_to_emp emps ∅ = Return m →
  (∀ k, k ∈ names → is_Some (m !! k))
  ∧ (∀ k (e : row), m !! k = Some e →
       e ∈ emps ∧ e !! "Employee_EmailID" = Some k).
Proof.
  intros Hnames Hm.
  destruct (build_email_to_emp_Return _ _ ∅ Hnames)
    as (m' & Hm' & Hk & _ & Hinv).
  rewrite Hm in Hm'. injection Hm' as <-. split; [done|].
  intros k e Hke. destruct (Hinv k e Hke) as [Hemp|?]; [|done].
  by rewrite lookup_empty in Hemp.
Qed.

(** What a call leaves untouched. *)
Lemma generate_frame (sh : shuffler) self (g : nat) :
  employees (generate_assignments sh self g).1.2 = employees self
  ∧ last_year_assignments (generate_assignments sh self g).1.2
    = last_year_assignments self
  ∧ g ≤ (generate_assignments sh self g).2 ≤ g + 100.
Proof.
  destruct (generate_cases sh self g)
    as [E|[E|(names & m & Hn & Hnames & E & _)]]; rewrite E.
  - simpl. split_and!; [done|done|lia|lia].
  - simpl. split_and!; [done|done|lia|lia].
  - destruct (attempts_cases names
      (build_last_year (last_year_assignments self)) sh m max_attempts g
      names self) as [[E' _]|(k & Hk & _ & _ & E')]; rewrite E'.
    + simpl. unfold max_attempts. split_and!; [done|done|lia|lia].
    + destruct (build_result m _ (set_result self [])) as [out self']
        eqn:Hb.
      apply build_result_frame in Hb as [He Hl]. cbn [fst snd].
      unfold max_attempts in Hk. split_and!; [done|done|lia|lia].
Qed.

(** X2.  Whatever the outcome, [generate_assignments] leaves the employees
    and the prior assignments of the model as they were, and the generator
    is advanced by at most 100 shuffles. *)
Theorem generate_assignments_frame (sh : shuffler) self (g : nat) :
  employees (generate_assignments sh self g).1.2 = employees self
  ∧ last_year_assignments (generate_assignments sh self g).1.2
    = last_year_assignments self
  ∧ g ≤ (generate_assignments sh self g).2 ≤ g + 100.
Proof. apply generate_frame. Qed.


Lemma build_names_lookup (emps : list row) (names : list pyval) i
    (e : gmap string pyval) :
  build_names emps = Return names → emps !! i = Some e →
  i < length names ∧ e !! "Employee_EmailID" = Some (names !!! i).
Proof.
  intros Hnames Hi. pose proof (build_names_Forall2 _ _ Hnames) as HF.
  destruct (Forall2_lookup_l _ _ _ _ _ HF Hi) as (v & Hv & He).
  split; [by eapply lookup_lt_Some|].
  by rewrite (list_lookup_total_correct _ _ _ Hv).
Qed.

(** What a returning call stores, record by record. *)
Lemma generate_Return_rows (sh : shuffler) self (g : nat)
    (names : list pyval) self' g' :
  fair sh →
  build_names (employees self) = Return names →
  generate_assignments sh self g = (Return (), self', g') →
  ∃ (m : gmap pyval row) (r' : list pyval),
    build_email_to_emp (employees self) ∅ = Return m
    ∧ r' ≡ₚ names
    ∧ self_free names (length names) r'
    ∧ length (result self') = length names
    ∧ ∀ i r, result self' !! i = Some r →
        result_row m (names !!! i) (r' !!! i) = Return r.
Proof.
  intros Hfair Hnames Hrun.
  destruct (decide (length (employees self) < 2)) as [Hlt|Hn].
  { by rewrite generate_too_few in Hrun. }
  rewrite <-(build_names_length _ _ Hnames) in Hn.
  destruct (generate_loop sh self g names ltac:(lia) Hnames) as (m & Hm & E).
  rewrite E in Hrun.
  destruct (attempts_cases names
    (build_last_year (last_year_assignments self)) sh m max_attempts g
    names self) as [[E' _]|(k & Hk & Hpass & _ & E')]; rewrite E' in Hrun;
    [done|].
  pose proof (receivers_at_perm names
    (build_last_year (last_year_assignments self)) sh g names (S k) Hfair
    (reflexivity _)) as Hperm.
  assert (Hsf : self_free names (length names)
            (receivers_at sh names
               (build_last_year (last_year_assignments self)) g names (S k))).
  { unfold attempt_passes in Hpass. cbn [receivers_at].
    destruct (attempt names (build_last_year (last_year_assignments self))
      sh (g + k) (receivers_at sh names
        (build_last_year (last_year_assignments self)) g names k))
      as [p r'] eqn:Ha.
    simpl in Hpass. subst p. by apply attempt_true in Ha as [? _]. }
  revert Hrun Hperm Hsf.
  generalize (receivers_at sh names
    (build_last_year (last_year_assignments self)) g names (S k)).
  intros r' Hrun Hperm Hsf. injection Hrun as Hbuild _.
  apply build_result_rows in Hbuild as (rows & Hres & Hrows & Hret & _).
  specialize (Hret eq_refl). cbn in Hres.
  pose proof (Permutation_length Hperm) as Hlen.
  assert (Hzip : length (zip names r') = length names).
  { rewrite length_zip_with. lia. }
  rewrite Hret, firstn_all in Hrows.
  exists m, r'. split_and!; [done|done|done|by rewrite Hres, Hret|].
  intros i r Hi. rewrite Hres in Hi.
  destruct (Forall2_lookup_r _ _ _ _ _ Hrows Hi) as ([ge ce] & Hp & Hrow).
  apply lookup_zip_with_Some in Hp as (x & y & [= <- <-] & Hx & Hy).
  simpl in Hrow.
  by rewrite (list_lookup_total_correct _ _ _ Hx),
    (list_lookup_total_correct _ _ _ Hy).
Qed.

(** X3.  With distinct emails, a returning call stores one record per
    employee, in order: the record has exactly the four columns, carries
    the name and email cells of employee [i] as giver, and the name and
    email cells of another employee as child. *)
Theorem generate_assignments_records (sh : shuffler) self (g : nat)
    (names : list pyval) self' g' :
  fair sh →
  build_names (employees self) = Return names →
  NoDup names →
  generate_assignments sh self g = (Return (), self', g') →
  length (result self') = length (employees self)
  ∧ ∀ i (e r : gmap string pyval),
      employees self !! i = Some e → result self' !! i = Some r →
      dom r = result_keys
      ∧ r !! "Employee_Name" = e !! "Employee_Name"
      ∧ r !! "Employee_EmailID" = e !! "Employee_EmailID"
      ∧ ∃ j (e' : gmap string pyval),
          j ≠ i ∧ employees self !! j = Some e'
          ∧ r !! "Secret_Child_Name" = e' !! "Employee_Name"
          ∧ r !! "Secret_Child_EmailID" = e' !! "Employee_EmailID".
Proof.
  intros Hfair Hnames Hnd Hrun.
  destruct (generate_Return_rows sh self g names self' g' Hfair Hnames Hrun)
    as (m & r' & Hm & Hperm & Hsf & Hlen & Hrows).
  split; [by rewrite Hlen, (build_names_length _ _ Hnames)|].
  intros i e r He Hr.
  destruct (build_names_lookup _ _ _ _ Hnames He) as [Hi Hemail].
  apply Hrows in Hr.
  apply result_row_inv in Hr
    as (gd & cd & Hgd & Hcd & Hdom & Hgn & Hgi & Hcn & Hci).
  rewrite (build_email_to_emp_NoDup _ _ _ _ _ _ Hnames Hm Hnd He) in Hgd.
  injection Hgd as <-.
  split_and!; [done|done|done|].
  (* the child is an employee at another index *)
  assert (Hin : r' !!! i ∈ names).
  { rewrite <-Hperm. apply list_elem_of_lookup_total_2.
    by rewrite (Permutation_length Hperm). }
  apply list_elem_of_lookup_total in Hin as (j & Hj & Hnj).
  assert (is_Some (employees self !! j)) as [e' He'].
  { apply lookup_lt_is_Some. by rewrite <-(build_names_length _ _ Hnames). }
  rewrite <-Hnj in Hcd.
  rewrite (build_email_to_emp_NoDup _ _ _ _ _ _ Hnames Hm Hnd He') in Hcd.
  injection Hcd as <-.
  exists j, e'. split_and!; [|done|done|done].
  intros ->. by apply (Hsf i Hi).
Qed.

(** The scenario of four participants. *)
Lemma generate_assignments_records_witness :
  let out := generate_assignments Samples.sample_shuffle Samples.scenario 0 in
  length (result out.1.2) = length (employees Samples.scenario)
  ∧ ∀ i (e r : gmap string pyval),
      employees Samples.scenario !! i = Some e →
      result out.1.2 !! i = Some r →
      dom r = result_keys
      ∧ r !! "Employee_Name" = e !! "Employee_Name"
      ∧ r !! "Employee_EmailID" = e !! "Employee_EmailID"
      ∧ ∃ j (e' : gmap string pyval),
          j ≠ i ∧ employees Samples.scenario !! j = Some e'
          ∧ r !! "Secret_Child_Name" = e' !! "Employee_Name"
          ∧ r !! "Secret_Child_EmailID" = e' !! "Employee_EmailID".
Proof.
  apply (generate_assignments_records Samples.sample_shuffle
           Samples.scenario 0 (Samples.names3 ++ [Some "d@x"]) _ 1
           (python_shuffle_fair _)).
  - reflexivity.
  - apply (bool_decide_unpack (NoDup (Samples.names3 ++ [Some "d@x"]))).
    vm_compute. exact I.
  - vm_compute. reflexivity.
Defined.

Lemma build_names_is_Return (emps : list row) :
  (∀ e : gmap string pyval, e ∈ emps → is_Some (e !! "Employee_EmailID")) →
  ∃ names, build_names emps = Return names.
Proof.
  induction emps as [|e emps IH]; intros Hall; simpl; [by eexists|].
  destruct (Hall e) as [v Hv]; [left|]. unfold getitem. rewrite Hv. simpl.
  destruct IH as [vs ->]; [intros; apply Hall; by right|]. by eexists.
Qed.

Lemma build_names_Raise_missing (emps : list row) x :
  build_names emps = Raise x →
  ∃ e : gmap string pyval, e ∈ emps ∧ e !! "Employee_EmailID" = None.
Proof.
  induction emps as [|e emps IH]; simpl; [done|]. unfold getitem.
  destruct (e !! "Employee_EmailID") as [v|] eqn:Hv; simpl.
  - destruct (build_names emps) as [vs|y]; [done|]. intros Heq.
    destruct (IH Heq) as (e' & He' & Hnone).
    exists e'. split; [by right|done].
  - intros _. exists e. split; [left|done].
Qed.

(** X4.  With two participants or more, a record without the email column
    makes the call raise [KeyError] for that column before anything else
    happens: no shuffle is drawn and the model is untouched.  Under a
    shuffle that rearranges, this [KeyError] has no other cause. *)
Theorem generate_assignments_missing_email (sh : shuffler) self (g : nat) :
  2 ≤ length (employees self) →
  ((∃ e : gmap string pyval,
      e ∈ employees self ∧ e !! "Employee_EmailID" = None) →
   generate_assignments sh self g
     = (Raise (KeyError (Some "Employee_EmailID")), self, g))
  ∧ (fair sh →
     (generate_assignments sh self g).1.1
       = Raise (KeyError (Some "Employee_EmailID")) →
     ∃ e : gmap string pyval,
       e ∈ employees self ∧ e !! "Employee_EmailID" = None).
Proof.
  intros Hn. split.
  - intros (e & He & Hnone).
    apply list_elem_of_lookup in He as [i Hi].
    destruct (build_names (employees self)) as [names|x] eqn:Hnames.
    { destruct (build_names_lookup _ _ _ _ Hnames Hi) as [_ Hsome].
      congruence. }
    unfold generate_assignments. rewrite bool_decide_false by lia.
    destruct (build_email_to_emp (employees self) ∅) as [m|y] eqn:Hm.
    + rewrite Hnames. by rewrite (build_names_Raise _ _ Hnames).
    + by rewrite (build_email_to_emp_Raise _ _ _ Hm).
  - intros Hfair Hout.
    destruct (build_names (employees self)) as [names|x] eqn:Hnames.
    + exfalso.
      destruct (generate_loop sh self g names) as (m & Hm & E);
        [by rewrite (build_names_length _ _ Hnames)|done|].
      destruct (email_table_facts _ _ _ Hnames Hm) as [Hkeys Hinv].
      rewrite E in Hout.
      destruct (attempts_cases names
        (build_last_year (last_year_assignments self)) sh m max_attempts g
        names self) as [[E' _]|(k & Hk & _ & _ & E')]; rewrite E' in Hout;
        [done|].
      pose proof (receivers_at_perm names
        (build_last_year (last_year_assignments self)) sh g names (S k)
        Hfair (reflexivity _)) as Hperm.
      revert Hout Hperm.
      generalize (receivers_at sh names
        (build_last_year (last_year_assignments self)) g names (S k)).
      intros r' Hout Hperm. cbn [fst] in Hout.
      destruct (build_result m (zip names r') (set_result self []))
        as [out self'] eqn:Hb. simpl in Hout. subst out.
      apply build_result_rows in Hb as (rows & _ & _ & _ & Hraise).
      destruct (Hraise _ eq_refl) as ([ge ce] & Hp & Hrow).
      apply lookup_zip_with_Some in Hp as (x & y & [= <- <-] & Hx & Hy).
      simpl in Hrow.
      destruct (Hkeys ge) as [gd Hgd]; [by eapply list_elem_of_lookup_2|].
      destruct (Hkeys ce) as [cd Hcd].
      { rewrite <-Hperm. by eapply list_elem_of_lookup_2. }
      destruct (Hinv _ _ Hgd) as [_ Hge]. destruct (Hinv _ _ Hcd) as [_ Hce].
      by destruct (result_row_Raise_name m ge ce gd cd _ Hgd Hcd
        ltac:(by eexists) ltac:(by eexists) Hrow) as [[=] _].
    + by apply (build_names_Raise_missing _ x).
Qed.

(** Two participants, one without the email column. *)
Lemma generate_assignments_missing_email_witness :
  ((∃ e : gmap string pyval,
      e ∈ employees keyless ∧ e !! "Employee_EmailID" = None) →
   generate_assignments Samples.sample_shuffle keyless 5
     = (Raise (KeyError (Some "Employee_EmailID")), keyless, 5))
  ∧ (fair Samples.sample_shuffle →
     (generate_assignments Samples.sample_shuffle keyless 5).1.1
       = Raise (KeyError (Some "Employee_EmailID")) →
     ∃ e : gmap string pyval,
       e ∈ employees keyless ∧ e !! "Employee_EmailID" = None).
Proof.
  apply (generate_assignments_missing_email Samples.sample_shuffle keyless 5).
  simpl. lia.
Defined.

(** The errors of the retry loop and of the building of the result. *)
Lemma generate_Raise_cases (sh : shuffler) self (g : nat)
    (names : list pyval) x self' g' :
  fair sh →
  2 ≤ length names →
  build_names (employees self) = Return names →
  generate_assignments sh self g = (Raise x, self', g') →
  (x = RuntimeError exhausted_msg ∧ self' = self ∧ g' = g + 100)
  ∨ (x = KeyError (Some "Employee_Name")
     ∧ (∃ e : gmap string pyval,
          e ∈ employees self ∧ e !! "Employee_Name" = None)
     ∧ length (result self') < length (employees self)
     ∧ g < g' ≤ g + 100).
Proof.
  intros Hfair Hn Hnames Hrun.
  destruct (generate_loop sh self g names Hn Hnames) as (m & Hm & E).
  destruct (email_table_facts _ _ _ Hnames Hm) as [Hkeys Hinv].
  rewrite E in Hrun.
  destruct (attempts_cases names
    (build_last_year (last_year_assignments self)) sh m max_attempts g
    names self) as [[E' _]|(k & Hk & _ & _ & E')]; rewrite E' in Hrun.
  { left. by injection Hrun as <- <- <-. }
  right.
  pose proof (receivers_at_perm names
    (build_last_year (last_year_assignments self)) sh g names (S k)
    Hfair (reflexivity _)) as Hperm.
  revert Hrun Hperm.
  generalize (receivers_at sh names
    (build_last_year (last_year_assignments self)) g names (S k)).
  intros r' Hrun Hperm. injection Hrun as Hb <-.
  apply build_result_rows in Hb as (rows & Hres & _ & _ & Hraise).
  destruct (Hraise _ eq_refl) as ([ge ce] & Hp & Hrow).
  pose proof (lookup_lt_Some _ _ _ Hp) as Hlt.
  rewrite length_zip_with, (Permutation_length Hperm) in Hlt.
  apply lookup_zip_with_Some in Hp as (a & b & [= <- <-] & Ha & Hb).
  simpl in Hrow.
  destruct (Hkeys ge) as [gd Hgd]; [by eapply list_elem_of_lookup_2|].
  destruct (Hkeys ce) as [cd Hcd].
  { rewrite <-Hperm. by eapply list_elem_of_lookup_2. }
  destruct (Hinv _ _ Hgd) as [Hgin Hge]. destruct (Hinv _ _ Hcd) as [Hcin Hce].
  destruct (result_row_Raise_name m ge ce gd cd _ Hgd Hcd
    ltac:(by eexists) ltac:(by eexists) Hrow) as [-> Hnone].
  unfold max_attempts in Hk. split_and!; [done| | |lia|lia].
  - destruct Hnone; [by exists gd|by exists cd].
  - rewrite Hres. cbn. rewrite (build_names_length _ _ Hnames) in Hlt. lia.
Qed.

(** X5.  For participants that all carry an email, under a shuffle that
    rearranges, the call raises nothing but the exhaustion error, with the
    model untouched, and [KeyError] for the name column; the latter only
    when some participant has no name column, and then the result stored
    before the call is gone: what is left holds fewer records than there
    are participants. *)
Theorem generate_assignments_raises (sh : shuffler) self (g : nat)
    (names : list pyval) x self' g' :
  fair sh →
  2 ≤ length names →
  build_names (employees self) = Return names →
  generate_assignments sh self g = (Raise x, self', g') →
  (x = RuntimeError exhausted_msg ∧ self' = self ∧ g' = g + 100)
  ∨ (x = KeyError (Some "Employee_Name")
     ∧ (∃ e : gmap string pyval,
          e ∈ employees self ∧ e !! "Employee_Name" = None)
     ∧ length (result self') < length (employees self)
     ∧ g < g' ≤ g + 100).
Proof. apply generate_Raise_cases. Qed.

(** Two participants without a name column, a result left by an earlier
    run. *)
Lemma generate_assignments_raises_witness :
  let out := generate_assignments Samples.sample_shuffle Samples.nameless 0 in
  out.1.1 = Raise (KeyError (Some "Employee_Name"))
  ∧ ((KeyError (Some "Employee_Name") = RuntimeError exhausted_msg
      ∧ out.1.2 = Samples.nameless ∧ out.2 = 0 + 100)
     ∨ (KeyError (Some "Employee_Name") = KeyError (Some "Employee_Name")
        ∧ (∃ e : gmap string pyval,
             e ∈ employees Samples.nameless ∧ e !! "Employee_Name" = None)
        ∧ length (result out.1.2) < length (employees Samples.nameless)
        ∧ 0 < out.2 ≤ 0 + 100)).
Proof.
  intros out. split; [vm_compute; reflexivity|].
  apply (generate_assignments_raises Samples.sample_shuffle Samples.nameless
           0 [Some "a@x"; Some "b@x"] _ _ _ (python_shuffle_fair _)).
  - simpl. lia.
  - reflexivity.
  - vm_compute. reflexivity.
Defined.

(** The first passing attempt builds the result. *)
Lemma first_pass_returns (sh : shuffler) self (g : nat)
    (names : list pyval) (k : nat) :
  fair sh →
  2 ≤ length names →
  build_names (employees self) = Return names →
  (∀ e : gmap string pyval,
     e ∈ employees self → is_Some (e !! "Employee_Name")) →
  let last_year := build_last_year (last_year_assignments self) in
  k < max_attempts →
  attempt_passes sh names last_year g names k = true →
  (∀ k', k' < k → attempt_passes sh names last_year g names k' = false) →
  ∃ self',
    generate_assignments sh self g = (Return (), self', g + S k)
    ∧ givers (result self') = names
    ∧ recipients (result self') = receivers_at sh names last_year g names (S k).
Proof.
  intros Hfair Hn Hnames Hname last_year Hk Hpass Hbefore. subst last_year.
  destruct (generate_loop sh self g names Hn Hnames) as (m & Hm & E).
  destruct (email_table_facts _ _ _ Hnames Hm) as [Hkeys Hinv].
  rewrite E.
  destruct (attempts_cases names
    (build_last_year (last_year_assignments self)) sh m max_attempts g
    names self) as [[_ Hall]|(k0 & Hk0 & Hpass0 & Hbefore0 & E')].
  { rewrite Hall in Hpass; done. }
  assert (k0 = k) as ->.
  { destruct (Nat.lt_trichotomy k0 k) as [Hlt|[->|Hgt]]; [|done|].
    - rewrite Hbefore in Hpass0; done.
    - rewrite Hbefore0 in Hpass; done. }
  rewrite E'.
  pose proof (receivers_at_perm names
    (build_last_year (last_year_assignments self)) sh g names (S k)
    Hfair (reflexivity _)) as Hperm.
  revert Hperm.
  generalize (receivers_at sh names
    (build_last_year (last_year_assignments self)) g names (S k)).
  intros r' Hperm.
  destruct (build_result_is_Return m (zip names r') (set_result self []))
    as [self' Hbuild].
  { intros [ge ce] key Hz Hor. simpl in Hor.
    pose proof (elem_of_zip_l _ _ _ _ Hz) as Hge.
    pose proof (elem_of_zip_r _ _ _ _ Hz) as Hce.
    assert (Hkn : key ∈ names).
    { destruct Hor as [->| ->]; [done|by rewrite <-Hperm]. }
    destruct (Hkeys key Hkn) as [e He]. exists e.
    destruct (Hinv key e He) as [Hin Hem].
    split_and!; [done|by apply Hname|by eexists]. }
  exists self'. rewrite Hbuild. split; [done|].
  apply build_result_Return in Hbuild as [Hg Hr];
    [|intros key e Hke; by apply Hinv].
  pose proof (Permutation_length Hperm) as Hlen.
  rewrite fst_zip in Hg by lia. rewrite snd_zip in Hr by lia. done.
Qed.

(** X6.  The call returns at the first attempt that passes: for participants
    that all carry an email and a name, if attempt [k] is the first to
    pass, the call returns with the generator advanced by [k + 1], the
    givers are the names and the recipients are the receivers list of that
    attempt. *)
Theorem generate_assignments_first_pass (sh : shuffler) self (g : nat)
    (names : list pyval) (k : nat) :
  fair sh →
  2 ≤ length names →
  build_names (employees self) = Return names →
  (∀ e : gmap string pyval,
     e ∈ employees self → is_Some (e !! "Employee_Name")) →
  let last_year := build_last_year (last_year_assignments self) in
  k < max_attempts →
  attempt_passes sh names last_year g names k = true →
  (∀ k', k' < k → attempt_passes sh names last_year g names k' = false) →
  ∃ self',
    generate_assignments sh self g = (Return (), self', g + S k)
    ∧ givers (result self') = names
    ∧ recipients (result self') = receivers_at sh names last_year g names (S k).
Proof. apply first_pass_returns. Qed.

(** Three participants, one prior recipient: from position 7 the first
    attempt is abandoned and the second passes. *)
Lemma generate_assignments_first_pass_witness :
  ∃ self',
    generate_assignments Samples.sample_shuffle one_prior 7
      = (Return (), self', 7 + 2)
    ∧ givers (result self') = Samples.names3
    ∧ recipients (result self')
      = receivers_at Samples.sample_shuffle Samples.names3
          (build_last_year (last_year_assignments one_prior)) 7
          Samples.names3 2.
Proof.
  apply (generate_assignments_first_pass Samples.sample_shuffle one_prior 7
           Samples.names3 1 (python_shuffle_fair _)).
  - simpl. lia.
  - reflexivity.
  - intros e He. apply list_elem_of_In in He. simpl in He.
    destruct He as [<-|[<-|[<-|[]]]]; by eexists.
  - unfold max_attempts. lia.
  - vm_compute. reflexivity.
  - intros k' Hk'. assert (k' = 0) as -> by lia. vm_compute. reflexivity.
Defined.

(** * The loaders and the engine together *)

Lemma blank_false (v : pyval) :
  blank v = false → ∃ s, v = Some s ∧ truthy v = true.
Proof.
  destruct v as [[|c s]|]; [done| |done]. intros _. by eexists.
Qed.

Lemma dict_get_Some {K} `{Countable K} (d : gmap K pyval) k s :
  dict_get d k = Some s → d !! k = Some (Some s).
Proof.
  unfold dict_get. destruct (d !! k) as [v|]; simpl; [|done]. by intros ->.
Qed.

(** What a successful load of the participants has checked. *)
Lemma load_employees_Return (fs : gmap string file) (file_path : string)
    self self1 :
  load_employees_from_csv fs file_path self = (Return (), self1) →
  ∃ data,
    read_csv fs file_path = Return data
    ∧ self1 = set_employees self data
    ∧ 2 < length data
    ∧ ∀ i r, data !! i = Some r → ¬ offending data i r.
Proof.
  intros Hload.
  destruct (read_csv fs file_path) as [data|x] eqn:Hread.
  2:{ unfold load_employees_from_csv in Hload.
      by rewrite Hread in Hload. }
  pose proof (load_employees_read fs file_path self data Hread) as Hspec.
  cbv zeta in Hspec. rewrite Hload in Hspec. cbn [fst snd] in Hspec.
  destruct Hspec as (Hiff & _ & Hret & _).
  exists data. split_and!; [done|by rewrite Hret| |].
  - destruct (decide (2 < length data)) as [|Hle]; [done|].
    destruct (proj2 Hiff) as [msg ?]; [right; left; lia|done].
  - intros i r Hi Hoff.
    destruct (proj2 Hiff) as [msg ?]; [right; right; by exists i, r|done].
Qed.

(** Validated participants: every record carries name and email cells,
    the emails are non-empty strings, pairwise distinct. *)
Lemma validated_names (data : list row) :
  (∀ i r, data !! i = Some r → ¬ offending data i r) →
  build_names data = Return (email_of <$> data)
  ∧ NoDup (email_of <$> data)
  ∧ (∀ v, v ∈ email_of <$> data → is_Some v ∧ truthy v = true)
  ∧ (∀ e : gmap string pyval, e ∈ data → is_Some (e !! "Employee_Name")).
Proof.
  intros Hok.
  assert (Hcell : ∀ i r, data !! i = Some r →
    (∃ s, name_of r = Some s ∧ truthy (name_of r) = true)
    ∧ (∃ s, email_of r = Some s ∧ truthy (email_of r) = true)).
  { intros i r Hi. split; apply blank_false.
    - destruct (blank (name_of r)) eqn:Hb; [|done].
      destruct (Hok i r Hi). by left.
    - destruct (blank (email_of r)) eqn:Hb; [|done].
      destruct (Hok i r Hi). by right; left. }
  split_and!.
  - clear Hok. induction data as [|e data IH]; simpl; [done|].
    destruct (Hcell 0 e eq_refl) as [_ (s & Hs & _)].
    apply dict_get_Some in Hs as Hlk. unfold getitem. rewrite Hlk. simpl.
    rewrite IH; [by rewrite Hs|].
    intros i r Hi. by apply (Hcell (S i)).
  - apply NoDup_alt. intros i j v Hi Hj.
    apply list_lookup_fmap_Some in Hi as (ri & -> & Hi).
    apply list_lookup_fmap_Some in Hj as (rj & Heq & Hj).
    destruct (Nat.lt_trichotomy i j) as [Hlt|[->|Hgt]]; [|done|].
    + destruct (Hok j rj Hj). right; right. by exists i, ri.
    + destruct (Hok i ri Hi). right; right. by exists j, rj.
  - intros v (r & -> & Hr)%list_elem_of_fmap.
    apply list_elem_of_lookup in Hr as [i Hi].
    destruct (Hcell i r Hi) as [_ (s & Hs & Ht)]. split; [by eexists|done].
  - intros e He. apply list_elem_of_lookup in He as [i Hi].
    destruct (Hcell i e Hi) as [(s & Hs & _) _].
    apply dict_get_Some in Hs. by eexists.
Qed.

(** With an empty prior map, distinct names that are strings pass at the
    first attempt. *)
Lemma empty_prior_passes (sh : shuffler) (names : list pyval) (g : nat) :
  fair sh → NoDup names → 2 ≤ length names →
  (∀ v, v ∈ names → is_Some v) →
  attempt_passes sh names ∅ g names 0 = true.
Proof.
  intros Hfair Hnd Hn Hstr. unfold attempt_passes. cbn [receivers_at].
  rewrite Nat.add_0_r.
  assert (Hperm : sh g names ≡ₚ names) by apply Hfair.
  assert (Hp2 : fix_self names (sh g names) ≡ₚ names).
  { rewrite fix_self_perm; [done|by apply Permutation_length]. }
  assert (Hin : ∀ i, i < length names →
            fix_self names (sh g names) !!! i ∈ names).
  { intros i Hi. pose proof (Permutation_length Hp2) as Hlen.
    revert Hp2 Hlen. generalize (fix_self names (sh g names)).
    intros r2 Hp2 Hlen. rewrite <-Hp2.
    apply list_elem_of_lookup_total_2. lia. }
  unfold attempt. rewrite fix_repeats_empty.
  - cbn [fst]. apply final_check_range. split.
    + intros i Hi. by apply fix_self_free.
    + intros i Hi. unfold dict_get. rewrite lookup_empty. simpl.
      destruct (Hstr _ (Hin i Hi)) as [v Hv]. by rewrite Hv.
  - intros i Hi%elem_of_seq. apply Hstr, Hin. lia.
Qed.

(** X7.  Participants accepted by the loader never trip the engine: the
    call on them, with any prior assignments, raises neither the too-few
    error nor a [KeyError]; it returns one record per participant, the
    givers being the emails of the table in order, or it ends in the
    exhaustion error with the model untouched. *)
Theorem loaded_participants_generate (sh : shuffler)
    (fs : gmap string file) (file_path : string) self self1
    (prev : list row) (g : nat) :
  fair sh →
  load_employees_from_csv fs file_path self = (Return (), self1) →
  let self2 := set_last_year_assignments self1 prev in
  (∃ self3 g',
     generate_assignments sh self2 g = (Return (), self3, g')
     ∧ length (result self3) = length (employees self1)
     ∧ givers (result self3) = email_of <$> employees self1)
  ∨ generate_assignments sh self2 g
    = (Raise (RuntimeError exhausted_msg), self2, g + 100).
Proof.
  intros Hfair (data & Hread & -> & Hlen & Hok)%load_employees_Return self2.
  destruct (validated_names data Hok) as (Hnames & Hnd & Hstr & Hname).
  assert (Hn : 2 ≤ length (email_of <$> data))
    by (rewrite length_fmap; lia).
  destruct (generate_assignments sh self2 g) as [[[[]|x] self3] g'] eqn:Hrun.
  - left. exists self3, g'. split; [done|].
    destruct (generate_enters_loop sh self2 g (email_of <$> data))
      as (m & E & _ & Hinv); [simpl; lia|done|].
    rewrite E in Hrun.
    apply attempts_Return in Hrun as (_ & Hg & _); [|done|].
    2:{ intros k e Hke. by apply Hinv. }
    split; [|done]. simpl.
    rewrite <-(length_fmap (λ r : row, dict_get r "Employee_EmailID")).
    fold (givers (result self3)). by rewrite Hg, length_fmap.
  - right.
    destruct (generate_Raise_cases sh self2 g (email_of <$> data) x self3 g'
      Hfair Hn Hnames Hrun) as [(-> & -> & ->)|(_ & (e & He & Hnone) & _)];
      [done|].
    destruct (Hname e He) as [v Hv]. simpl in Hnone. congruence.
Qed.

(** The staff table of the sample disk, then the scenario's prior
    assignments. *)
Lemma loaded_participants_generate_witness :
  let self1 := set_employees Samples.first_year Samples.staff4 in
  let self2 :=
    set_last_year_assignments self1 (last_year_assignments Samples.scenario)
  in
  (∃ self3 g',
     generate_assignments Samples.sample_shuffle self2 0
       = (Return (), self3, g')
     ∧ length (result self3) = length (employees self1)
     ∧ givers (result self3) = email_of <$> employees self1)
  ∨ generate_assignments Samples.sample_shuffle self2 0
    = (Raise (RuntimeError exhausted_msg), self2, 0 + 100).
Proof.
  apply (loaded_participants_generate Samples.sample_shuffle Samples.disk
           "staff.csv" Samples.first_year
           (set_employees Samples.first_year Samples.staff4)
           (last_year_assignments Samples.scenario) 0
           (python_shuffle_fair _)).
  vm_compute. reflexivity.
Defined.

(** X8.  First year, end to end: after the participants are loaded, a
    skipped prior file (blank answer) or a prior file without records
    leaves no constraint but the one on self-assignment, and the call
    returns at its first attempt, whatever the shuffle. *)
Theorem first_year_pipeline (sh : shuffler) (fs : gmap string file)
    (file_path previous_file : string) self self1 (g : nat) :
  fair sh →
  load_employees_from_csv fs file_path self = (Return (), self1) →
  previous_file = EmptyString ∨ fs !! previous_file = Some (Rows []) →
  (run_load_previous fs previous_file self1).1
    = (Return (), set_last_year_assignments self1 [])
  ∧ ∃ self3,
      generate_assignments sh (set_last_year_assignments self1 []) g
        = (Return (), self3, S g)
      ∧ givers (result self3) = email_of <$> employees self1.
Proof.
  intros Hfair (data & Hread & -> & Hlen & Hok)%load_employees_Return Hprev.
  split.
  - unfold run_load_previous.
    destruct (truthy (Some previous_file)) eqn:Ht; [|done].
    destruct Hprev as [->|Hfile]; [done|].
    unfold load_last_year_assignments, read_csv. by rewrite Hfile.
  - destruct (validated_names data Hok) as (Hnames & Hnd & Hstr & Hname).
    assert (Hn : 2 ≤ length (email_of <$> data))
      by (rewrite length_fmap; lia).
    destruct (first_pass_returns sh
      (set_last_year_assignments (set_employees self data) []) g
      (email_of <$> data) 0 Hfair Hn Hnames Hname)
      as (self3 & E & Hg & _).
    + unfold max_attempts. lia.
    + apply empty_prior_passes; [done|done|done|].
      intros v Hv. by apply Hstr.
    + intros k' Hk'. lia.
    + exists self3. by rewrite Nat.add_1_r in E.
Qed.

(** The staff table and the table without records of the sample disk. *)
Lemma first_year_pipeline_witness :
  let self1 := set_employees Samples.first_year Samples.staff4 in
  (run_load_previous Samples.disk "empty.csv" self1).1
    = (Return (), set_last_year_assignments self1 [])
  ∧ ∃ self3,
      generate_assignments Samples.sample_shuffle
        (set_last_year_assignments self1 []) 3
        = (Return (), self3, 4)
      ∧ givers (result self3) = email_of <$> employees self1.
Proof.
  apply (first_year_pipeline Samples.sample_shuffle Samples.disk
           "staff.csv" "empty.csv" Samples.first_year
           (set_employees Samples.first_year Samples.staff4) 3
           (python_shuffle_fair _)).
  - vm_compute. reflexivity.
  - right. vm_compute. reflexivity.
Defined.

(** When every row counts, every giver has an entry: the child of the last
    row of that giver. *)
Lemma build_last_year_total (rows : list row) :
  (∀ r : gmap string pyval, r ∈ rows → counts r = true) →
  ∀ i (r : gmap string pyval), rows !! i = Some r →
    ∃ j (r' : gmap string pyval),
      i ≤ j ∧ rows !! j = Some r' ∧ giver_of r' = giver_of r
      ∧ build_last_year rows !! giver_of r = Some (child_of r').
Proof.
  induction rows as [|x rows IH] using rev_ind; intros Hall i r Hi.
  { by rewrite lookup_nil in Hi. }
  rewrite build_last_year_snoc, last_year_step_counts.
  rewrite Hall by (apply elem_of_app; right; left).
  assert (Hlast : (rows ++ [x]) !! length rows = Some x)
    by by rewrite list_lookup_middle.
  apply lookup_app_Some in Hi as [Hi|[Hlen Hi]].
  - destruct (decide (giver_of x = giver_of r)) as [Heq|Hne].
    + exists (length rows), x. rewrite <-Heq, lookup_insert_eq.
      split_and!; [|done|done|done].
      apply lookup_lt_Some in Hi. lia.
    + destruct (IH ltac:(intros; apply Hall, elem_of_app; by left) i r Hi)
        as (j & r' & Hij & Hj & Hg & Hlk).
      exists j, r'. rewrite lookup_insert_ne by done.
      split_and!; [done|by apply lookup_app_l_Some|done|done].
  - apply list_lookup_singleton_Some in Hi as [Hi <-].
    exists (length rows), x. rewrite lookup_insert_eq.
    split_and!; [lia|done|done|done].
Qed.

(** What a successful load of the prior assignments has stored. *)
Lemma load_last_year_Return (fs : gmap string file) (file_path : string)
    self self' printed :
  load_last_year_assignments fs file_path self = (Return (), self', printed) →
  ∃ data,
    read_csv fs file_path = Return data
    ∧ self' = set_last_year_assignments self data
    ∧ ∀ i r, data !! i = Some r → first_blank_field r = None.
Proof.
  unfold load_last_year_assignments.
  destruct (read_csv fs file_path) as [data|x]; [|done].
  case_bool_decide as Hnil.
  - intros [= <- _]. subst data. exists []. split_and!; [done|done|].
    intros i r Hi. by rewrite lookup_nil in Hi.
  - pose proof (check_last_year_spec data 1) as Hspec.
    destruct (check_last_year data 1) as [[]|x]; [|done].
    intros [= <- _]. by exists data.
Qed.

(** X9.  No validated prior row is skipped by the engine: after a
    successful load of the prior assignments, the prior map built from the
    stored rows has an entry for the giver of every row, namely the
    recipient of the last row of that giver. *)
Theorem loaded_prior_rows_count (fs : gmap string file)
    (file_path : string) self self' printed :
  load_last_year_assignments fs file_path self = (Return (), self', printed) →
  ∀ i (r : gmap string pyval),
    last_year_assignments self' !! i = Some r →
    ∃ j (r' : gmap string pyval),
      i ≤ j ∧ last_year_assignments self' !! j = Some r'
      ∧ giver_of r' = giver_of r
      ∧ build_last_year (last_year_assignments self') !! giver_of r
        = Some (child_of r').
Proof.
  intros (data & _ & -> & Hok)%load_last_year_Return. simpl.
  apply build_last_year_total. intros r Hr.
  apply list_elem_of_lookup in Hr as [i Hi].
  pose proof (Hok i r Hi) as Hnone.
  rewrite first_blank_field_None in Hnone. unfold counts.
  destruct (blank_false (giver_of r)) as (s & _ & ->).
  { apply Hnone. unfold last_year_fields. set_solver. }
  destruct (blank_false (child_of r)) as (s' & _ & ->); [|done].
  apply Hnone. unfold last_year_fields. set_solver.
Qed.

(** Last year's table of the sample disk, at its only row. *)
Lemma loaded_prior_rows_count_witness :
  let self' :=
    set_last_year_assignments Samples.first_year
      [Samples.prior "Ann" "a@x" "Bob" "b@x"] in
  let r := Samples.prior "Ann" "a@x" "Bob" "b@x" in
  ∃ j (r' : gmap string pyval),
    0 ≤ j ∧ last_year_assignments self' !! j = Some r'
    ∧ giver_of r' = giver_of r
    ∧ build_last_year (last_year_assignments self') !! giver_of r
      = Some (child_of r').
Proof.
  apply (loaded_prior_rows_count Samples.disk "last.csv" Samples.first_year
           _ [] ltac:(vm_compute; reflexivity) 0).
  reflexivity.
Defined.

(** * Writing the result *)

Lemma written_row_lookup (F : gset string) (r : gmap string pyval) f :
  written_row F r !! f
  = match r !! f with
    | Some v => Some (written_cell v)
    | None => if decide (f ∈ F) then Some (Some EmptyString) else None
    end.
Proof.
  unfold written_row. rewrite lookup_union, lookup_fmap, lookup_gset_to_gmap.
  destruct (r !! f) as [v|]; simpl.
  - by destruct (guard (f ∈ F) ≫= _).
  - destruct (decide (f ∈ F)) as [Hin|Hin].
    + by rewrite option_guard_True.
    + by rewrite option_guard_False.
Qed.

(** A row with exactly the field names as keys and strings as cells is
    read back as it is. *)
Lemma written_row_uniform (F : gset string) (r : gmap string pyval) :
  uniform F r → written_row F r = r.
Proof.
  intros [Hdom Hcell]. apply map_eq. intros f. rewrite written_row_lookup.
  destruct (r !! f) as [v|] eqn:Hf.
  - destruct (Hcell f v Hf) as [s ->]. done.
  - case_decide as Hin; [|done].
    rewrite <-Hdom in Hin. apply elem_of_dom in Hin as [v Hv]. congruence.
Qed.

(** Every row read back has exactly the field names as keys and strings as
    cells. *)
Lemma written_row_is_uniform (F : gset string) (r : gmap string pyval) :
  dom r ⊆ F → uniform F (written_row F r).
Proof.
  intros Hsub. split.
  - apply set_eq. intros f. rewrite elem_of_dom, written_row_lookup.
    destruct (r !! f) as [v|] eqn:Hf.
    + split; [|by eexists]. intros _. apply Hsub, elem_of_dom. by eexists.
    + case_decide as Hin.
      * split; [done|by eexists].
      * split; [by intros [? ?]|done].
  - intros f v. rewrite written_row_lookup.
    destruct (r !! f) as [v'|]; [intros [= <-]; by eexists|].
    case_decide; [intros [= <-]; by eexists|done].
Qed.

(** The rows are written up to the first one with an unknown key. *)
Lemma write_rows_spec (F : gset string) (data : list row) :
  match write_rows F data with
  | (rows, true) =>
      rows = written_row F <$> data
      ∧ ∀ r : gmap string pyval, r ∈ data → dom r ⊆ F
  | (rows, false) =>
      ∃ k (r : gmap string pyval),
        data !! k = Some r ∧ ¬ dom r ⊆ F
        ∧ rows = written_row F <$> take k data
        ∧ ∀ r' : gmap string pyval, r' ∈ take k data → dom r' ⊆ F
  end.
Proof.
  induction data as [|r data IH]; simpl.
  - split; [done|]. intros r Hr. by apply elem_of_nil in Hr.
  - case_decide as Hsub.
    + destruct (write_rows F data) as [rows []].
      * destruct IH as [-> Hall]. split; [done|].
        intros r' [->|?]%elem_of_cons; auto.
      * destruct IH as (k & r0 & Hk & Hbad & -> & Hall).
        exists (S k), r0. split_and!; [done|done|done|].
        simpl. intros r' [->|?]%elem_of_cons; auto.
    + exists 0, r. split_and!; [done|done|done|].
      simpl. intros r' Hr'. by apply elem_of_nil in Hr'.
Qed.

(** X10.  [write_csv] returns exactly when there is a record to write, the
    file can be opened and no record has a column the first record lacks;
    with no record it raises the empty-data error, otherwise the
    write-failed error.  It leaves the disk as it was when there is no
    record or the file cannot be opened. *)
Theorem write_csv_outcome (can_open : string → bool)
    (fs : gmap string file) (file_path : string) (data : list row) :
  let out := write_csv can_open fs file_path data in
  (out.1 = Return ()
   ↔ ∃ first, head data = Some first ∧ can_open file_path = true
       ∧ ∀ r : gmap string pyval, r ∈ data → dom r ⊆ dom first)
  ∧ (∀ x, out.1 = Raise x →
       (data = [] ∧ x = ValueError empty_data_msg)
       ∨ (data ≠ [] ∧ x = Exception write_failed_msg))
  ∧ (data = [] ∨ can_open file_path = false → out.2 = fs).
Proof.
  intros out. subst out. unfold write_csv.
  destruct data as [|first rest].
  { cbn [fst snd]. split_and!; [|intros x [= <-]; by left|done].
    split; [done|]. by intros (first & ? & _). }
  destruct (can_open file_path) eqn:Hopen.
  2:{ cbn [fst snd]. split_and!; [|intros x [= <-]; by right|done].
      split; [done|]. by intros (f & _ & ? & _). }
  pose proof (write_rows_spec (dom first) (first :: rest)) as Hspec.
  destruct (write_rows (dom first) (first :: rest)) as [rows []];
    cbn [fst snd].
  - destruct Hspec as [-> Hall]. split_and!.
    + split; [|done]. intros _. by exists first.
    + done.
    + intros [?|?]; done.
  - destruct Hspec as (k & r & Hk & Hbad & -> & Hall). split_and!.
    + split; [done|]. intros (f & [= <-] & _ & Hsub).
      destruct Hbad. apply Hsub. by eapply list_elem_of_lookup_2.
    + intros x [= <-]. by right.
    + intros [?|?]; done.
Qed.

(** X11.  Round trip through the store: records that all have the columns
    of the first one (at least one column) and strings for cells, with
    field names and cells within the reader's limit on the length of a
    field, written to a file that can be opened, are read back as they
    were written. *)
Theorem write_read_round_trip (can_open : string → bool)
    (fs : gmap string file) (file_path : string) (data : list row)
    (first : gmap string pyval) :
  can_open file_path = true →
  head data = Some first →
  dom first ≠ ∅ →
  (∀ r : gmap string pyval, r ∈ data → uniform (dom first) r) →
  fields_fit (dom first) data = true →
  (write_csv can_open fs file_path data).1 = Return ()
  ∧ read_csv (write_csv can_open fs file_path data).2 file_path
    = Return data.
Proof.
  intros Hopen Hhead Hdom Huni _. unfold write_csv.
  destruct data as [|first' rest]; [done|]. injection Hhead as ->.
  rewrite Hopen.
  pose proof (write_rows_spec (dom first) (first :: rest)) as Hspec.
  destruct (write_rows (dom first) (first :: rest)) as [rows []].
  - destruct Hspec as [-> _]. cbn [fst snd]. split; [done|].
    unfold read_csv, table. rewrite lookup_insert_eq.
    rewrite decide_False by done. f_equal.
    apply list_eq. intros i. rewrite list_lookup_fmap.
    destruct ((first :: rest) !! i) as [r|] eqn:Hi; [simpl|done].
    rewrite written_row_uniform; [done|].
    apply Huni. by eapply list_elem_of_lookup_2.
  - destruct Hspec as (k & r & Hk & Hbad & _). destruct Hbad.
    destruct (Huni r) as [-> _]; [by eapply list_elem_of_lookup_2|done].
Qed.

(** X12.  What a later read finds after a successful write of records
    whose field names and cells are within the reader's limit on the
    length of a field: one record per record written, in order, each with
    exactly the columns of the first record; a cell that was a string is
    unchanged, a cell that was [None] or absent comes back as the empty
    string. *)
Theorem write_read_cells (can_open : string → bool)
    (fs : gmap string file) (file_path : string) (data : list row)
    (first : gmap string pyval) :
  (write_csv can_open fs file_path data).1 = Return () →
  head data = Some first →
  dom first ≠ ∅ →
  fields_fit (dom first) data = true →
  ∃ back,
    read_csv (write_csv can_open fs file_path data).2 file_path = Return back
    ∧ length back = length data
    ∧ ∀ i (r b : gmap string pyval),
        data !! i = Some r → back !! i = Some b →
        dom b = dom first
        ∧ ∀ f, f ∈ dom first →
            b !! f = Some (Some (default EmptyString (dict_get r f))).
Proof.
  unfold write_csv. destruct data as [|first' rest]; [done|].
  intros Hret [= ->] Hdom _. revert Hret.
  destruct (can_open file_path); [|done].
  pose proof (write_rows_spec (dom first) (first :: rest)) as Hspec.
  destruct (write_rows (dom first) (first :: rest)) as [rows []]; [|done].
  destruct Hspec as [-> Hall]. cbn [fst snd]. intros _.
  exists (written_row (dom first) <$> first :: rest).
  split_and!.
  - unfold read_csv, table. rewrite lookup_insert_eq.
    by rewrite decide_False by done.
  - by rewrite length_fmap.
  - intros i r b Hr Hb. rewrite list_lookup_fmap, Hr in Hb.
    injection Hb as <-.
    destruct (written_row_is_uniform (dom first) r) as [Hd _].
    { apply Hall. by eapply list_elem_of_lookup_2. }
    split; [done|]. intros f Hf. rewrite written_row_lookup.
    unfold dict_get. destruct (r !! f) as [v|]; simpl.
    + by destruct v.
    + by rewrite decide_True.
Qed.

(** X13.  The write is not atomic: when a record has a column the first
    record lacks, the write-failed error is raised with the file already
    replaced by the records before the offending one. *)
Theorem write_csv_partial (can_open : string → bool)
    (fs : gmap string file) (file_path : string) (data : list row)
    (first r : gmap string pyval) (k : nat) :
  can_open file_path = true →
  head data = Some first →
  data !! k = Some r →
  ¬ dom r ⊆ dom first →
  (∀ r' : gmap string pyval, r' ∈ take k data → dom r' ⊆ dom first) →
  write_csv can_open fs file_path data
  = (Raise (Exception write_failed_msg),
     <[file_path := table (dom first) (written_row (dom first) <$> take k data)]>
       fs).
Proof.
  intros Hopen Hhead Hk Hbad Hbefore. unfold write_csv.
  destruct data as [|first' rest]; [done|]. injection Hhead as ->.
  rewrite Hopen.
  pose proof (write_rows_spec (dom first) (first :: rest)) as Hspec.
  destruct (write_rows (dom first) (first :: rest)) as [rows []].
  - destruct Hspec as [_ Hall]. destruct Hbad. apply Hall.
    by eapply list_elem_of_lookup_2.
  - destruct Hspec as (k' & r0 & Hk' & Hbad' & -> & Hall).
    assert (k' = k) as ->; [|done].
    destruct (Nat.lt_trichotomy k' k) as [Hlt|[->|Hgt]]; [|done|].
    + destruct Hbad'. apply Hbefore.
      apply list_elem_of_lookup. exists k'. by rewrite lookup_take_lt.
    + destruct Hbad. apply Hall.
      apply list_elem_of_lookup. exists k. by rewrite lookup_take_lt.
Qed.

(** Three records, the second with columns the first lacks: the file is
    left with the first record alone. *)
Lemma write_csv_partial_witness :
  write_csv writable Samples.disk "staff.csv" ragged
  = (Raise (Exception write_failed_msg),
     <["staff.csv" := table (dom (Samples.emp "Ann" "a@x"))
         (written_row (dom (Samples.emp "Ann" "a@x")) <$> take 1 ragged)]>
       Samples.disk).
Proof.
  apply (write_csv_partial writable Samples.disk "staff.csv" ragged
           (Samples.emp "Ann" "a@x")
           (Samples.prior "Bob" "b@x" "Ann" "a@x") 1).
  - reflexivity.
  - reflexivity.
  - reflexivity.
  - apply (bool_decide_eq_false_1
      (dom (Samples.prior "Bob" "b@x" "Ann" "a@x")
       ⊆ dom (Samples.emp "Ann" "a@x"))).
    vm_compute. reflexivity.
  - intros r' Hr'. apply list_elem_of_In in Hr'. simpl in Hr'.
    destruct Hr' as [<-|[]]. done.
Defined.

(** The staff table written to a new file. *)
Lemma write_read_round_trip_witness :
  (write_csv writable Samples.disk "copy.csv" Samples.staff4).1 = Return ()
  ∧ read_csv (write_csv writable Samples.disk "copy.csv" Samples.staff4).2
      "copy.csv"
    = Return Samples.staff4.
Proof.
  apply (write_read_round_trip writable Samples.disk "copy.csv"
           Samples.staff4 (Samples.emp "Ann" "a@x")).
  - reflexivity.
  - reflexivity.
  - apply (bool_decide_eq_false_1 (dom (Samples.emp "Ann" "a@x") = ∅)).
    vm_compute. reflexivity.
  - intros r Hr. apply list_elem_of_In in Hr. simpl in Hr.
    assert (Hu : ∀ n e : string,
      uniform (dom (Samples.emp "Ann" "a@x")) (Samples.emp n e)).
    { intros n e. split.
      - unfold Samples.emp. by rewrite !dom_insert_L.
      - intros f v. unfold Samples.emp. rewrite !lookup_insert.
        repeat case_decide; try done; intros [= <-]; by eexists. }
    destruct Hr as [<-|[<-|[<-|[<-|[]]]]]; apply Hu.
  - vm_compute. reflexivity.
Defined.

(** The nameless records of the samples, whose name column is missing. *)
Lemma write_read_cells_witness :
  ∃ back,
    read_csv (write_csv writable Samples.disk "copy.csv"
                [Samples.emp "Ann" "a@x"; <["Employee_Name" := None]> ∅]).2
      "copy.csv" = Return back
    ∧ length back = 2
    ∧ ∀ i (r b : gmap string pyval),
        [Samples.emp "Ann" "a@x"; <["Employee_Name" := None]> ∅] !! i
          = Some r →
        back !! i = Some b →
        dom b = dom (Samples.emp "Ann" "a@x")
        ∧ ∀ f, f ∈ dom (Samples.emp "Ann" "a@x") →
            b !! f = Some (Some (default EmptyString (dict_get r f))).
Proof.
  apply (write_read_cells writable Samples.disk "copy.csv"
           [Samples.emp "Ann" "a@x"; <["Employee_Name" := None]> ∅]
           (Samples.emp "Ann" "a@x")).
  - vm_compute. reflexivity.
  - reflexivity.
  - apply (bool_decide_eq_false_1 (dom (Samples.emp "Ann" "a@x") = ∅)).
    vm_compute. reflexivity.
  - vm_compute. reflexivity.
Defined.

(** * The program *)

Lemma failure_text_saved f : ¬ failure_text (saved_msg f).
Proof. intros H. by apply H. Qed.

(** The messages of the loaders, of the engine and of the writer never
    read as a report of success. *)
Lemma check_employees_Raise_text (rows : list row) i seen x :
  check_employees rows i seen = Raise x → failure_text (exn_str x).
Proof.
  revert i seen. induction rows as [|r rows IH]; intros i seen; simpl;
    [done|].
  destruct (missing_or_empty _); [by intros [= <-]|].
  destruct (missing_or_empty _); [by intros [= <-]|].
  case_bool_decide; [by intros [= <-]|]. apply IH.
Qed.

Lemma load_employees_Raise_text (fs : gmap string file)
    (file_path : string) self x self' :
  load_employees_from_csv fs file_path self = (Raise x, self') →
  failure_text (exn_str x) ∧ self' = self.
Proof.
  unfold load_employees_from_csv, read_csv.
  destruct (fs !! file_path) as [[|data]|]; try by intros [= <- <-].
  case_bool_decide; [by intros [= <- <-]|].
  case_bool_decide; [by intros [= <- <-]|].
  destruct (check_employees data 1 ∅) as [[]|y] eqn:Hc; [done|].
  intros [= <- <-]. split; [|done]. by eapply check_employees_Raise_text.
Qed.

Lemma check_last_year_Raise_text (rows : list row) i x :
  check_last_year rows i = Raise x → failure_text (exn_str x).
Proof.
  revert i. induction rows as [|r rows IH]; intros i; simpl; [done|].
  unfold check_last_year_row.
  repeat (destruct (missing_or_empty _); [by intros [= <-]|]).
  simpl. apply IH.
Qed.

Lemma run_load_previous_Raise_text (fs : gmap string file)
    (previous_file : string) self x self' printed :
  run_load_previous fs previous_file self = (Raise x, self', printed) →
  failure_text (exn_str x) ∧ self' = self.
Proof.
  unfold run_load_previous. destruct (truthy _); [|done].
  unfold load_last_year_assignments, read_csv.
  destruct (fs !! previous_file) as [[|data]|]; try by intros [= <- <-].
  case_bool_decide; [done|].
  destruct (check_last_year data 1) as [[]|y] eqn:Hc; [done|].
  intros [= <- <- _]. split; [|done]. by eapply check_last_year_Raise_text.
Qed.

Lemma generate_Raise_text (sh : shuffler) self (g : nat) x self' g' :
  generate_assignments sh self g = (Raise x, self', g') →
  failure_text (exn_str x).
Proof.
  intros Hrun.
  destruct (generate_cases sh self g)
    as [E|[E|(names & m & _ & _ & E & _)]]; rewrite E in Hrun.
  - by injection Hrun as <- _ _.
  - by injection Hrun as <- _ _.
  - apply attempts_Raise in Hrun as [(-> & _)|[[key|] ->]]; done.
Qed.

(** Whatever [generate_assignments] returns has the four columns in every
    record. *)
Lemma generate_Return_doms (sh : shuffler) self (g : nat) self' g' :
  generate_assignments sh self g = (Return (), self', g') →
  ∀ r : gmap string pyval, r ∈ result self' → dom r = result_keys.
Proof.
  intros Hrun.
  destruct (generate_cases sh self g)
    as [E|[E|(names & m & _ & _ & E & _)]]; rewrite E in Hrun; try done.
  destruct (attempts_cases names
    (build_last_year (last_year_assignments self)) sh m max_attempts g
    names self) as [[E' _]|(k & _ & _ & _ & E')]; rewrite E' in Hrun;
    [done|].
  injection Hrun as Hb _.
  apply build_result_rows in Hb as (rows & Hres & Hrows & _).
  cbn in Hres. rewrite Hres. intros r Hr.
  apply list_elem_of_lookup in Hr as [i Hi].
  destruct (Forall2_lookup_r _ _ _ _ _ Hrows Hi) as (p & _ & Hrow).
  by apply result_row_inv in Hrow as (gd & cd & _ & _ & Hdom & _).
Qed.

(** Records that all have the columns of the first: the write succeeds or
    leaves the disk as it was. *)
Lemma write_csv_same_doms (can_open : string → bool)
    (fs : gmap string file) (file_path : string) (data : list row)
    (F : gset string) :
  (∀ r : gmap string pyval, r ∈ data → dom r = F) →
  match write_csv can_open fs file_path data with
  | (Return _, d) =>
      can_open file_path = true ∧ data ≠ []
      ∧ d = <[file_path := table F (written_row F <$> data)]> fs
  | (Raise x, d) => d = fs ∧ failure_text (exn_str x)
  end.
Proof.
  intros Hdom. unfold write_csv. destruct data as [|first rest]; [done|].
  destruct (can_open file_path); [|done].
  assert (HF : dom first = F) by (apply Hdom; left). rewrite HF.
  pose proof (write_rows_spec F (first :: rest)) as Hspec.
  destruct (write_rows F (first :: rest)) as [rows []].
  - by destruct Hspec as [-> _].
  - destruct Hspec as (k & r & Hk & Hbad & _). destruct Hbad.
    rewrite (Hdom r); [done|]. by eapply list_elem_of_lookup_2.
Qed.

Lemma last_snoc_text (l : list string) s : last (l ++ [s]) = Some s.
Proof. by rewrite last_snoc. Qed.

Lemma disk_prints (w : world) (printed : list string) :
  disk (foldl (λ w s, print s w) w printed) = disk w
  ∧ stdin (foldl (λ w s, print s w) w printed) = stdin w
  ∧ rng (foldl (λ w s, print s w) w printed) = rng w.
Proof.
  revert w. induction printed as [|s printed IH]; intros w; simpl; [done|].
  destruct (IH (print s w)) as (-> & -> & ->). done.
Qed.

Lemma disk_print s (w : world) : disk (print s w) = disk w.
Proof. done. Qed.

Lemma stdout_print s (w : world) : stdout (print s w) = stdout w ++ [s].
Proof. done. Qed.

Lemma stdout_prints (w : world) (printed : list string) :
  stdout (foldl (λ w s, print s w) w printed) = stdout w ++ printed.
Proof.
  revert w. induction printed as [|s printed IH]; intros w; simpl.
  - by rewrite app_nil_r.
  - rewrite IH. simpl. by rewrite <-app_assoc.
Qed.

(** The run, read off its definition: it ends in a failure text with the
    disk as it was, or every step has succeeded. *)
Lemma run_cases (sh : shuffler) (can_open : string → bool) self (w : world) :
  (disk (run sh can_open self w).2 = disk w
   ∧ ∃ msg, last (stdout (run sh can_open self w).2) = Some msg
       ∧ failure_text msg)
  ∨ ∃ l1 l2 l3 rest self1 self2 printed self3 g',
      stdin w = l1 :: l2 :: l3 :: rest
      ∧ load_employees_from_csv (disk w) (strip l1) self = (Return (), self1)
      ∧ run_load_previous (disk w) (strip l2) self1
        = (Return (), self2, printed)
      ∧ generate_assignments sh self2 (rng w) = (Return (), self3, g')
      ∧ can_open (output_name l3) = true
      ∧ result self3 ≠ []
      ∧ run sh can_open self w
        = (self3,
           mkWorld
             (<[output_name l3 :=
                  table result_keys (written_row result_keys <$> result self3)]>
                (disk w))
             rest
             (stdout w ++ [employee_prompt; previous_prompt] ++ printed
                ++ [output_prompt; saved_msg (output_name l3)])
             g').
Proof.
  destruct w as [d i o g]. unfold run, input. cbn [stdin disk stdout rng].
  destruct i as [|l1 i].
  { left. cbn. split; [done|]. exists eof_msg. by rewrite last_snoc. }
  cbn [disk].
  destruct (load_employees_from_csv d (strip l1) self) as [[[]|x] self1]
    eqn:Hload.
  2:{ left. cbn. split; [done|]. exists (exn_str x). rewrite last_snoc.
      split; [done|]. by eapply load_employees_Raise_text. }
  unfold run_previous, input. cbn [stdin disk stdout rng].
  destruct i as [|l2 i].
  { left. cbn. split; [done|]. exists eof_msg. by rewrite last_snoc. }
  cbn [disk stdin stdout rng].
  destruct (run_load_previous d (strip l2) self1) as [[[[]|x] self2] printed]
    eqn:Hprev.
  all: destruct (disk_prints (mkWorld d i ((o ++ [employee_prompt])
    ++ [previous_prompt]) g) printed) as (Hd & Hi & Hg);
    cbn [disk stdin rng] in Hd, Hi, Hg.
  2:{ left. cbn [snd]. rewrite disk_print, stdout_print, last_snoc, Hd.
      split; [done|]. exists (exn_str x).
      split; [done|]. by eapply run_load_previous_Raise_text. }
  unfold run_generate. rewrite Hg.
  destruct (generate_assignments sh self2 g) as [[[[]|x] self3] g'] eqn:Hgen.
  2:{ left. cbn [snd]. rewrite disk_print, stdout_print, last_snoc.
      cbn [set_rng disk]. rewrite Hd.
      split; [done|]. exists (exn_str x).
      split; [done|]. by eapply generate_Raise_text. }
  unfold run_save, input. cbn [set_rng stdin disk stdout rng].
  rewrite Hi, Hd.
  destruct i as [|l3 rest].
  { left. cbn [snd]. rewrite disk_print, stdout_print, last_snoc.
    rewrite disk_print. cbn [disk].
    split; [done|]. by exists eof_msg. }
  cbn [disk stdin stdout rng].
  pose proof (write_csv_same_doms can_open d (output_name l3)
    (result self3) result_keys (generate_Return_doms _ _ _ _ _ Hgen))
    as Hwrite.
  destruct (write_csv can_open d (output_name l3) (result self3))
    as [[[]|x] d'].
  - right. destruct Hwrite as (Hopen & Hne & ->).
    exists l1, l2, l3, rest, self1, self2, printed, self3, g'.
    split_and!; try done.
    cbn [set_disk print disk stdin stdout rng].
    rewrite stdout_prints. unfold print, set_disk.
    cbn [disk stdin stdout rng]. do 2 f_equal. by rewrite <-!app_assoc.
  - left. destruct Hwrite as [-> Htext]. cbn [snd].
    rewrite disk_print, stdout_print, last_snoc. cbn [set_disk disk].
    split; [done|]. by exists (exn_str x).
Qed.

(** Validated participants have a string in both cells. *)
Lemma validated_cells (data : list row) :
  (∀ i r, data !! i = Some r → ¬ offending data i r) →
  ∀ e : gmap string pyval, e ∈ data →
    (∃ s, e !! "Employee_Name" = Some (Some s))
    ∧ (∃ s, e !! "Employee_EmailID" = Some (Some s)).
Proof.
  intros Hok e [i Hi]%list_elem_of_lookup. split.
  - destruct (blank_false (name_of e)) as (s & Hs & _).
    { destruct (blank (name_of e)) eqn:Hb; [|done].
      destruct (Hok i e Hi). by left. }
    exists s. by apply dict_get_Some.
  - destruct (blank_false (email_of e)) as (s & Hs & _).
    { destruct (blank (email_of e)) eqn:Hb; [|done].
      destruct (Hok i e Hi). by right; left. }
    exists s. by apply dict_get_Some.
Qed.

(** With a string in both cells of every participant, the records of a
    returning call are rows as a reader returns them. *)
Lemma generate_Return_uniform (sh : shuffler) self (g : nat) self' g' :
  (∀ e : gmap string pyval, e ∈ employees self →
     (∃ s, e !! "Employee_Name" = Some (Some s))
     ∧ (∃ s, e !! "Employee_EmailID" = Some (Some s))) →
  generate_assignments sh self g = (Return (), self', g') →
  ∀ r : gmap string pyval, r ∈ result self' → uniform result_keys r.
Proof.
  intros Hcells Hrun.
  destruct (generate_cases sh self g)
    as [E|[E|(names & m & _ & _ & E & _ & Hinv)]]; rewrite E in Hrun;
    try done.
  destruct (attempts_cases names
    (build_last_year (last_year_assignments self)) sh m max_attempts g
    names self) as [[E' _]|(k & _ & _ & _ & E')]; rewrite E' in Hrun;
    [done|].
  injection Hrun as Hb _.
  apply build_result_rows in Hb as (rows & Hres & Hrows & _).
  cbn in Hres. rewrite Hres. intros r Hr.
  apply list_elem_of_lookup in Hr as [i Hi].
  destruct (Forall2_lookup_r _ _ _ _ _ Hrows Hi) as (p & _ & Hrow).
  apply result_row_inv in Hrow
    as (gd & cd & Hgd & Hcd & Hdom & Hgn & Hgi & Hcn & Hci).
  destruct (Hinv _ _ Hgd) as [Hgin _]. destruct (Hinv _ _ Hcd) as [Hcin _].
  destruct (Hcells gd Hgin) as [[s1 H1] [s2 H2]].
  destruct (Hcells cd Hcin) as [[s3 H3] [s4 H4]].
  split; [done|]. intros f v Hf.
  assert (Hin : f ∈ result_keys).
  { rewrite <-Hdom. apply elem_of_dom. by eexists. }
  unfold result_keys in Hin.
  apply elem_of_union in Hin as [Hin|Hin%elem_of_singleton];
    [apply elem_of_union in Hin as [Hin|Hin%elem_of_singleton];
      [apply elem_of_union in Hin as [Hin%elem_of_singleton
                                     |Hin%elem_of_singleton]|]|];
    subst f.
  - rewrite Hgn, H1 in Hf. injection Hf as <-. by eexists.
  - rewrite Hgi, H2 in Hf. injection Hf as <-. by eexists.
  - rewrite Hcn, H3 in Hf. injection Hf as <-. by eexists.
  - rewrite Hci, H4 in Hf. injection Hf as <-. by eexists.
Qed.

Lemma result_keys_nonempty : result_keys ≠ ∅.
Proof.
  apply (non_empty_inhabited_L "Employee_Name"). unfold result_keys.
  set_solver.
Qed.

(** Such rows are read back as they are. *)
Lemma table_uniform (rows : list row) :
  (∀ r : gmap string pyval, r ∈ rows → uniform result_keys r) →
  table result_keys (written_row result_keys <$> rows) = Rows rows.
Proof.
  intros Huni. unfold table. rewrite decide_False by apply result_keys_nonempty.
  f_equal. induction rows as [|r rows IH]; [done|]. rewrite fmap_cons.
  rewrite written_row_uniform by (apply Huni; left).
  f_equal. apply IH. intros r' Hr'. apply Huni. by right.
Qed.

(** What step 2 of [run] leaves in the model when it succeeds. *)
Lemma run_load_previous_Return (fs : gmap string file)
    (previous_file : string) self self' printed :
  run_load_previous fs previous_file self = (Return (), self', printed) →
  employees self' = employees self
  ∧ if truthy (Some previous_file)
    then read_csv fs previous_file = Return (last_year_assignments self')
         ∧ ∀ i r, last_year_assignments self' !! i = Some r →
             first_blank_field r = None
    else last_year_assignments self' = [].
Proof.
  unfold run_load_previous. destruct (truthy (Some previous_file)).
  - intros (data & Hread & -> & Hok)%load_last_year_Return. by simpl.
  - by intros [= <- _].
Qed.

(** The run, with what its success rests on. *)
Lemma run_outcome (sh : shuffler) (can_open : string → bool) self
    (w : world) :
  let out := run sh can_open self w in
  (disk out.2 = disk w
   ∧ ∃ msg, last (stdout out.2) = Some msg ∧ failure_text msg)
  ∨ ∃ l1 l2 l3 rest self2 g',
      stdin w = l1 :: l2 :: l3 :: rest
      ∧ read_csv (disk w) (strip l1) = Return (employees self2)
      ∧ 2 < length (employees self2)
      ∧ (∀ i r, employees self2 !! i = Some r →
           ¬ offending (employees self2) i r)
      ∧ (if truthy (Some (strip l2))
         then read_csv (disk w) (strip l2)
              = Return (last_year_assignments self2)
              ∧ ∀ i r, last_year_assignments self2 !! i = Some r →
                  first_blank_field r = None
         else last_year_assignments self2 = [])
      ∧ generate_assignments sh self2 (rng w) = (Return (), out.1, g')
      ∧ can_open (output_name l3) = true
      ∧ stdin out.2 = rest
      ∧ rng out.2 = g'
      ∧ last (stdout out.2) = Some (saved_msg (output_name l3))
      ∧ disk out.2 = <[output_name l3 := Rows (result out.1)]> (disk w).
Proof.
  intros out. subst out.
  destruct (run_cases sh can_open self w)
    as [Hfail|(l1 & l2 & l3 & rest & self1 & self2 & printed & self3 & g'
               & Hin & Hload & Hprev & Hgen & Hopen & Hne & E)];
    [by left|right].
  apply load_employees_Return in Hload as (data & Hread & -> & Hlen & Hok).
  apply run_load_previous_Return in Hprev as [Hemp Hprior].
  cbn in Hemp.
  exists l1, l2, l3, rest, self2, g'. rewrite E, Hemp.
  cbn [fst snd disk stdin stdout rng].
  split_and!; try done.
  - by rewrite !last_app.
  - rewrite table_uniform; [done|].
    eapply generate_Return_uniform; [|done]. rewrite Hemp.
    by apply validated_cells.
Qed.

(** X14.  A run writes only when it succeeds: either the disk is as it was
    and the last text on standard output is not the report of success, or
    three lines were read, the output file could be opened, the last text
    is the report naming that file, and the file now reads back as the
    result held by the model. *)
Theorem run_all_or_nothing (sh : shuffler) (can_open : string → bool) self
    (w : world) :
  let out := run sh can_open self w in
  (disk out.2 = disk w
   ∧ ∃ msg, last (stdout out.2) = Some msg ∧ failure_text msg)
  ∨ ∃ l1 l2 l3 rest,
      stdin w = l1 :: l2 :: l3 :: rest
      ∧ stdin out.2 = rest
      ∧ can_open (output_name l3) = true
      ∧ last (stdout out.2) = Some (saved_msg (output_name l3))
      ∧ read_csv (disk out.2) (output_name l3) = Return (result out.1).
Proof.
  intros out. subst out.
  destruct (run_outcome sh can_open self w)
    as [Hfail|(l1 & l2 & l3 & rest & self2 & g' & Hin & _ & _ & _ & _ & _
               & Hopen & Hrest & _ & Hlast & Hdisk)];
    [by left|right].
  exists l1, l2, l3, rest. split_and!; try done.
  rewrite Hdisk. unfold read_csv. by rewrite lookup_insert_eq.
Qed.

Lemma saved_msg_inj f f' : saved_msg f = saved_msg f' → f = f'.
Proof. intros H. cbv in H. by injection H. Qed.

(** X15.  The program end to end, under a shuffle that rearranges: whenever
    the last text on standard output is the report of success for a file,
    three lines were read, the file is the one named by the third (the
    default name for a blank answer), the model holds the participants
    table of the first answer and the prior table of the second (none for
    a blank answer), and the file reads back as the result: one record per
    participant in the order of the table, the recipients a rearrangement
    of the givers, nobody their own recipient and nobody given the
    recipient the prior table records for them. *)
Theorem main_end_to_end (sh : shuffler) (can_open : string → bool)
    (w : world) (f : string) :
  fair sh →
  let out := main sh can_open w in
  last (stdout out.2) = Some (saved_msg f) →
  ∃ l1 l2 l3 rest,
    stdin w = l1 :: l2 :: l3 :: rest
    ∧ f = output_name l3
    ∧ read_csv (disk w) (strip l1) = Return (employees out.1)
    ∧ (if truthy (Some (strip l2))
       then read_csv (disk w) (strip l2)
            = Return (last_year_assignments out.1)
       else last_year_assignments out.1 = [])
    ∧ read_csv (disk out.2) f = Return (result out.1)
    ∧ givers (result out.1) = email_of <$> employees out.1
    ∧ recipients (result out.1) ≡ₚ givers (result out.1)
    ∧ ∀ i, i < length (employees out.1) →
        recipients (result out.1) !!! i ≠ givers (result out.1) !!! i
        ∧ ∀ p,
            build_last_year (last_year_assignments out.1)
              !! (givers (result out.1) !!! i) = Some p →
            recipients (result out.1) !!! i ≠ p.
Proof.
  intros Hfair out Hsaved. subst out. unfold main in *.
  destruct (run_outcome sh can_open (init None None) (print welcome_msg w))
    as [(_ & msg & Hlast & Htext)
       |(l1 & l2 & l3 & rest & self2 & g' & Hin & Hread & Hlen & Hok & Hprior
         & Hgen & Hopen & Hrest & _ & Hlast & Hdisk)].
  { assert (msg = saved_msg f) as -> by congruence.
    by apply failure_text_saved in Htext. }
  assert (f = output_name l3) as ->.
  { apply saved_msg_inj. congruence. }
  clear Hsaved Hlast.
  cbn [print disk stdin rng] in Hin, Hread, Hprior, Hgen, Hdisk.
  pose proof (generate_frame sh self2 (rng w)) as (Hemp & Hly & _).
  rewrite Hgen in Hemp, Hly. cbn [fst snd] in Hemp, Hly.
  destruct (validated_names _ Hok) as (Hnames & _ & _ & _).
  destruct (generate_enters_loop sh self2 (rng w) _ ltac:(lia) Hnames)
    as (m & E & _ & Hinv).
  rewrite E in Hgen.
  apply attempts_Return in Hgen as (_ & Hg & Hp & Hsf & Hrf);
    [|done|intros k e Hke; by apply Hinv].
  rewrite Hemp, Hly.
  exists l1, l2, l3, rest. split_and!; try done.
  - by destruct (truthy (Some (strip l2))); [destruct Hprior|].
  - rewrite Hdisk. unfold read_csv. by rewrite lookup_insert_eq.
  - by rewrite Hg.
  - intros i Hi. rewrite Hg. rewrite length_fmap in Hsf, Hrf. split.
    + intros Heq. by apply (Hsf i Hi).
    + intros p Hp' Heq. apply (Hrf i Hi). unfold dict_get. by rewrite Hp'.
Qed.

(** The sample disk with three answers waiting: the staff table, last
    year's table, a blank for the default output name. *)
Lemma main_end_to_end_witness :
  let out := main Samples.sample_shuffle writable sample_world in
  let f := default_output in
  fair Samples.sample_shuffle
  ∧ last (stdout out.2) = Some (saved_msg f)
  ∧ ∃ l1 l2 l3 rest,
      stdin sample_world = l1 :: l2 :: l3 :: rest
      ∧ f = output_name l3
      ∧ read_csv (disk sample_world) (strip l1) = Return (employees out.1)
      ∧ (if truthy (Some (strip l2))
         then read_csv (disk sample_world) (strip l2)
              = Return (last_year_assignments out.1)
         else last_year_assignments out.1 = [])
      ∧ read_csv (disk out.2) f = Return (result out.1)
      ∧ givers (result out.1) = email_of <$> employees out.1
      ∧ recipients (result out.1) ≡ₚ givers (result out.1)
      ∧ ∀ i, i < length (employees out.1) →
          recipients (result out.1) !!! i ≠ givers (result out.1) !!! i
          ∧ ∀ p,
              build_last_year (last_year_assignments out.1)
                !! (givers (result out.1) !!! i) = Some p →
              recipients (result out.1) !!! i ≠ p.
Proof.
  split; [apply python_shuffle_fair|].
  split; [vm_compute; reflexivity|].
  apply (main_end_to_end Samples.sample_shuffle writable sample_world
           default_output (python_shuffle_fair _)).
  vm_compute. reflexivity.
Defined.

(** Two models with the same participants and prior assignments. *)
Lemma attempts_same_tables (sh : shuffler) (names : list pyval)
    (last_year : gmap pyval pyval) (m : gmap pyval row) (left g : nat)
    (r : list pyval) self self' :
  employees self = employees self' →
  last_year_assignments self = last_year_assignments self' →
  let a := attempts sh names last_year m left g r self in
  let a' := attempts sh names last_year m left g r self' in
  a.1.1 = a'.1.1 ∧ a.2 = a'.2
  ∧ (a.1.1 ≠ Raise (RuntimeError exhausted_msg) → a.1.2 = a'.1.2).
Proof.
  intros He Hl. cbv zeta.
  assert (Hset : set_result self [] = set_result self' []).
  { destruct self, self'. cbn in *. by subst. }
  revert g r. induction left as [|left IH]; intros g r; cbn [attempts].
  - done.
  - destruct (attempt names last_year sh g r) as [[] r']; [|apply IH].
    by rewrite Hset.
Qed.

Lemma generate_same_tables (sh : shuffler) self self' (g : nat) :
  employees self = employees self' →
  last_year_assignments self = last_year_assignments self' →
  let a := generate_assignments sh self g in
  let a' := generate_assignments sh self' g in
  a.1.1 = a'.1.1 ∧ a.2 = a'.2
  ∧ (a.1.1 = Return () → a.1.2 = a'.1.2).
Proof.
  intros He Hl. cbv zeta. unfold generate_assignments. rewrite <-He, <-Hl.
  case_bool_decide; [done|].
  destruct (build_email_to_emp (employees self) ∅) as [m|x]; [|done].
  destruct (build_names (employees self)) as [names|x]; [|done].
  destruct (attempts_same_tables sh names
    (build_last_year (last_year_assignments self)) m max_attempts g names
    self self' He Hl) as (H1 & H2 & H3).
  split_and!; [done|done|]. intros Hret. apply H3. by rewrite Hret.
Qed.

Lemma load_employees_same (fs : gmap string file) (file_path : string)
    self self' :
  let a := load_employees_from_csv fs file_path self in
  let a' := load_employees_from_csv fs file_path self' in
  a.1 = a'.1
  ∧ (a.1 = Return () → employees a.2 = employees a'.2).
Proof.
  cbv zeta. unfold load_employees_from_csv.
  destruct (read_csv fs file_path) as [data|x]; [|done].
  case_bool_decide; [done|]. case_bool_decide; [done|].
  by destruct (check_employees data 1 ∅) as [[]|x].
Qed.

Lemma run_load_previous_same (fs : gmap string file)
    (previous_file : string) self self' :
  let a := run_load_previous fs previous_file self in
  let a' := run_load_previous fs previous_file self' in
  a.1.1 = a'.1.1 ∧ a.2 = a'.2
  ∧ (employees self = employees self' → a.1.1 = Return () →
     employees a.1.2 = employees a'.1.2
     ∧ last_year_assignments a.1.2 = last_year_assignments a'.1.2).
Proof.
  cbv zeta. unfold run_load_previous, load_last_year_assignments.
  destruct (truthy (Some previous_file)); [|done].
  destruct (read_csv fs previous_file) as [data|x]; [|done].
  case_bool_decide; [done|].
  by destruct (check_last_year data 1) as [[]|x].
Qed.

Lemma run_save_same (can_open : string → bool) self self' (w : world) :
  result self = result self' →
  (run_save can_open self w).2 = (run_save can_open self' w).2.
Proof.
  intros Hres. unfold run_save.
  destruct (input output_prompt w) as [[line|] w1]; [|done].
  rewrite Hres.
  by destruct (write_csv can_open (disk w1) (output_name line)
                 (result self')) as [[[]|x] d].
Qed.

Lemma run_generate_same (sh : shuffler) (can_open : string → bool)
    self self' (w : world) :
  employees self = employees self' →
  last_year_assignments self = last_year_assignments self' →
  (run_generate sh can_open self w).2 = (run_generate sh can_open self' w).2.
Proof.
  intros He Hl. unfold run_generate.
  pose proof (generate_same_tables sh self self' (rng w) He Hl) as Hsame.
  cbv zeta in Hsame.
  destruct (generate_assignments sh self (rng w)) as [[o s] g].
  destruct (generate_assignments sh self' (rng w)) as [[o' s'] g'].
  cbn [fst snd] in Hsame. destruct Hsame as (<- & <- & Hs).
  destruct o as [[]|x]; [|done].
  apply run_save_same. by rewrite Hs.
Qed.

Lemma run_previous_same (sh : shuffler) (can_open : string → bool)
    self self' (w : world) :
  employees self = employees self' →
  (run_previous sh can_open self w).2 = (run_previous sh can_open self' w).2.
Proof.
  intros He. unfold run_previous.
  destruct (input previous_prompt w) as [[line|] w1]; [|done].
  pose proof (run_load_previous_same (disk w1) (strip line) self self')
    as Hsame. cbv zeta in Hsame.
  destruct (run_load_previous (disk w1) (strip line) self) as [[o s] p].
  destruct (run_load_previous (disk w1) (strip line) self') as [[o' s'] p'].
  cbn [fst snd] in Hsame. destruct Hsame as (<- & <- & Hs).
  destruct o as [[]|x]; [|done].
  destruct (Hs He eq_refl) as [He' Hl']. by apply run_generate_same.
Qed.

(** X16.  What a run does to the disk, to standard input and output and
    to the generator never depends on what the model held before: not on
    the participants or prior assignments given to the constructor, nor on
    a result left by an earlier call. *)
Theorem run_ignores_model (sh : shuffler) (can_open : string → bool)
    self self' (w : world) :
  (run sh can_open self w).2 = (run sh can_open self' w).2.
Proof.
  unfold run.
  destruct (input employee_prompt w) as [[line|] w1]; [|done].
  pose proof (load_employees_same (disk w1) (strip line) self self')
    as Hsame. cbv zeta in Hsame.
  destruct (load_employees_from_csv (disk w1) (strip line) self) as [o s].
  destruct (load_employees_from_csv (disk w1) (strip line) self')
    as [o' s'].
  cbn [fst snd] in Hsame. destruct Hsame as (<- & Hs).
  destruct o as [[]|x]; [|done].
  apply run_previous_same. by apply Hs.
Qed.

(** * Step 2 against its specification *)

Section repair_refinement.
Variable names : list pyval.
Variable last_year : gmap pyval pyval.
Local Abbreviation n := (length names).

Lemma can_swap_allowed r i j :
  can_swap names last_year r i j = true ↔ swap_allowed names last_year r i j.
Proof. apply can_swap_spec. Qed.

Lemma can_swap_not_allowed r i j :
  can_swap names last_year r i j = false ↔
    ¬ swap_allowed names last_year r i j.
Proof.
  rewrite <-can_swap_allowed.
  destruct (can_swap names last_year r i j); naive_solver.
Qed.

(** The assignment [l[i], l[j] = l[j], l[i]] of the code exchanges the two
    entries and nothing else. *)
Lemma swap_exchanged (r : list pyval) i j :
  i < length r → j < length r → exchanged r i j (swap r i j).
Proof.
  intros Hi Hj.
  assert (Hlen : length (swap r i j) = length r) by apply length_swap.
  split_and!; [done| | |].
  - rewrite (list_lookup_lookup_total_lt (swap r i j) i) by lia.
    rewrite (list_lookup_lookup_total_lt r j) by lia.
    by rewrite swap_lookup_l.
  - rewrite (list_lookup_lookup_total_lt (swap r i j) j) by lia.
    rewrite (list_lookup_lookup_total_lt r i) by lia.
    by rewrite swap_lookup_r.
  - intros k Hki Hkj. destruct (decide (k < length r)) as [Hk|Hk].
    + rewrite (list_lookup_lookup_total_lt (swap r i j) k) by lia.
      rewrite (list_lookup_lookup_total_lt r k) by lia.
      by rewrite swap_lookup_other.
    + rewrite !lookup_ge_None_2; [done|lia|lia].
Qed.

(** Exchanging two entries leaves one list only. *)
Lemma exchanged_unique (r r1 r2 : list pyval) i j :
  exchanged r i j r1 → exchanged r i j r2 → r1 = r2.
Proof.
  intros (_ & Hi1 & Hj1 & Ho1) (_ & Hi2 & Hj2 & Ho2).
  apply list_eq. intros k.
  destruct (decide (k = i)) as [->|Hki]; [congruence|].
  destruct (decide (k = j)) as [->|Hkj]; [congruence|].
  by rewrite Ho1, Ho2.
Qed.

Lemma fix_repeats_sound k m r out :
  k + m = n → length r = n →
  fix_repeats names last_year (seq k m) r = out →
  repair_pass_spec names last_year k r out.
Proof.
  revert k r. induction m as [|m IH]; intros k r Hkm Hlen; simpl.
  - intros <-. replace k with n by lia. constructor.
  - case_bool_decide as Hrep.
    + destruct (find_swap names last_year r k (seq 0 n)) as [j|] eqn:Hfind.
      * apply find_swap_range_Some in Hfind as (Hj & Hc & Hfirst).
        intros Hrun.
        eapply (repair_swap _ _ k j r (swap r k j)); try done; [lia| | | |].
        -- by apply can_swap_allowed.
        -- intros j' Hj'. by apply can_swap_not_allowed, Hfirst.
        -- apply swap_exchanged; lia.
        -- apply IH; [lia|by rewrite length_swap|done].
      * intros <-. apply repair_abandon; [lia|done|].
        intros j Hj. apply can_swap_not_allowed.
        by eapply find_swap_range_None.
    + intros Hrun. apply repair_skip; [lia|done|]. apply IH; [lia|done|done].
Qed.

Lemma fix_repeats_complete_spec k r out :
  length r = n →
  repair_pass_spec names last_year k r out →
  fix_repeats names last_year (seq k (n - k)) r = out.
Proof.
  intros Hlen Hspec. revert Hlen.
  induction Hspec as [r|i r out Hi Hne _ IH
                     |i j r r' out Hi Heq Hj Hok Hfirst Hex _ IH
                     |i r Hi Heq Hnone]; intros Hlen.
  - by rewrite Nat.sub_diag.
  - replace (n - i) with (S (n - S i)) by lia. simpl.
    rewrite bool_decide_false by done. by apply IH.
  - replace (n - i) with (S (n - S i)) by lia. simpl.
    rewrite bool_decide_true by done.
    assert (Hfind : find_swap names last_year r i (seq 0 n) = Some j).
    { apply find_swap_range_Some. split_and!; [done| |].
      - by apply can_swap_allowed.
      - intros j' Hj'. by apply can_swap_not_allowed, Hfirst. }
    rewrite Hfind.
    assert (r' = swap r i j) as ->.
    { eapply exchanged_unique; [done|]. apply swap_exchanged; lia. }
    apply IH. by rewrite length_swap.
  - replace (n - i) with (S (n - S i)) by lia. simpl.
    rewrite bool_decide_true by done.
    assert (Hfind : find_swap names last_year r i (seq 0 n) = None).
    { apply find_swap_range_None. intros j Hj.
      by apply can_swap_not_allowed, Hnone. }
    by rewrite Hfind.
Qed.

Lemma fix_repeats_spec_iff r out :
  length r = n →
  fix_repeats names last_year (seq 0 n) r = out
  ↔ repair_pass_spec names last_year 0 r out.
Proof.
  intros Hlen. split.
  - by apply fix_repeats_sound.
  - intros H%fix_repeats_complete_spec; [|done].
    by rewrite Nat.sub_0_r in H.
Qed.

Lemma length_repair_input (sh : shuffler) g k :
  fair sh →
  length (repair_input sh names last_year g names k) = n.
Proof.
  intros Hfair. unfold repair_input.
  assert (Hp : sh (g + k) (receivers_at sh names last_year g names k)
               ≡ₚ names).
  { rewrite (Hfair _ _). by apply receivers_at_perm. }
  apply Permutation_length. rewrite fix_self_perm; [done|].
  by apply Permutation_length.
Qed.

(** An iteration abandoned in its repair pass does not pass. *)
Lemma abandoned_fails (sh : shuffler) g k :
  fair sh →
  abandoned sh names last_year g names k →
  attempt_passes sh names last_year g names k = false.
Proof.
  intros Hfair [r3 Hspec].
  apply fix_repeats_spec_iff in Hspec; [|by apply length_repair_input].
  unfold attempt_passes, attempt. unfold repair_input in Hspec.
  by rewrite Hspec.
Qed.

(** With distinct names, an iteration whose repair pass is completed
    passes, and leaves the list of the pass. *)
Lemma completed_passes (sh : shuffler) g k r3 :
  fair sh → NoDup names → 2 ≤ n →
  repair_pass_spec names last_year 0
    (repair_input sh names last_year g names k) (true, r3) →
  attempt_passes sh names last_year g names k = true
  ∧ receivers_at sh names last_year g names (S k) = r3.
Proof.
  intros Hfair Hnd Hn Hspec.
  apply fix_repeats_spec_iff in Hspec; [|by apply length_repair_input].
  unfold repair_input in Hspec.
  assert (Hp : sh (g + k) (receivers_at sh names last_year g names k)
               ≡ₚ names).
  { rewrite (Hfair _ _). by apply receivers_at_perm. }
  pose proof (completed_pass_verifies names last_year _ _ Hnd Hn Hp Hspec)
    as Hcheck.
  unfold attempt_passes. cbn [receivers_at]. unfold attempt.
  by rewrite Hspec, Hcheck.
Qed.
End repair_refinement.

(** C7.  The prior-repeat repair pass of the code is the pass of the
    specification: indices in order; at an index whose recipient is the
    prior one, the entries at [i] and at the first [j] (scanning from 0)
    that meets the five conditions are exchanged, every other entry staying
    as it was; when there is no such [j] the pass stops with the flag
    false.  An abandoned attempt is not a failure of the call: for
    distinct emails, when the first [k] attempts are abandoned and the
    repair pass of attempt [k] is completed, the call returns the list of
    that pass, having drawn [k + 1] shuffles; only when all 100 attempts
    are abandoned does it raise the exhaustion error. *)
Theorem fix_repeats_refines_spec (names : list pyval)
    (last_year : gmap pyval pyval) :
  (∀ r0 out,
     length r0 = length names →
     fix_repeats names last_year (seq 0 (length names)) r0 = out
     ↔ repair_pass_spec names last_year 0 r0 out)
  ∧ ∀ (sh : shuffler) self (g : nat),
      fair sh → NoDup names → 2 ≤ length names →
      build_names (employees self) = Return names →
      (∀ e : gmap string pyval,
         e ∈ employees self → is_Some (e !! "Employee_Name")) →
      build_last_year (last_year_assignments self) = last_year →
      (∀ k r3,
         k < max_attempts →
         (∀ k', k' < k → abandoned sh names last_year g names k') →
         repair_pass_spec names last_year 0
           (repair_input sh names last_year g names k) (true, r3) →
         ∃ self',
           generate_assignments sh self g = (Return (), self', g + S k)
           ∧ givers (result self') = names
           ∧ recipients (result self') = r3)
      ∧ ((∀ k, k < max_attempts → abandoned sh names last_year g names k) →
         generate_assignments sh self g
         = (Raise (RuntimeError exhausted_msg), self, g + max_attempts)).
Proof.
  split; [apply fix_repeats_spec_iff|].
  intros sh self g Hfair Hnd Hn Hnames Hname <-. split.
  - intros k r3 Hk Hbefore Hdone.
    destruct (completed_passes names _ sh g k r3 Hfair Hnd Hn Hdone)
      as [Hpass <-].
    apply (first_pass_returns sh self g names k Hfair Hn Hnames Hname Hk
             Hpass).
    intros k' Hk'. by apply (abandoned_fails names _ sh), Hbefore.
  - intros Hall. apply (all_fail_exhausts sh self g names Hn Hnames).
    intros k Hk. by apply (abandoned_fails names _ sh), Hall.
Qed.

(** Four participants, Ann and Cyd both with Bob last year.  The first
    shuffle gives b, c, d, a: index 0 repeats and no partner meets the five
    conditions, so the attempt is abandoned.  The second shuffle gives
    b, a, d, c: the first partner for index 0 is 3, the entries at 0 and 3
    are exchanged, the pass is completed and the call returns c, a, d, b
    after two shuffles. *)
Lemma fix_repeats_refines_spec_witness :
  let last_year := build_last_year (last_year_assignments two_priors) in
  let a := Some "a@x" in
  let b := Some "b@x" in
  let c := Some "c@x" in
  let d := Some "d@x" in
  repair_pass_spec names4 last_year 0 [b; c; d; a] (false, [b; c; d; a])
  ∧ repair_pass_spec names4 last_year 0 [b; a; d; c] (true, [c; a; d; b])
  ∧ ∃ self',
      generate_assignments scripted_shuffle two_priors 0
        = (Return (), self', 0 + 2)
      ∧ givers (result self') = names4
      ∧ recipients (result self') = [c; a; d; b].
Proof.
  intros last_year a b c d.
  destruct (fix_repeats_refines_spec names4 last_year) as [Hpass Hretry].
  assert (H0 : repair_pass_spec names4 last_year 0 [b; c; d; a]
                 (false, [b; c; d; a])).
  { apply Hpass; [reflexivity|]. vm_compute. reflexivity. }
  assert (H1 : repair_pass_spec names4 last_year 0 [b; a; d; c]
                 (true, [c; a; d; b])).
  { apply Hpass; [reflexivity|]. vm_compute. reflexivity. }
  split; [exact H0|]. split; [exact H1|].
  destruct (Hretry scripted_shuffle two_priors 0) as [Hfirst _].
  - apply python_shuffle_fair.
  - apply (bool_decide_unpack (NoDup names4)). vm_compute. exact I.
  - simpl. lia.
  - vm_compute. reflexivity.
  - intros e He. apply list_elem_of_In in He. simpl in He.
    destruct He as [<-|[<-|[<-|[<-|[]]]]]; by eexists.
  - reflexivity.
  - apply (Hfirst 1 [c; a; d; b]).
    + unfold max_attempts. lia.
    + intros k' Hk'. assert (k' = 0) as -> by lia. exists [b; c; d; a].
      replace (repair_input scripted_shuffle names4 last_year 0 names4 0)
        with [b; c; d; a] by (vm_compute; reflexivity).
      exact H0.
    + replace (repair_input scripted_shuffle names4 last_year 0 names4 1)
        with [b; a; d; c] by (vm_compute; reflexivity).
      exact H1.
Defined.
